(** * Paddy dealer management: the embedded-data codec of [main.py]

    A shallow embedding of [DataManager] (the four static methods that read
    and rewrite the dealer array and the region options inside the HTML
    document), of [GitHubManager] (reading and writing the document through
    the contents interface of GitHub) and of [main] (the load, the buttons
    and forms of the dealers and of the regions, the overview and the
    save), together with the parts of Python's [re], [json], [base64] and
    UTF-8 codecs they call.

    Python strings are sequences of Unicode code points: a [str] is a list
    of code points, each an [N]. *)

From Stdlib Require Import String Ascii.
From Stdlib Require Import List NArith ZArith Bool Lia Arith.
From Stdlib Require Import Permutation Sorted.
Import ListNotations.

Set Default Proof Using "Type".

(* ================================================================== *)
(** ** Strings *)

Definition char := N.
Definition str := list char.

Definition chr (a : ascii) : char := N_of_ascii a.

(** An ASCII literal of the source as a [str]. *)
Definition lit (s : string) : str := map chr (list_ascii_of_string s).
Arguments lit s%_string.

(** The double quote cannot be written inside a literal here: in [litq] a
    single quote stands for it (no literal of the program holds one). *)
Definition litq (s : string) : str :=
  map (fun c => if (c =? 39)%N then 34%N else c) (lit s).
Arguments litq s%_string.

Arguments lit : simpl never.
Arguments litq : simpl never.

(** Characters that cannot be written inside a literal here. *)
Definition dq : char := 34%N.        (* the double quote *)
Definition nl : char := 10%N.        (* \n *)
Definition backslash : char := 92%N.

Definition spaces (n : nat) : str := repeat 32%N n.

Definition in_range (lo hi c : char) : bool := (lo <=? c)%N && (c <=? hi)%N.

Definition is_digit (c : char) : bool := in_range 48%N 57%N c.
Definition is_octdigit (c : char) : bool := in_range 48%N 55%N c.
Definition is_ascii_letter (c : char) : bool := in_range 65%N 90%N c || in_range 97%N 122%N c.

Fixpoint str_eqb (a b : str) : bool :=
  match a, b with
  | [], [] => true
  | x :: a', y :: b' => (x =? y)%N && str_eqb a' b'
  | _, _ => false
  end.

(** Python's [<=] on strings: lexicographic on code points. *)
Fixpoint str_leb (a b : str) : bool :=
  match a, b with
  | [], _ => true
  | _ :: _, [] => false
  | x :: a', y :: b' => if (x <? y)%N then true else if (y <? x)%N then false else str_leb a' b'
  end.

(** [sorted(xs)] on a list of strings. *)
Fixpoint insert_sorted (x : str) (l : list str) : list str :=
  match l with
  | [] => [x]
  | y :: l' => if str_leb x y then x :: l else y :: insert_sorted x l'
  end.

Fixpoint sorted (l : list str) : list str :=
  match l with
  | [] => []
  | x :: l' => insert_sorted x (sorted l')
  end.

(** [sep.join(parts)] *)
Fixpoint join (sep : str) (parts : list str) : str :=
  match parts with
  | [] => []
  | [p] => p
  | p :: rest => p ++ sep ++ join sep rest
  end.

(** A table that is not part of the repository: which code points above
    ASCII Python's [re] counts as alphanumeric. *)
Definition ascii_only : char -> bool := fun _ => false.

Section Program.

(** [unicode_alnum c]: [chr(c).isalnum()] for a code point [c >= 128]. *)
Variable unicode_alnum : char -> bool.

(* ================================================================== *)
(** ** The regular expressions of [re], as backtracking matchers

    A pattern is a function from the text at the current position, the
    capture of group 1 and a continuation; it tries its alternatives in
    the order Python's engine does and answers with the first for which
    the continuation succeeds. No pattern of the program has more than one
    group, and none can match the empty string. *)

Definition caps := option str.
Definition result := (caps * str)%type.
Definition cont := str -> caps -> option result.
Definition regex := str -> caps -> cont -> option result.

Definition r_char (c : char) : regex := fun s g k =>
  match s with
  | x :: t => if (x =? c)%N then k t g else None
  | [] => None
  end.

Fixpoint r_lit (l : str) : regex :=
  match l with
  | [] => fun s g k => k s g
  | c :: l' => fun s g k => r_char c s g (fun s' g' => r_lit l' s' g' k)
  end.

Definition r_seq (a b : regex) : regex := fun s g k =>
  a s g (fun s' g' => b s' g' k).

(** [[class]*?]: the shortest run first. *)
Fixpoint r_star_lazy (p : char -> bool) (s : str) (g : caps) (k : cont) : option result :=
  match k s g with
  | Some r => Some r
  | None =>
      match s with
      | c :: t => if p c then r_star_lazy p t g k else None
      | [] => None
      end
  end.

(** [[class]*]: the longest run first. *)
Fixpoint r_star_greedy (p : char -> bool) (s : str) (g : caps) (k : cont) : option result :=
  match s with
  | c :: t =>
      if p c then
        match r_star_greedy p t g k with
        | Some r => Some r
        | None => k s g
        end
      else k s g
  | [] => k s g
  end.

Definition r_plus_greedy (p : char -> bool) : regex := fun s g k =>
  match s with
  | c :: t => if p c then r_star_greedy p t g k else None
  | [] => None
  end.

(** [(r)]: group 1 is the text [r] consumed. *)
Definition r_group (a : regex) : regex := fun s g k =>
  a s g (fun s' _ => k s' (Some (firstn (length s - length s') s))).

(** [\1] *)
Definition r_backref : regex := fun s g k =>
  match g with
  | Some w => r_lit w s g k
  | None => None
  end.

(** [[\s\S]] *)
Definition any_char : char -> bool := fun _ => true.

(** [\w] on a [str] pattern: alphanumeric or underscore. *)
Definition is_word (c : char) : bool :=
  if (c <? 128)%N then is_digit c || is_ascii_letter c || (c =? 95)%N
  else unicode_alnum c.

(** One attempt at the start of [s]: the captures and the text left. *)
Definition match_at (r : regex) (s : str) : option result :=
  r s None (fun s' g => Some (g, s')).

(** The scan shared by [re.sub], [re.findall] and [re.search]: left to
    right, the leftmost match at each step, then on from its end. [skip]
    is the number of characters still inside the last match. *)
Inductive piece :=
| Gap (c : char)
| Hit (whole : str) (g : caps).

Fixpoint finditer (r : regex) (skip : nat) (s : str) : list piece :=
  match s with
  | [] =>
      match match_at r [] with
      | Some (g, _) => [Hit [] g]
      | None => []
      end
  | c :: t =>
      match skip with
      | S n => finditer r n t
      | O =>
          match match_at r s with
          | Some (g, s') =>
              let len := length s - length s' in
              match len with
              | O => Hit [] g :: Gap c :: finditer r 0 t
              | S n => Hit (firstn len s) g :: finditer r n t
              end
          | None => Gap c :: finditer r 0 t
          end
      end
  end.

Definition group1 (g : caps) : str :=
  match g with
  | Some w => w
  | None => []
  end.

(** [re.findall] for a pattern with one group: group 1 of every match. *)
Definition re_findall (r : regex) (s : str) : list str :=
  flat_map (fun p => match p with Hit _ g => [group1 g] | Gap _ => [] end)
           (finditer r 0 s).

(** [re.search]: the first match, as (whole match, captures). *)
Fixpoint first_hit (ps : list piece) : option (str * caps) :=
  match ps with
  | [] => None
  | Hit w g :: _ => Some (w, g)
  | Gap _ :: ps' => first_hit ps'
  end.

Definition re_search (r : regex) (s : str) : option (str * caps) :=
  first_hit (finditer r 0 s).

(** *** Replacement templates

    [re.sub] with a string replacement first parses it as a template:
    backslash escapes are processed and group references resolved, and a
    bad escape or a reference to a group the pattern does not have raises
    before any matching is done. *)

Inductive tpart :=
| TChar (c : char)
| TGroup (n : nat).

Inductive tmode :=
| TNormal
| TName (digits : option nat).   (* inside [\g<...>] *)

Definition digit_val (c : char) : nat := N.to_nat (c - 48).

Definition push (p : tpart) (r : option (list tpart)) : option (list tpart) :=
  option_map (cons p) r.

Definition add_group (ngroups n : nat) (r : option (list tpart)) : option (list tpart) :=
  if Nat.leb n ngroups then push (TGroup n) r else None.

(** The escapes of [sre_parse.ESCAPES] a template knows. *)
Definition template_escape (c : char) : option char :=
  if (c =? 97)%N then Some 7%N          (* \a *)
  else if (c =? 98)%N then Some 8%N     (* \b *)
  else if (c =? 102)%N then Some 12%N   (* \f *)
  else if (c =? 110)%N then Some 10%N   (* \n *)
  else if (c =? 114)%N then Some 13%N   (* \r *)
  else if (c =? 116)%N then Some 9%N    (* \t *)
  else if (c =? 118)%N then Some 11%N   (* \v *)
  else if (c =? 92)%N then Some 92%N    (* \\ *)
  else None.

Fixpoint parse_template (ngroups : nat) (m : tmode) (s : str) : option (list tpart) :=
  match m with
  | TName digits =>
      match s with
      | [] => None                                    (* missing > *)
      | c :: t =>
          if (c =? 62)%N then                         (* > *)
            match digits with
            | Some n => add_group ngroups n (parse_template ngroups TNormal t)
            | None => None                            (* missing group name *)
            end
          else if is_digit c then
            parse_template ngroups
              (TName (Some (10 * match digits with Some n => n | None => 0 end + digit_val c))) t
          else None                                   (* not a group number; no pattern here names a group *)
      end
  | TNormal =>
      match s with
      | [] => Some []
      | c :: t =>
          if negb (c =? backslash)%N then push (TChar c) (parse_template ngroups TNormal t)
          else
            match t with
            | [] => None                              (* bad escape (end of pattern) *)
            | e :: t1 =>
                if (e =? 103)%N then                  (* \g *)
                  match t1 with
                  | lt :: t2 =>
                      if (lt =? 60)%N then parse_template ngroups (TName None) t2
                      else None                       (* missing < *)
                  | [] => None
                  end
                else if (e =? 48)%N then              (* \0, \0o, \0oo: an octal escape *)
                  match t1 with
                  | d1 :: t2 =>
                      if is_octdigit d1 then
                        match t2 with
                        | d2 :: t3 =>
                            if is_octdigit d2 then
                              push (TChar (N.of_nat (8 * digit_val d1 + digit_val d2)))
                                   (parse_template ngroups TNormal t3)
                            else push (TChar (N.of_nat (digit_val d1)))
                                      (parse_template ngroups TNormal t2)
                        | [] => push (TChar (N.of_nat (digit_val d1)))
                                     (parse_template ngroups TNormal t2)
                        end
                      else push (TChar 0%N) (parse_template ngroups TNormal t1)
                  | [] => push (TChar 0%N) (parse_template ngroups TNormal t1)
                  end
                else if is_digit e then               (* \d, \dd: a group; \ooo: octal *)
                  match t1 with
                  | d2 :: t2 =>
                      if is_digit d2 then
                        match t2 with
                        | d3 :: t3 =>
                            if is_octdigit e && is_octdigit d2 && is_octdigit d3 then
                              let v := 64 * digit_val e + 8 * digit_val d2 + digit_val d3 in
                              if Nat.leb v 255
                              then push (TChar (N.of_nat v)) (parse_template ngroups TNormal t3)
                              else None               (* octal escape out of range *)
                            else add_group ngroups (10 * digit_val e + digit_val d2)
                                           (parse_template ngroups TNormal t2)
                        | [] => add_group ngroups (10 * digit_val e + digit_val d2)
                                          (parse_template ngroups TNormal t2)
                        end
                      else add_group ngroups (digit_val e) (parse_template ngroups TNormal t1)
                  | [] => add_group ngroups (digit_val e) (parse_template ngroups TNormal t1)
                  end
                else
                  match template_escape e with
                  | Some x => push (TChar x) (parse_template ngroups TNormal t1)
                  | None =>
                      if is_ascii_letter e then None  (* bad escape *)
                      else push (TChar backslash)
                                (push (TChar e) (parse_template ngroups TNormal t1))
                  end
            end
      end
  end.

Definition expand_part (whole : str) (g : caps) (p : tpart) : str :=
  match p with
  | TChar c => [c]
  | TGroup O => whole
  | TGroup _ => group1 g
  end.

Definition expand (t : list tpart) (whole : str) (g : caps) : str :=
  flat_map (expand_part whole g) t.

Definition substitute (t : list tpart) (ps : list piece) : str :=
  flat_map (fun p => match p with Gap c => [c] | Hit w g => expand t w g end) ps.

(** [re.sub(pattern, repl, s)] for a pattern with [ngroups] groups:
    [None] when the template raises. *)
Definition re_sub (r : regex) (ngroups : nat) (repl s : str) : option str :=
  match parse_template ngroups TNormal repl with
  | None => None
  | Some t => Some (substitute t (finditer r 0 s))
  end.

(* ================================================================== *)
(** ** What the operator is shown ([st.error], [st.success]) *)

Inductive report :=
| ErrorExtractingDealers      (* st.error(f"Error extracting dealers data: ...") *)
| ErrorUpdatingDealers        (* st.error(f"Error updating dealers in HTML: ...") *)
| ErrorUpdatingRegions        (* st.error(f"Error updating regions in HTML: ...") *)
| ErrorFillRequired           (* st.error("Please fill all required fields!") *)
| SuccessAdded (name : str)   (* st.success(f"... Dealer '{name}' added successfully!") *)
| SuccessUpdated (name : str). (* st.success(f"... Dealer '{name}' updated successfully!") *)

(* ================================================================== *)
(** ** [DataManager]: the region options *)

Notation "a ;; b" := (r_seq a b) (at level 61, right associativity).

(** [r'<option value="(\w+)">\1</option>'] *)
Definition option_pattern : regex :=
  r_lit (litq "<option value='") ;; r_group (r_plus_greedy is_word) ;;
  r_lit (litq "'>") ;; r_backref ;; r_lit (lit "</option>").

(** [extract_regions]: [re.findall] cannot raise on a [str], so the
    [except] branch is never taken. *)
Definition extract_regions (html_content : str) : list str :=
  filter (fun m => negb (str_eqb m [])) (re_findall option_pattern html_content).

(** [r'<select class="area-select" id="areaSelect">[\s\S]*?</select>'] *)
Definition select_pattern : regex :=
  r_lit (litq "<select class='area-select' id='areaSelect'>") ;;
  r_star_lazy any_char ;; r_lit (lit "</select>").

Definition placeholder_option : str := litq "<option value=''>-- Choose an area --</option>".

(** [f'<option value="{region}">{region}</option>'] *)
Definition region_option (region : str) : str :=
  litq "<option value='" ++ region ++ litq "'>" ++ region ++ lit "</option>".

Definition region_options (regions : list str) : str :=
  join (nl :: spaces 20) (placeholder_option :: map region_option (sorted regions)).

Definition new_select (regions : list str) : str :=
  litq "<select class='area-select' id='areaSelect'>" ++ nl :: spaces 20
  ++ region_options regions ++ nl :: spaces 16 ++ lit "</select>".

Definition update_regions_in_html (html_content : str) (regions : list str)
  : str * list report :=
  match re_sub select_pattern 0 (new_select regions) html_content with
  | Some updated_html => (updated_html, [])
  | None => (html_content, [ErrorUpdatingRegions])
  end.

(* ================================================================== *)
(** ** Vocabulary of the statements *)

(** The text a list of scan pieces covers. *)
Definition source_of (ps : list piece) : str :=
  flat_map (fun p => match p with Gap c => [c] | Hit w _ => w end) ps.

(** A label the option pattern can carry: one or more word characters. *)
Definition word_label (x : str) : bool :=
  negb (str_eqb x []) && forallb is_word x.

(** What the option scan may find after a stretch of text and still treat
    the stretch on its own: nothing, or a character that cannot continue
    an option begun in the stretch (no word character, none of the
    punctuation of the option markup, and [<] only when it does not open
    [</o...]). *)
Definition opens_tag (b : str) : bool :=
  match b with
  | [] => true
  | c :: rest =>
      if (c =? 60)%N then
        match rest with
        | x :: y :: _ => negb ((x =? 47)%N && (y =? 111)%N)
        | _ => true
        end
      else negb (is_word c) && negb (existsb (N.eqb c) [32; 61; 34; 62; 47]%N)
  end.

(** What a match of the option pattern is: the option of a word label. *)
Definition option_hit (m : str) (g : caps) : Prop :=
  exists w, word_label w = true /\ m = region_option w /\ g = Some w.

(** [a <= b] on strings. *)
Definition str_le (a b : str) : Prop := str_leb a b = true.

(** The scan of [re.sub] finds one selection block in [html]: [block],
    after the text [pre] and before the text [post]. *)
Definition one_select_block (html pre block post : str) : Prop :=
  finditer select_pattern 0 html = map Gap pre ++ Hit block None :: map Gap post.

(** Text in which no option can start, whatever follows it: every [<] in
    it is followed, inside it, by something other than [o]. *)
Fixpoint no_option_start (a : str) : bool :=
  match a with
  | [] => true
  | c :: t =>
      (negb (c =? 60)%N || match t with x :: _ => negb (x =? 111)%N | [] => false end)
      && no_option_start t
  end.

(* ================================================================== *)
(** ** Python values, as [json] reads and writes them

    A float is kept as the JSON text it was read from; no statement here
    computes with one. A [dict] keeps its keys in insertion order. *)

Unset Elimination Schemes.

Inductive value :=
| VNone
| VBool (b : bool)
| VInt (z : Z)
| VFloat (lexeme : str)
| VStr (s : str)
| VList (items : list value)
| VDict (pairs : list (str * value)).

Set Elimination Schemes.

(** [d[k] = v] *)
Fixpoint dict_set (d : list (str * value)) (k : str) (v : value) : list (str * value) :=
  match d with
  | [] => [(k, v)]
  | (k', v') :: d' =>
      if str_eqb k k' then (k', v) :: d' else (k', v') :: dict_set d' k v
  end.

(** [dict(pairs)] *)
Definition dict_of_pairs (ps : list (str * value)) : list (str * value) :=
  fold_left (fun d kv => dict_set d (fst kv) (snd kv)) ps [].

(* ================================================================== *)
(** ** [json.loads] *)

Definition is_ws (c : char) : bool :=
  (c =? 32)%N || (c =? 9)%N || (c =? 10)%N || (c =? 13)%N.

Fixpoint skip_ws (s : str) : str :=
  match s with
  | c :: t => if is_ws c then skip_ws t else s
  | [] => []
  end.

Definition hex_val (c : char) : option N :=
  if in_range 48%N 57%N c then Some (c - 48)%N
  else if in_range 97%N 102%N c then Some (c - 87)%N
  else if in_range 65%N 70%N c then Some (c - 55)%N
  else None.

Definition hex4 (a b c d : char) : option N :=
  match hex_val a, hex_val b, hex_val c, hex_val d with
  | Some x, Some y, Some z, Some w => Some (4096 * x + 256 * y + 16 * z + w)%N
  | _, _, _, _ => None
  end.

(** The one-character escapes of a JSON string ([BACKSLASH]). *)
Definition json_unescape (c : char) : option char :=
  if (c =? 34)%N then Some 34%N          (* \ and a double quote *)
  else if (c =? 92)%N then Some 92%N     (* \\ *)
  else if (c =? 47)%N then Some 47%N     (* \/ *)
  else if (c =? 98)%N then Some 8%N      (* \b *)
  else if (c =? 102)%N then Some 12%N    (* \f *)
  else if (c =? 110)%N then Some 10%N    (* \n *)
  else if (c =? 114)%N then Some 13%N    (* \r *)
  else if (c =? 116)%N then Some 9%N     (* \t *)
  else None.

Definition add_char (c : char) (r : option (str * str)) : option (str * str) :=
  match r with
  | Some (x, rest) => Some (c :: x, rest)
  | None => None
  end.

(** [scanstring] in strict mode, from just after the opening quote: the
    string and the text after its closing quote. *)
Fixpoint scanstring (s : str) : option (str * str) :=
  match s with
  | [] => None                                       (* unterminated string *)
  | c :: t =>
      if (c =? dq)%N then Some ([], t)
      else if (c =? backslash)%N then
        match t with
        | [] => None
        | e :: t1 =>
            if (e =? 117)%N then                     (* \uXXXX *)
              match t1 with
              | h1 :: h2 :: h3 :: h4 :: t2 =>
                  match hex4 h1 h2 h3 h4 with
                  | None => None
                  | Some uni =>
                      if in_range 55296%N 56319%N uni then   (* a high surrogate *)
                        match t2 with
                        | b :: u :: g1 :: g2 :: g3 :: g4 :: t3 =>
                            if (b =? backslash)%N && (u =? 117)%N then
                              match hex4 g1 g2 g3 g4 with
                              | None => None
                              | Some uni2 =>
                                  if in_range 56320%N 57343%N uni2 then
                                    add_char (65536 + ((uni - 55296) * 1024 + (uni2 - 56320)))%N
                                             (scanstring t3)
                                  else add_char uni (scanstring t2)
                              end
                            else add_char uni (scanstring t2)
                        | _ => add_char uni (scanstring t2)
                        end
                      else add_char uni (scanstring t2)
                  end
              | _ => None
              end
            else
              match json_unescape e with
              | Some x => add_char x (scanstring t1)
              | None => None                         (* invalid \escape *)
              end
        end
      else if (c <=? 31)%N then None                 (* invalid control character *)
      else add_char c (scanstring t)
  end.

Fixpoint take_digits (s : str) : str * str :=
  match s with
  | c :: t =>
      if is_digit c then let (d, r) := take_digits t in (c :: d, r) else ([], s)
  | [] => ([], [])
  end.

Definition int_of_digits (d : str) : Z :=
  fold_left (fun acc c => (10 * acc + Z.of_N (c - 48))%Z) d 0%Z.

(** The integer part of a number: [0] or a digit from 1 to 9 and more digits. *)
Definition match_integer (s : str) : option (str * str) :=
  match s with
  | c :: t =>
      if (c =? 48)%N then Some ([c], t)
      else if in_range 49%N 57%N c then let (d, r) := take_digits t in Some (c :: d, r)
      else None
  | [] => None
  end.

(** [(\.\d+)?] *)
Definition match_frac (s : str) : str * str :=
  match s with
  | c :: t =>
      if (c =? 46)%N then
        match take_digits t with
        | ([], _) => ([], s)
        | (d, r) => (c :: d, r)
        end
      else ([], s)
  | [] => ([], [])
  end.

(** [([eE][-+]?\d+)?] *)
Definition match_exp (s : str) : str * str :=
  match s with
  | c :: t =>
      if (c =? 101)%N || (c =? 69)%N then
        match t with
        | sg :: t' =>
            if (sg =? 45)%N || (sg =? 43)%N then
              match take_digits t' with
              | ([], _) => ([], s)
              | (d, r) => (c :: sg :: d, r)
              end
            else
              match take_digits t with
              | ([], _) => ([], s)
              | (d, r) => (c :: d, r)
              end
        | [] => ([], s)
        end
      else ([], s)
  | [] => ([], [])
  end.

Definition match_number (s : str) : option (value * str) :=
  let (neg, s1) := match s with
                   | c :: t => if (c =? 45)%N then (true, t) else (false, s)
                   | [] => (false, s)
                   end in
  match match_integer s1 with
  | None => None
  | Some (int, s2) =>
      let (frac, s3) := match_frac s2 in
      let (exp, s4) := match_exp s3 in
      match frac, exp with
      | [], [] =>
          Some (VInt (if neg then - int_of_digits int else int_of_digits int)%Z, s4)
      | _, _ =>
          Some (VFloat ((if neg then [45%N] else []) ++ int ++ frac ++ exp), s4)
      end
  end.

Fixpoint strip_prefix (p s : str) : option str :=
  match p, s with
  | [], _ => Some s
  | x :: p', y :: s' => if (x =? y)%N then strip_prefix p' s' else None
  | _ :: _, [] => None
  end.

(** [scan_once] with [JSONArray] and [JSONObject]: the value at the start
    of [s] and the text after it. The three call each other; [fuel] bounds
    the depth of the calls, and [json_loads] gives enough of it. *)
Fixpoint scan_once (fuel : nat) (s : str) : option (value * str) :=
  match fuel with
  | O => None
  | S fuel' =>
      match s with
      | [] => None
      | c :: t =>
          if (c =? dq)%N then
            match scanstring t with
            | Some (x, r) => Some (VStr x, r)
            | None => None
            end
          else if (c =? 123)%N then                  (* { *)
            match skip_ws t with
            | c1 :: t1 =>
                if (c1 =? 125)%N then Some (VDict [], t1)
                else if (c1 =? dq)%N then
                  match scan_members fuel' t1 with
                  | Some (ps, r) => Some (VDict (dict_of_pairs ps), r)
                  | None => None
                  end
                else None
            | [] => None
            end
          else if (c =? 91)%N then                   (* [ *)
            match skip_ws t with
            | c1 :: t1 =>
                if (c1 =? 93)%N then Some (VList [], t1)
                else
                  match scan_items fuel' (c1 :: t1) with
                  | Some (vs, r) => Some (VList vs, r)
                  | None => None
                  end
            | [] => None
            end
          else
            match strip_prefix (lit "null") s with
            | Some r => Some (VNone, r)
            | None =>
            match strip_prefix (lit "true") s with
            | Some r => Some (VBool true, r)
            | None =>
            match strip_prefix (lit "false") s with
            | Some r => Some (VBool false, r)
            | None =>
            match match_number s with
            | Some vr => Some vr
            | None =>
            match strip_prefix (lit "NaN") s with
            | Some r => Some (VFloat (lit "NaN"), r)
            | None =>
            match strip_prefix (lit "Infinity") s with
            | Some r => Some (VFloat (lit "Infinity"), r)
            | None =>
            match strip_prefix (lit "-Infinity") s with
            | Some r => Some (VFloat (lit "-Infinity"), r)
            | None => None
            end end end end end end end
      end
  end

(** The items of an array, from the first value to the closing bracket. *)
with scan_items (fuel : nat) (s : str) : option (list value * str) :=
  match fuel with
  | O => None
  | S fuel' =>
      match scan_once fuel' s with
      | None => None
      | Some (v, r) =>
          match skip_ws r with
          | c :: t =>
              if (c =? 93)%N then Some ([v], t)
              else if (c =? 44)%N then
                match scan_items fuel' (skip_ws t) with
                | Some (vs, r') => Some (v :: vs, r')
                | None => None
                end
              else None
          | [] => None
          end
      end
  end

(** The members of an object, from just after the opening quote of the
    first key to the closing brace. *)
with scan_members (fuel : nat) (s : str) : option (list (str * value) * str) :=
  match fuel with
  | O => None
  | S fuel' =>
      match scanstring s with
      | None => None
      | Some (key, r) =>
          match skip_ws r with
          | c :: t =>
              if (c =? 58)%N then
                match scan_once fuel' (skip_ws t) with
                | None => None
                | Some (v, r1) =>
                    match skip_ws r1 with
                    | c1 :: t1 =>
                        if (c1 =? 125)%N then Some ([(key, v)], t1)
                        else if (c1 =? 44)%N then
                          match skip_ws t1 with
                          | c2 :: t2 =>
                              if (c2 =? dq)%N then
                                match scan_members fuel' t2 with
                                | Some (ps, r') => Some ((key, v) :: ps, r')
                                | None => None
                                end
                              else None
                          | [] => None
                          end
                        else None
                    | [] => None
                    end
                end
              else None
          | [] => None
          end
      end
  end.

(** [JSONDecoder.decode] with a bound on the depth of the calls. *)
Definition decode (fuel : nat) (s : str) : option value :=
  match s with
  | 65279%N :: _ => None                             (* unexpected UTF-8 BOM *)
  | _ =>
      match scan_once fuel (skip_ws s) with
      | Some (v, r) =>
          match skip_ws r with
          | [] => Some v
          | _ :: _ => None                           (* extra data *)
          end
      | None => None
      end
  end.

(** [json.loads(s)]: [None] when it raises on the text. A text of [n]
    characters never nests calls deeper than [2 * n + 2], so the bound is
    never what makes the answer [None] ([decode_fuel] below). The limits
    of the interpreter are not modelled: [json.loads] also raises on an
    integer of more than 4300 digits and on nesting beyond the recursion
    limit, where this function answers. [extract_dealers_data] catches
    those as it catches every other error of [json.loads]. *)
Definition json_loads (s : str) : option value := decode (2 * length s + 2) s.

(* ================================================================== *)
(** ** [json.dumps(obj, indent=12, ensure_ascii=False)] *)

Fixpoint uint_chars (u : Decimal.uint) : str :=
  match u with
  | Decimal.Nil => []
  | Decimal.D0 u' => 48%N :: uint_chars u'
  | Decimal.D1 u' => 49%N :: uint_chars u'
  | Decimal.D2 u' => 50%N :: uint_chars u'
  | Decimal.D3 u' => 51%N :: uint_chars u'
  | Decimal.D4 u' => 52%N :: uint_chars u'
  | Decimal.D5 u' => 53%N :: uint_chars u'
  | Decimal.D6 u' => 54%N :: uint_chars u'
  | Decimal.D7 u' => 55%N :: uint_chars u'
  | Decimal.D8 u' => 56%N :: uint_chars u'
  | Decimal.D9 u' => 57%N :: uint_chars u'
  end.

(** [int.__repr__] *)
Definition int_repr (z : Z) : str :=
  match z with
  | Z0 => lit "0"
  | Zpos p => uint_chars (Pos.to_uint p)
  | Zneg p => 45%N :: uint_chars (Pos.to_uint p)
  end.

Definition hex_digit (n : N) : char := if (n <? 10)%N then (48 + n)%N else (87 + n)%N.

(** [ESCAPE_DCT]: how one character of a string is written. *)
Definition escape_char (c : char) : str :=
  if (c =? 92)%N then lit "\\"
  else if (c =? 34)%N then [backslash; dq]
  else if (c =? 8)%N then lit "\b"
  else if (c =? 12)%N then lit "\f"
  else if (c =? 10)%N then lit "\n"
  else if (c =? 13)%N then lit "\r"
  else if (c =? 9)%N then lit "\t"
  else if (c <? 32)%N then lit "\u00" ++ [hex_digit (c / 16); hex_digit (c mod 16)]
  else [c].

(** [encode_basestring] *)
Definition encode_basestring (s : str) : str := dq :: flat_map escape_char s ++ [dq].

Definition newline_indent (level : nat) : str := nl :: spaces (12 * level).

Section Floats.

(** [float_repr lexeme]: [float.__repr__(float(lexeme))], how a float read
    from [lexeme] is written again. *)
Variable float_repr : str -> str.

(** [_iterencode(o, level)], joined. *)
Fixpoint iterencode (level : nat) (o : value) {struct o} : str :=
  match o with
  | VNone => lit "null"
  | VBool true => lit "true"
  | VBool false => lit "false"
  | VInt z => int_repr z
  | VFloat x => float_repr x
  | VStr s => encode_basestring s
  | VList [] => lit "[]"
  | VList (x :: xs) =>
      lit "[" ++ newline_indent (S level) ++ iterencode (S level) x
      ++ (fix rest (l : list value) : str :=
            match l with
            | [] => []
            | y :: l' =>
                lit "," ++ newline_indent (S level) ++ iterencode (S level) y ++ rest l'
            end) xs
      ++ newline_indent level ++ lit "]"
  | VDict [] => lit "{}"
  | VDict ((k, x) :: ps) =>
      lit "{" ++ newline_indent (S level)
      ++ encode_basestring k ++ lit ": " ++ iterencode (S level) x
      ++ (fix rest (l : list (str * value)) : str :=
            match l with
            | [] => []
            | (k', y) :: l' =>
                lit "," ++ newline_indent (S level)
                ++ encode_basestring k' ++ lit ": " ++ iterencode (S level) y ++ rest l'
            end) ps
      ++ newline_indent level ++ lit "}"
  end.

Definition json_dumps (obj : value) : str := iterencode 0 obj.

(* ================================================================== *)
(** ** [DataManager]: the dealer array *)

(** [r'const dealersData = \[[\s\S]*?\];'] *)
Definition statement_pattern : regex :=
  r_lit (lit "const dealersData = ") ;;
  r_lit (lit "[") ;; r_star_lazy any_char ;; r_lit (lit "]") ;; r_lit (lit ";").

Definition update_dealers_in_html (html_content : str) (dealers_data : value)
  : str * list report :=
  let dealers_js := json_dumps dealers_data in
  let new_data := lit "const dealersData = " ++ dealers_js ++ lit ";" in
  match re_sub statement_pattern 0 new_data html_content with
  | Some updated_html => (updated_html, [])
  | None => (html_content, [ErrorUpdatingDealers])
  end.

End Floats.

(** [r'const dealersData = (\[[\s\S]*?\]);'] *)
Definition array_pattern : regex :=
  r_lit (lit "const dealersData = ") ;;
  r_group (r_lit (lit "[") ;; r_star_lazy any_char ;; r_lit (lit "]")) ;; r_lit (lit ";").

(** [r'(\w+):'] and its replacement [r'"\1":'] *)
Definition key_pattern : regex := r_group (r_plus_greedy is_word) ;; r_lit (lit ":").
Definition key_template : str := dq :: lit "\1" ++ dq :: lit ":".

(** The three garbled symbols and what they stand for. *)
Definition garbled_rupee : str := [226; 8218; 185]%N.       (* U+00E2 U+201A U+00B9 *)
Definition garbled_star : str := [226; 173]%N.              (* U+00E2 U+00AD *)
Definition garbled_phone : str := [240; 376; 34; 382]%N.    (* U+00F0 U+0178 U+0022 U+017E *)
Definition rupee : str := [8377%N].                         (* U+20B9 *)
Definition star : str := [11088%N].                         (* U+2B50 *)
Definition phone : str := [128222%N].                       (* U+1F4DE *)

(** [try: x = f(x)] for a step that may raise. *)
Definition and_then {A B : Type} (x : option A) (f : A -> option B) : option B :=
  match x with
  | Some a => f a
  | None => None
  end.

(** The clean-up of the array text before it is parsed: quotes around the
    bare keys, then the three symbols. *)
Definition quote_keys (dealers_str : str) : option str :=
  re_sub key_pattern 1 key_template dealers_str.

Definition fix_symbols (dealers_str : str) : option str :=
  and_then (re_sub (r_lit garbled_rupee) 0 rupee dealers_str) (fun s2 =>
  and_then (re_sub (r_lit garbled_star) 0 star s2) (fun s3 =>
  re_sub (r_lit garbled_phone) 0 phone s3)).

Definition clean_up (dealers_str : str) : option str :=
  and_then (quote_keys dealers_str) fix_symbols.

Definition extract_dealers_data (html_content : str) : value * list report :=
  match re_search array_pattern html_content with
  | Some (_, g) =>
      match and_then (clean_up (group1 g)) json_loads with
      | Some dealers => (dealers, [])
      | None => (VList [], [ErrorExtractingDealers])
      end
  | None => (VList [], [])
  end.

(* ================================================================== *)
(** ** [main]: the add and edit forms

    [st.session_state] as far as the two forms touch it, and what the
    operator is shown. A form hands over the text of its inputs: the
    three text fields, the regions selected, and one (name, price) row
    per paddy type. *)

Record session := {
  dealers : list value;
  changes_made : bool;
  editing_dealer : option nat;
  shown : list report
}.

(** [if s:] on a string *)
Definition truthy (s : str) : bool := negb (str_eqb s []).

(** [if l:] on a list *)
Definition nonempty {A : Type} (l : list A) : bool :=
  match l with
  | [] => false
  | _ :: _ => true
  end.

Definition paddy_entry (paddy_name paddy_price : str) : value :=
  VDict [(lit "name", VStr paddy_name);
         (lit "price", VStr paddy_price);
         (lit "unit", VStr (lit "per quintal"))].

(** The loop over the rows: a row is kept when its name and its price
    are both filled in. *)
Definition collect_paddy (rows : list (str * str)) : list value :=
  flat_map (fun row =>
              if truthy (fst row) && truthy (snd row)
              then [paddy_entry (fst row) (snd row)] else [])
           rows.

Definition dealer_record (name contact rating : str) (regions : list str)
           (paddy_types : list value) : value :=
  VDict [(lit "name", VStr name);
         (lit "contact", VStr contact);
         (lit "rating", VStr rating);
         (lit "regions", VList (map VStr regions));
         (lit "paddyTypes", VList paddy_types)].

(** [if submit_add:] of the add form. *)
Definition submit_add (st : session) (new_name new_contact new_rating : str)
           (new_regions : list str) (rows : list (str * str)) : session :=
  let paddy_types := collect_paddy rows in
  if truthy new_name && truthy new_contact && truthy new_rating
     && nonempty new_regions && nonempty paddy_types
  then {| dealers := dealers st
                     ++ [dealer_record new_name new_contact new_rating new_regions paddy_types];
          changes_made := true;
          editing_dealer := editing_dealer st;
          shown := shown st ++ [SuccessAdded new_name] |}
  else {| dealers := dealers st;
          changes_made := changes_made st;
          editing_dealer := editing_dealer st;
          shown := shown st ++ [ErrorFillRequired] |}.

(** [l[idx] = x] for an index in range. *)
Fixpoint list_set {A : Type} (l : list A) (idx : nat) (x : A) : list A :=
  match l, idx with
  | [], _ => []
  | _ :: t, O => x :: t
  | y :: t, S n => y :: list_set t n x
  end.

(** [if submit_edit:] of the edit form, shown for the dealer at
    [editing_dealer]; [None] when there is no such dealer (the script
    raises at [dealers[idx]] before it draws the form). The form is taken
    to be drawn: for a dealer that lacks a field the form reads, or that
    serves a region the multiselect no longer offers, the script raises
    before it reaches [if submit_edit:], and this function answers all the
    same. What holds whenever it answers [Some] holds of every run in
    which the button was pressed. *)
Definition submit_edit (st : session) (edit_name edit_contact edit_rating : str)
           (edit_regions : list str) (rows : list (str * str)) : option session :=
  match editing_dealer st with
  | None => None
  | Some idx =>
      match nth_error (dealers st) idx with
      | None => None
      | Some _ =>
          let paddy_types_edit := collect_paddy rows in
          Some {| dealers := list_set (dealers st) idx
                               (dealer_record edit_name edit_contact edit_rating
                                              edit_regions paddy_types_edit);
                  changes_made := true;
                  editing_dealer := None;
                  shown := shown st ++ [SuccessUpdated edit_name] |}
      end
  end.

(* ================================================================== *)
(** ** Vocabulary of the statements about the dealer array *)

(** The designated assignment statement around an array body. *)
Definition statement_of (body : str) : str :=
  lit "const dealersData = " ++ lit "[" ++ body ++ lit "]" ++ lit ";".

Definition is_statement (m : str) : Prop := exists body, m = statement_of body.

(** The document holds the statement somewhere. *)
Definition has_statement (html : str) : Prop :=
  exists pre body post, html = pre ++ statement_of body ++ post.

(* ================================================================== *)
(** ** Vocabulary of the round trip of the dealer array *)

(** Two neighbouring characters the decoder stumbles on: a word character
    before a colon (the key pattern takes it for a bare key), and a
    closing bracket before a semicolon (the array pattern ends there). *)
Definition bad_pair (a b : char) : bool :=
  (is_word a && (b =? 58)%N) || ((a =? 93)%N && (b =? 59)%N).

Fixpoint pairs_ok (prev : char) (s : str) : bool :=
  match s with
  | [] => true
  | c :: t => negb (bad_pair prev c) && pairs_ok c t
  end.

Definition no_bad_pair (s : str) : bool :=
  match s with
  | [] => true
  | c :: t => pairs_ok c t
  end.

(** A string that survives the round trip: no control character, no
    backslash, no bad pair. *)
Definition clean_str (s : str) : bool :=
  forallb (fun c => (32 <=? c)%N && negb (c =? backslash)%N) s && no_bad_pair s.

Fixpoint distinct (l : list str) : bool :=
  match l with
  | [] => true
  | x :: t => negb (existsb (str_eqb x) t) && distinct t
  end.

(** A value made of clean strings, lists and dicts with distinct clean
    keys: what a record is made of. *)
Fixpoint clean_value (v : value) : bool :=
  match v with
  | VStr s => clean_str s
  | VList items => forallb clean_value items
  | VDict pairs =>
      distinct (map fst pairs)
      && forallb (fun kx => clean_str (fst kx) && clean_value (snd kx)) pairs
  | _ => false
  end.

(** The calls [scan_once] nests to read a value back. *)
Fixpoint need (v : value) : nat :=
  match v with
  | VList items => S (list_sum (map (fun x => S (need x)) items))
  | VDict pairs => S (list_sum (map (fun kx => S (need (snd kx))) pairs))
  | _ => 1
  end.

(** The punctuation [json.dumps] writes between strings, the colon apart. *)
Definition punct (c : char) : bool := existsb (N.eqb c) [91; 93; 123; 125; 44; 32; 10]%N.

(** Text made of punctuation and encoded clean strings, a colon only
    after a string. *)
Inductive nice : str -> Prop :=
| nice_nil : nice []
| nice_punct (c : char) (t : str) : punct c = true -> nice t -> nice (c :: t)
| nice_string (s t : str) : clean_str s = true -> nice t -> nice (encode_basestring s ++ t)
| nice_key (s t : str) :
    clean_str s = true -> nice t -> nice (encode_basestring s ++ 58%N :: t).

(** A replacement template whose every backslash stands before a double
    quote: [re.sub] copies it as it is. *)
Fixpoint plain_template (s : str) : bool :=
  match s with
  | [] => true
  | c :: t =>
      if (c =? backslash)%N then
        match t with
        | e :: t' => (e =? dq)%N && plain_template t'
        | [] => false
        end
      else plain_template t
  end.

(** The strings of a value, keys included. *)
Fixpoint strings_of (v : value) : list str :=
  match v with
  | VStr s => [s]
  | VList items => flat_map strings_of items
  | VDict pairs => flat_map (fun kx => fst kx :: strings_of (snd kx)) pairs
  | _ => []
  end.

(** A string without the first character of a garbled symbol
    (U+00E2, U+00F0). *)
Definition no_garbled_start (s : str) : bool :=
  negb (existsb (fun c => (c =? 226)%N || (c =? 240)%N) s).

(* ================================================================== *)
(** ** Vocabulary of the statements about the selection block *)

Definition select_open : str := litq "<select class='area-select' id='areaSelect'>".

(** The selection block around a body. *)
Definition select_block_of (body : str) : str := select_open ++ body ++ lit "</select>".

Definition is_select_block (m : str) : Prop := exists body, m = select_block_of body.

(** The document holds a selection block somewhere. *)
Definition has_select_block (html : str) : Prop :=
  exists pre body post, html = pre ++ select_block_of body ++ post.

(* ================================================================== *)
(** ** [GitHubManager]: the file as it goes over the wire

    A [bytes] object is a list of numbers below 256. *)

Definition bytes := list N.

(** [c.encode('utf-8')] for one character: [None] when it raises, as it
    does on a surrogate (no [str] holds a code point above U+10FFFF). *)
Definition utf8_encode_char (c : char) : option bytes :=
  if (c <? 128)%N then Some [c]
  else if (c <? 2048)%N then Some [192 + c / 64; 128 + c mod 64]%N
  else if (c <? 65536)%N then
    if in_range 55296%N 57343%N c then None
    else Some [224 + c / 4096; 128 + (c / 64) mod 64; 128 + c mod 64]%N
  else if (c <? 1114112)%N then
    Some [240 + c / 262144; 128 + (c / 4096) mod 64; 128 + (c / 64) mod 64; 128 + c mod 64]%N
  else None.

(** [s.encode('utf-8')] *)
Fixpoint utf8_encode (s : str) : option bytes :=
  match s with
  | [] => Some []
  | c :: t =>
      match utf8_encode_char c, utf8_encode t with
      | Some a, Some b => Some (a ++ b)
      | _, _ => None
      end
  end.

(** A continuation byte. *)
Definition is_cont (b : N) : bool := in_range 128%N 191%N b.

Definition cont_val (b : N) : N := (b - 128)%N.

Definition add_code (c : char) (r : option str) : option str := option_map (cons c) r.

(** [b.decode('utf-8')], strict: [None] on a byte that cannot start a
    character, a missing or wrong continuation byte, an overlong form, a
    surrogate or a code point above U+10FFFF. *)
Fixpoint utf8_decode (b : bytes) : option str :=
  match b with
  | [] => Some []
  | b0 :: t =>
      if (b0 <? 128)%N then add_code b0 (utf8_decode t)
      else if in_range 194%N 223%N b0 then
        match t with
        | b1 :: t1 =>
            if is_cont b1
            then add_code ((b0 - 192) * 64 + cont_val b1)%N (utf8_decode t1)
            else None
        | _ => None
        end
      else if in_range 224%N 239%N b0 then
        match t with
        | b1 :: b2 :: t2 =>
            if in_range (if (b0 =? 224)%N then 160%N else 128%N)
                        (if (b0 =? 237)%N then 159%N else 191%N) b1
               && is_cont b2
            then add_code ((b0 - 224) * 4096 + cont_val b1 * 64 + cont_val b2)%N
                          (utf8_decode t2)
            else None
        | _ => None
        end
      else if in_range 240%N 244%N b0 then
        match t with
        | b1 :: b2 :: b3 :: t3 =>
            if in_range (if (b0 =? 240)%N then 144%N else 128%N)
                        (if (b0 =? 244)%N then 143%N else 191%N) b1
               && is_cont b2 && is_cont b3
            then add_code ((b0 - 240) * 262144 + cont_val b1 * 4096
                           + cont_val b2 * 64 + cont_val b3)%N
                          (utf8_decode t3)
            else None
        | _ => None
        end
      else None
  end.

(** The base64 alphabet ([table_b2a_base64]) and its inverse
    ([table_a2b_base64]). *)
Definition b64_char (i : N) : char :=
  if (i <? 26)%N then (65 + i)%N
  else if (i <? 52)%N then (71 + i)%N
  else if (i <? 62)%N then (i - 4)%N
  else if (i =? 62)%N then 43%N
  else 47%N.

Definition b64_val (c : char) : option N :=
  if in_range 65%N 90%N c then Some (c - 65)%N
  else if in_range 97%N 122%N c then Some (c - 71)%N
  else if in_range 48%N 57%N c then Some (c + 4)%N
  else if (c =? 43)%N then Some 62%N
  else if (c =? 47)%N then Some 63%N
  else None.

Definition pad : char := 61%N.       (* = *)

(** [base64.b64encode(b).decode('utf-8')]: the text of the encoding. *)
Fixpoint b64encode (b : bytes) : str :=
  match b with
  | [] => []
  | [x] => [b64_char (x / 4); b64_char (x mod 4 * 16); pad; pad]%N
  | [x; y] => [b64_char (x / 4); b64_char (x mod 4 * 16 + y / 16);
               b64_char (y mod 16 * 4); pad]%N
  | x :: y :: z :: t =>
      [b64_char (x / 4); b64_char (x mod 4 * 16 + y / 16);
       b64_char (y mod 16 * 4 + z / 64); b64_char (z mod 64)]%N ++ b64encode t
  end.

Definition emit (x : N) (r : option bytes) : option bytes := option_map (cons x) r.

(** [binascii.a2b_base64] as [b64decode] calls it (not strict): the loop
    over the characters, with the place in the group of four, the bits
    kept from the last character and the pad characters seen since.
    Characters outside the alphabet are skipped; a pad that completes a
    group ends the decoding, whatever follows; a group left open at the
    end raises. *)
Fixpoint a2b_base64 (quad_pos : nat) (leftchar : N) (pads : nat) (s : str) : option bytes :=
  match s with
  | [] => if Nat.eqb quad_pos 0 then Some [] else None
  | c :: t =>
      if (c =? pad)%N then
        if Nat.leb 2 quad_pos then
          if Nat.leb 4 (quad_pos + S pads) then Some []
          else a2b_base64 quad_pos leftchar (S pads) t
        else a2b_base64 quad_pos leftchar pads t
      else
        match b64_val c with
        | None => a2b_base64 quad_pos leftchar pads t
        | Some v =>
            match quad_pos with
            | 0 => a2b_base64 1 v 0 t
            | 1 => emit (leftchar * 4 + v / 16)%N (a2b_base64 2 (v mod 16)%N 0 t)
            | 2 => emit (leftchar * 16 + v / 4)%N (a2b_base64 3 (v mod 4)%N 0 t)
            | _ => emit (leftchar * 64 + v)%N (a2b_base64 0 0%N 0 t)
            end
        end
  end.

(** [base64.b64decode(s)] on a [str]: it must be ASCII. *)
Definition b64decode (s : str) : option bytes :=
  if forallb (fun c => (c <? 128)%N) s then a2b_base64 0 0%N 0 s else None.

(** The numbers a character of the alphabet stands for. *)
Definition sextets : list N := map N.of_nat (seq 0 64).

(** What [a2b_base64] does not skip: the alphabet and the pad. *)
Definition b64_kept (c : char) : bool :=
  (c =? pad)%N || match b64_val c with Some _ => true | None => false end.

(** A character [encode('utf-8')] accepts: a code point that is not a
    surrogate. *)
Definition is_scalar (c : char) : bool :=
  (c <? 1114112)%N && negb (in_range 55296%N 57343%N c).

(** [d[key]] on a [dict]: [None] for a [KeyError]. *)
Fixpoint dict_get (d : list (str * value)) (key : str) : option value :=
  match d with
  | [] => None
  | (k, v) :: d' => if str_eqb key k then Some v else dict_get d' key
  end.

(** [o[key]] with a string key on what [response.json()] gave: only a
    [dict] that holds the key does not raise. *)
Definition getitem (o : value) (key : str) : option value :=
  match o with
  | VDict d => dict_get d key
  | _ => None
  end.

(** What the operator is shown outside the two forms. *)
Inductive notice :=
| ErrorFetchingFile                (* st.error(f"Error fetching file: ...") *)
| ErrorUpdatingFile                (* st.error(f"Error updating file: ...") *)
| ErrorLoadFailed                  (* st.error("Failed to load data from GitHub") *)
| SuccessDeleted (name : value)    (* st.success(f"Dealer '{dealer['name']}' deleted!") *)
| SuccessRegionDeleted (region : str)   (* st.success(f"Region '{region}' deleted!") *)
| SuccessRegionAdded (region : str)     (* st.success(f"... Region '{new_region}' added!") *)
| WarningRegionExists              (* st.warning("Region already exists!") *)
| ErrorEnterRegion                 (* st.error("Please enter a region name!") *)
| SuccessSaved                     (* st.success("... Changes saved successfully to GitHub!") *)
| ErrorSaveFailed.                 (* st.error("... Failed to save changes to GitHub!") *)

(** [GitHubManager.get_file] on the answer to the request: [None] when
    [requests.get], [raise_for_status] or [response.json()] raised, the
    JSON body otherwise. Any exception ends in [(None, None)] and an
    error shown. *)
Definition get_file (response : option value) : option (str * value) * list notice :=
  match
    and_then response (fun body =>
    and_then (getitem body (lit "content")) (fun c =>
    and_then (match c with VStr text => b64decode text | _ => None end) (fun raw =>
    and_then (utf8_decode raw) (fun content =>
    and_then (getitem body (lit "sha")) (fun sha => Some (content, sha))))))
  with
  | Some r => (Some r, [])
  | None => (None, [ErrorFetchingFile])
  end.

(** The body [GitHubManager.update_file] sends with [requests.put], for
    the branch of the configuration: [None] when building it raises. *)
Definition update_request (branch content : str) (sha : value) (commit_message : str)
  : option (list (str * value)) :=
  and_then (utf8_encode content) (fun raw =>
    Some [(lit "message", VStr commit_message);
          (lit "content", VStr (b64encode raw));
          (lit "sha", sha);
          (lit "branch", VStr branch)]).

(** [GitHubManager.update_file]; [accepted data] tells whether the request
    with that body went through ([requests.put] and [raise_for_status]
    did not raise). *)
Definition update_file (branch : str) (accepted : list (str * value) -> bool)
           (content : str) (sha : value) (commit_message : str) : bool * list notice :=
  match update_request branch content sha commit_message with
  | Some data => if accepted data then (true, []) else (false, [ErrorUpdatingFile])
  | None => (false, [ErrorUpdatingFile])
  end.

(* ================================================================== *)
(** ** [main]: the page around the two forms

    [st.session_state] whole: the document and its sha as fetched, the
    regions, the dealers with the two flags of the forms, and what the
    operator has been shown. *)

Record page := {
  html_content : str;
  sha : value;
  regions : list str;
  forms : session;
  notices : list notice
}.

Definition with_forms (p : page) (f : session) : page :=
  {| html_content := html_content p; sha := sha p; regions := regions p;
     forms := f; notices := notices p |}.

(** The regions replaced, with [changes_made] set and a notice shown. *)
Definition with_regions (p : page) (l : list str) (n : notice) : page :=
  {| html_content := html_content p; sha := sha p; regions := l;
     forms := {| dealers := dealers (forms p);
                 changes_made := true;
                 editing_dealer := editing_dealer (forms p);
                 shown := shown (forms p) |};
     notices := notices p ++ [n] |}.

Definition with_notices (p : page) (l : list notice) : page :=
  {| html_content := html_content p; sha := sha p; regions := regions p;
     forms := forms p; notices := notices p ++ l |}.

(** The items of what [extract_dealers_data] returned, which is a list. *)
Definition items_of (v : value) : list value :=
  match v with
  | VList items => items
  | _ => []
  end.

(** The fetch at the top of [main], on the first run or after the
    refresh button: an empty document counts as a failure. The two flags
    of the forms are left as they are. *)
Definition load (p : page) (response : option value) : page :=
  match get_file response with
  | (Some (content, s), told) =>
      if truthy content then
        let (found, errors) := extract_dealers_data content in
        {| html_content := content; sha := s;
           regions := extract_regions content;
           forms := {| dealers := items_of found;
                       changes_made := changes_made (forms p);
                       editing_dealer := editing_dealer (forms p);
                       shown := shown (forms p) ++ errors |};
           notices := notices p ++ told |}
      else with_notices p (told ++ [ErrorLoadFailed])
  | (None, told) => with_notices p (told ++ [ErrorLoadFailed])
  end.

(** The edit button of dealer [idx]. *)
Definition click_edit (p : page) (idx : nat) : page :=
  with_forms p {| dealers := dealers (forms p);
                  changes_made := changes_made (forms p);
                  editing_dealer := Some idx;
                  shown := shown (forms p) |}.

(** [l.pop(idx)] for an index in range, the list that is left. *)
Fixpoint list_pop {A : Type} (l : list A) (idx : nat) : list A :=
  match l, idx with
  | [], _ => []
  | _ :: t, O => t
  | y :: t, S n => y :: list_pop t n
  end.

(** The delete button of dealer [idx]: [None] when the listing drew no
    such button (no dealer there, or one without a name, at which the
    listing raises; the listing is taken not to raise at the other
    fields it writes, of this dealer and of those before it). The edit
    in progress, if any, is left as it is. *)
Definition click_delete (p : page) (idx : nat) : option page :=
  match nth_error (dealers (forms p)) idx with
  | None => None
  | Some dealer =>
      match getitem dealer (lit "name") with
      | None => None
      | Some name =>
          Some {| html_content := html_content p; sha := sha p; regions := regions p;
                  forms := {| dealers := list_pop (dealers (forms p)) idx;
                              changes_made := true;
                              editing_dealer := editing_dealer (forms p);
                              shown := shown (forms p) |};
                  notices := notices p ++ [SuccessDeleted name] |}
      end
  end.

(** The cancel button of the edit form. *)
Definition cancel_edit (p : page) : page :=
  with_forms p {| dealers := dealers (forms p);
                  changes_made := changes_made (forms p);
                  editing_dealer := None;
                  shown := shown (forms p) |}.

(** [l.remove(x)]: the first [x] is taken out; [None] for a [ValueError]. *)
Fixpoint list_remove (x : str) (l : list str) : option (list str) :=
  match l with
  | [] => None
  | y :: t => if str_eqb y x then Some t else option_map (cons y) (list_remove x t)
  end.

(** The delete button next to a region. *)
Definition delete_region (p : page) (region : str) : option page :=
  match list_remove region (regions p) with
  | Some l => Some (with_regions p l (SuccessRegionDeleted region))
  | None => None
  end.

(** The add-region button. *)
Definition add_region (p : page) (new_region : str) : page :=
  if truthy new_region then
    if existsb (str_eqb new_region) (regions p)
    then with_notices p [WarningRegionExists]
    else with_regions p (regions p ++ [new_region]) (SuccessRegionAdded new_region)
  else with_notices p [ErrorEnterRegion].

(** ** [main]: saving

    The button is drawn only while [changes_made] is set. *)
Section Saving.

Variable float_repr : str -> str.

(** [GITHUB_BRANCH] of the configuration. *)
Variable branch : str.

(** Whether GitHub takes the request with a given body. *)
Variable accepted : list (str * value) -> bool.

(** The document [main] sends: the dealers written, then the regions. *)
Definition updated_html (p : page) : str * list report :=
  let (h1, r1) := update_dealers_in_html float_repr (html_content p)
                                         (VList (dealers (forms p))) in
  let (h2, r2) := update_regions_in_html h1 (regions p) in
  (h2, r1 ++ r2).

Definition save (p : page) (commit_message : str) : page :=
  let (html, errors) := updated_html p in
  match update_file branch accepted html (sha p) commit_message with
  | (true, told) =>
      {| html_content := html; sha := sha p; regions := regions p;
         forms := {| dealers := dealers (forms p);
                     changes_made := false;
                     editing_dealer := editing_dealer (forms p);
                     shown := shown (forms p) ++ errors |};
         notices := notices p ++ told ++ [SuccessSaved] |}
  | (false, told) =>
      {| html_content := html_content p; sha := sha p; regions := regions p;
         forms := {| dealers := dealers (forms p);
                     changes_made := changes_made (forms p);
                     editing_dealer := editing_dealer (forms p);
                     shown := shown (forms p) ++ errors |};
         notices := notices p ++ told ++ [ErrorSaveFailed] |}
  end.

End Saving.

(** What the operator can do on the page between a load and a save. *)
Inductive event :=
| ClickEdit (idx : nat)
| ClickDelete (idx : nat)
| SubmitAdd (new_name new_contact new_rating : str) (new_regions : list str)
            (rows : list (str * str))
| SubmitEdit (edit_name edit_contact edit_rating : str) (edit_regions : list str)
             (rows : list (str * str))
| CancelEdit
| DeleteRegion (region : str)
| AddRegion (new_region : str).

(** One run of the script on an event: [None] when the page has no such
    button (no dealer at the index, no edit form open, no such region).
    The widgets drawn before the button are taken to be drawn: where the
    script raises on the way (the listing or the edit form at a dealer
    that lacks a field, the edit form at an index with no dealer or at a
    region the multiselect no longer offers) this function answers all
    the same. What holds whenever it answers [Some] holds of every run
    in which the button was pressed. *)
Definition handle (p : page) (e : event) : option page :=
  match e with
  | ClickEdit idx =>
      match nth_error (dealers (forms p)) idx with
      | Some _ => Some (click_edit p idx)
      | None => None
      end
  | ClickDelete idx => click_delete p idx
  | SubmitAdd new_name new_contact new_rating new_regions rows =>
      Some (with_forms p (submit_add (forms p) new_name new_contact new_rating
                                     new_regions rows))
  | SubmitEdit edit_name edit_contact edit_rating edit_regions rows =>
      option_map (with_forms p)
                 (submit_edit (forms p) edit_name edit_contact edit_rating
                              edit_regions rows)
  | CancelEdit =>
      match editing_dealer (forms p) with
      | Some idx =>
          match nth_error (dealers (forms p)) idx with
          | Some _ => Some (cancel_edit p)
          | None => None
          end
      | None => None
      end
  | DeleteRegion region => delete_region p region
  | AddRegion new_region => Some (add_region p new_region)
  end.

(* ================================================================== *)
(** ** [main]: the overview

    The loop over the dealers, on the regions each dealer serves
    ([dealer['regions']], a list of strings in every record the forms
    build). *)

(** [counts.get(region, 0)] *)
Fixpoint count_get (counts : list (str * nat)) (region : str) : nat :=
  match counts with
  | [] => 0
  | (k, n) :: rest => if str_eqb region k then n else count_get rest region
  end.

(** [counts[region] = n]: in place for a key already there, at the end
    for a new one. *)
Fixpoint count_set (counts : list (str * nat)) (region : str) (n : nat)
  : list (str * nat) :=
  match counts with
  | [] => [(region, n)]
  | (k, m) :: rest =>
      if str_eqb region k then (k, n) :: rest else (k, m) :: count_set rest region n
  end.

(** [region_counts[region] = region_counts.get(region, 0) + 1] *)
Definition count_region (counts : list (str * nat)) (region : str) : list (str * nat) :=
  count_set counts region (count_get counts region + 1).

Definition region_counts (served : list (list str)) : list (str * nat) :=
  fold_left (fun counts regions => fold_left count_region regions counts) served [].

(** The lines written under [Dealers by Region]: a region and its count,
    the regions sorted. *)
Definition overview_lines (served : list (list str)) : list (str * nat) :=
  map (fun region => (region, count_get (region_counts served) region))
      (sorted (map fst (region_counts served))).

(** The strings of a list of strings: [None] when an item is no string. *)
Fixpoint string_items (items : list value) : option (list str) :=
  match items with
  | [] => Some []
  | VStr s :: t => option_map (cons s) (string_items t)
  | _ => None
  end.

(** [dealer['regions']] of a record whose regions are a list of strings. *)
Definition dealer_regions (dealer : value) : option (list str) :=
  and_then (getitem dealer (lit "regions")) (fun v =>
    match v with
    | VList items => string_items items
    | _ => None
    end).

Fixpoint served_regions (dealers : list value) : option (list (list str)) :=
  match dealers with
  | [] => Some []
  | dealer :: rest =>
      match dealer_regions dealer, served_regions rest with
      | Some l, Some ls => Some (l :: ls)
      | _, _ => None
      end
  end.

(** The overview of the dealers: [None] when some dealer is no record
    with a list of strings as its regions, which no form builds (the loop
    then raises, or counts keys that are no strings). *)
Definition overview (dealers : list value) : option (list (str * nat)) :=
  option_map overview_lines (served_regions dealers).

(** How often a region comes in a list. *)
Definition occurrences (region : str) (l : list str) : nat :=
  length (filter (str_eqb region) l).

(** What the counts are after one more region: the keys stay distinct,
    and the count of each region is how often it came. *)
Definition counts_fit (counts : list (str * nat)) (seen : list str) : Prop :=
  NoDup (map fst counts)
  /\ (forall r, count_get counts r = occurrences r seen)
  /\ (forall r, In r (map fst counts) <-> In r seen).


(* ================================================================== *)
(** ** Vocabulary of the round trip of the whole document *)

(** [s] starts with [p]. *)
Definition starts_with (p s : str) : Prop := exists rest, s = p ++ rest.

(** [x] immediately followed by [y] somewhere in [s]. *)
Fixpoint adjacent (x y : char) (s : str) : bool :=
  match s with
  | a :: t =>
      match t with
      | b :: _ => ((a =? x)%N && (b =? y)%N) || adjacent x y t
      | [] => false
      end
  | [] => false
  end.

Definition select_close : str := lit "</select>".

(** The body of a selection block as the lazy run reads it: the closing
    tag does not come before its end. *)
Definition closes_first (body : str) : Prop :=
  forall u v, body = u ++ v -> v <> [] -> ~ starts_with select_close (v ++ select_close).

(** The scan of [re.sub] finds one statement in [html]: [old], after the
    text [pre] and before the text [post]. *)
Definition one_statement (html pre old post : str) : Prop :=
  finditer statement_pattern 0 html = map Gap pre ++ Hit old None :: map Gap post.

(** No string of the value, keys included, holds the character. *)
Definition strings_lack (c : char) (v : value) : bool :=
  forallb (fun s => negb (existsb (N.eqb c) s)) (strings_of v).

(** The characters [json.dumps] writes around and between the strings,
    and with which it escapes a double quote. *)
Definition json_punctuation : str := lit "[]{},: " ++ [nl; dq; backslash].

(** A document laid out as the page expects: the selection scan finds one
    block and the statement scan one statement, the block first, and
    outside the block no [<o] that could start an option. *)
Definition laid_out (html pre block mid old post : str) : Prop :=
  one_select_block html pre block (mid ++ old ++ post)
  /\ one_statement html (pre ++ block ++ mid) old post
  /\ no_option_start pre = true /\ no_option_start mid = true
  /\ no_option_start post = true.

(** Dealers that come back from the document as they went in: clean
    values whose strings hold neither [<] nor the first character of a
    garbled symbol. *)
Definition plain_dealers (records : list value) : bool :=
  forallb clean_value records
  && strings_lack 60%N (VList records)
  && forallb no_garbled_start (strings_of (VList records)).

(** The answer of GitHub carries the text that was sent, with or without
    line breaks or other ASCII characters outside the base64 alphabet put
    into it, and a sha. *)
Definition carries (body : value) (sent : str) (sha1 : value) : Prop :=
  exists text,
    getitem body (lit "content") = Some (VStr text)
    /\ forallb (fun c => (c <? 128)%N) text = true
    /\ filter b64_kept text = sent
    /\ getitem body (lit "sha") = Some sha1.

(** A scan in which every match reads [m]. *)
Definition relabel (m : str) (ps : list piece) : list piece :=
  map (fun p => match p with Gap c => Gap c | Hit _ _ => Hit m None end) ps.

(** Text in which no closing tag of a selection block can start, whatever
    follows it: every [<] in it is followed, inside it, by something other
    than [/s]. *)
Fixpoint no_close_start (a : str) : bool :=
  match a with
  | [] => true
  | c :: t =>
      (negb (c =? 60)%N
       || match t with
          | x :: t' =>
              negb (x =? 47)%N
              || match t' with
                 | y :: _ => negb (y =? 115)%N
                 | [] => false
                 end
          | [] => false
          end)
      && no_close_start t
  end.

(** What stands between the tags of the block [update_regions_in_html]
    builds. *)
Definition new_select_body (regions : list str) : str :=
  nl :: spaces 20 ++ region_options regions ++ nl :: spaces 16.

(* ================================================================== *)
(** ** A small page, for the statements at concrete documents *)

Definition demo_html : str :=
  litq "<select class='area-select' id='areaSelect'><option value='Old'>Old</option></select><script>const dealersData = [];</script>".

Definition demo_dealer : value :=
  dealer_record (lit "Ram Traders") (lit "+91 98765 43210") (lit "4.8")
                [lit "East"; lit "West"]
                [paddy_entry (lit "Basmati") (lit "2,500")].

Definition demo_other : value :=
  dealer_record (lit "Sita Mills") (lit "+91 91234 56780") (lit "4.5")
                [lit "East"]
                [paddy_entry (lit "Sona Masuri") (lit "2,100")].

Definition demo_page : page :=
  {| html_content := demo_html;
     sha := VStr (lit "abc");
     regions := [lit "West"; lit "East"];
     forms := {| dealers := [demo_dealer; demo_other];
                 changes_made := true;
                 editing_dealer := Some 0;
                 shown := [] |};
     notices := [] |}.

(* ================================================================== *)
(** ** Vocabulary of the statements about bare keys *)

(** An array text cut into pieces: a key with the colon after it, or
    other text. *)
Inductive chunk :=
| Plain (s : str)
| Key (k : str).

(** The text with its keys bare, as JavaScript allows, and with its keys
    in double quotes, as JSON wants them. *)
Definition bare_chunk (x : chunk) : str :=
  match x with
  | Plain s => s
  | Key k => k ++ lit ":"
  end.

Definition quoted_chunk (x : chunk) : str :=
  match x with
  | Plain s => s
  | Key k => dq :: k ++ dq :: lit ":"
  end.

Definition bare (l : list chunk) : str := flat_map bare_chunk l.
Definition quoted (l : list chunk) : str := flat_map quoted_chunk l.

(** No word character right before a colon. *)
Fixpoint no_word_colon (s : str) : bool :=
  match s with
  | a :: t =>
      match t with
      | b :: _ => negb (is_word a && (b =? 58)%N) && no_word_colon t
      | [] => true
      end
  | [] => true
  end.

(** A key is one or more word characters. Other text holds no word
    character right before a colon and does not end with a word
    character: the key pattern finds nothing in it, and nothing that
    starts in it and runs on into the key after it. *)
Definition chunk_ok (x : chunk) : bool :=
  match x with
  | Plain s => no_word_colon s && negb (is_word (last s 0%N))
  | Key k => word_label k
  end.

(** The text [json.dumps] lays out, with the keys bare. *)
Fixpoint bare_iterencode (float_repr : str -> str) (level : nat) (o : value)
  {struct o} : str :=
  match o with
  | VNone => lit "null"
  | VBool true => lit "true"
  | VBool false => lit "false"
  | VInt z => int_repr z
  | VFloat x => float_repr x
  | VStr s => encode_basestring s
  | VList [] => lit "[]"
  | VList (x :: xs) =>
      lit "[" ++ newline_indent (S level) ++ bare_iterencode float_repr (S level) x
      ++ (fix rest (l : list value) : str :=
            match l with
            | [] => []
            | y :: l' =>
                lit "," ++ newline_indent (S level)
                ++ bare_iterencode float_repr (S level) y ++ rest l'
            end) xs
      ++ newline_indent level ++ lit "]"
  | VDict [] => lit "{}"
  | VDict ((k, x) :: ps) =>
      lit "{" ++ newline_indent (S level)
      ++ k ++ lit ": " ++ bare_iterencode float_repr (S level) x
      ++ (fix rest (l : list (str * value)) : str :=
            match l with
            | [] => []
            | (k', y) :: l' =>
                lit "," ++ newline_indent (S level)
                ++ k' ++ lit ": " ++ bare_iterencode float_repr (S level) y ++ rest l'
            end) ps
      ++ newline_indent level ++ lit "}"
  end.

(** Every key of the value is one or more word characters. *)
Fixpoint word_keys (v : value) : bool :=
  match v with
  | VList items => forallb word_keys items
  | VDict pairs => forallb (fun kx => word_label (fst kx) && word_keys (snd kx)) pairs
  | _ => true
  end.
(* ================================================================== *)
(** ** [main]: what the operator does after a load

    An event of the page, or the save button with what GitHub answers
    ([ok]: the request went through). The save button is there only
    while [changes_made] is set; as for [handle], the widgets drawn
    before it are taken to be drawn. *)
Inductive action :=
| Act (e : event)
| Save (commit_message : str) (ok : bool).

Definition step (float_repr : str -> str) (branch : str) (p : page) (a : action)
  : option page :=
  match a with
  | Act e => handle p e
  | Save commit_message ok =>
      if changes_made (forms p)
      then Some (save float_repr branch (fun _ => ok) p commit_message)
      else None
  end.

(** The runs of the script one after the other, no load between them. *)
Fixpoint run (float_repr : str -> str) (branch : str) (p : page) (l : list action)
  : option page :=
  match l with
  | [] => Some p
  | a :: l' => and_then (step float_repr branch p a) (fun p' => run float_repr branch p' l')
  end.

(* ================================================================== *)
(** ** Vocabulary of the scans

    A text cut at the matches a scan finds in it, from left to right:
    [cuts] holds each match with the gap before it, [tail] is what
    follows the last match. [starts s] says that a match starts at the
    head of [s]; [shape m] says what the pattern takes there. No match
    starts inside a gap or in the tail, so the cut is the one the scan
    makes: the leftmost match first, then the leftmost one after its
    end, and none left out. *)
Inductive cut_at (starts shape : str -> Prop) : str -> list (str * str) -> str -> Prop :=
| cut_tail (tail : str) :
    (forall u v, tail = u ++ v -> ~ starts v) ->
    cut_at starts shape tail [] tail
| cut_match (gap m rest : str) (cuts : list (str * str)) (tail : str) :
    (forall u v, gap = u ++ v -> v <> [] -> ~ starts (v ++ m ++ rest)) ->
    shape m ->
    cut_at starts shape rest cuts tail ->
    cut_at starts shape (gap ++ m ++ rest) ((gap, m) :: cuts) tail.

(** The text of a cut with [new m] in place of each match [m]. *)
Definition rebuilt (new : str -> str) (cuts : list (str * str)) (tail : str) : str :=
  flat_map (fun c => fst c ++ new (snd c)) cuts ++ tail.

(** The pieces of a scan that made the cut. *)
Definition cut_pieces (cuts : list (str * str * caps)) (tail : str) : list piece :=
  flat_map (fun c => map Gap (fst (fst c)) ++ [Hit (snd (fst c)) (snd c)]) cuts
  ++ map Gap tail.

(** A statement starts the text. *)
Definition statement_starts (s : str) : Prop :=
  exists body rest, s = statement_of body ++ rest.

(** The statement the pattern takes: it ends at the first [];] after its
    opening bracket. *)
Definition first_statement (m : str) : Prop :=
  exists body,
    m = statement_of body
    /\ forall u v, body = u ++ v -> v <> [] -> ~ starts_with (lit "];") (v ++ lit "];").

(** A selection block starts the text. *)
Definition select_starts (s : str) : Prop :=
  exists body rest, s = select_block_of body ++ rest.

(** The selection block the pattern takes: it ends at the first closing
    tag. *)
Definition first_select_block (m : str) : Prop :=
  exists body, m = select_block_of body /\ closes_first body.

(** An option with a word label starts the text. *)
Definition option_starts (s : str) : Prop :=
  exists w rest, word_label w = true /\ s = region_option w ++ rest.

(** The option of a word label. *)
Definition is_option (m : str) : Prop :=
  exists w, word_label w = true /\ m = region_option w.

(* ================================================================== *)
(** * Properties *)

(** ** Strings *)

Lemma str_eqb_eq (a b : str) : str_eqb a b = true <-> a = b.
Proof.
  revert b; induction a as [|x a IH]; intros [|y b]; simpl; split;
    try congruence; try reflexivity.
  - intros H. apply andb_true_iff in H as [H1 H2].
    apply N.eqb_eq in H1. apply IH in H2. congruence.
  - intros H. injection H as -> ->. rewrite N.eqb_refl. simpl. now apply IH.
Qed.

Lemma str_eqb_nil (a : str) : str_eqb a [] = false <-> a <> [].
Proof.
  destruct a; simpl; split; congruence.
Qed.

(** ** The matchers *)

Lemma r_lit_app (l s : str) (g : caps) (k : cont) :
  r_lit l (l ++ s) g k = k s g.
Proof.
  induction l as [|c l IH]; simpl; [reflexivity|].
  now rewrite N.eqb_refl.
Qed.

Lemma r_lit_some (l s : str) (g : caps) (k : cont) (r : result) :
  r_lit l s g k = Some r -> exists s', s = l ++ s' /\ k s' g = Some r.
Proof.
  revert s; induction l as [|c l IH]; simpl; intros s H.
  - now exists s.
  - destruct s as [|x t]; simpl in H; [discriminate|].
    destruct (N.eqb_spec x c) as [->|]; [|discriminate].
    apply IH in H as (s' & -> & H). now exists s'.
Qed.

Lemma r_lit_head_ne (c x : char) (l t : str) (g : caps) (k : cont) :
  x <> c -> r_lit (c :: l) (x :: t) g k = None.
Proof.
  intros H. simpl. now destruct (N.eqb_spec x c).
Qed.

(** A greedy run stops where the class does when what follows the run
    cannot start inside it. *)
Lemma r_star_greedy_run (p : char -> bool) (w s : str) (g : caps) (k : cont) :
  forallb p w = true ->
  (forall c t, p c = true -> k (c :: t) g = None) ->
  match s with c :: _ => p c = false | [] => True end ->
  r_star_greedy p (w ++ s) g k = k s g.
Proof.
  intros Hw Hk Hs. induction w as [|c w IH]; simpl.
  - destruct s as [|c t]; [reflexivity|]. simpl. now rewrite Hs.
  - simpl in Hw. apply andb_true_iff in Hw as [Hc Hw]. rewrite Hc, (IH Hw).
    destruct (k s g) eqn:E; [reflexivity|]. now apply Hk.
Qed.

Lemma r_star_greedy_some (p : char -> bool) (s : str) (g : caps) (k : cont) (r : result) :
  r_star_greedy p s g k = Some r ->
  exists w s', s = w ++ s' /\ forallb p w = true /\ k s' g = Some r.
Proof.
  induction s as [|c t IH]; simpl; intros H.
  - now exists [], [].
  - destruct (p c) eqn:Hc.
    + destruct (r_star_greedy p t g k) eqn:E.
      * injection H as ->. destruct (IH eq_refl) as (w & s' & -> & Hw & Hk).
        exists (c :: w), s'. simpl. now rewrite Hc, Hw.
      * now exists [], (c :: t).
    + now exists [], (c :: t).
Qed.

Lemma r_star_lazy_some (p : char -> bool) (s : str) (g : caps) (k : cont) (r : result) :
  r_star_lazy p s g k = Some r ->
  exists w s', s = w ++ s' /\ k s' g = Some r.
Proof.
  induction s as [|c t IH]; simpl; intros H.
  - destruct (k [] g) eqn:E; [|discriminate]. injection H as ->. now exists [], [].
  - destruct (k (c :: t) g) eqn:E.
    + injection H as ->. now exists [], (c :: t).
    + destruct (p c); [|discriminate].
      destruct (IH H) as (w & s' & -> & Hk). now exists (c :: w), s'.
Qed.

Lemma firstn_consumed (A : Type) (m s : list A) :
  firstn (length (m ++ s) - length s) (m ++ s) = m.
Proof.
  rewrite length_app. replace (length m + length s - length s) with (length m) by lia.
  rewrite firstn_app, Nat.sub_diag, firstn_all. simpl. apply app_nil_r.
Qed.

(** ** The option pattern *)

Lemma is_word_ascii (c : char) :
  is_word c = true -> (c < 128)%N ->
  c <> 34%N /\ c <> 60%N /\ c <> 62%N /\ c <> 47%N /\ c <> 32%N /\ c <> 10%N /\ c <> 58%N.
Proof.
  unfold is_word, is_digit, is_ascii_letter, in_range. intros H Hc.
  destruct (N.ltb_spec c 128); [|lia].
  repeat split; intros ->; discriminate.
Qed.

Lemma is_word_ne (c x : char) :
  is_word c = true -> is_word x = false -> c <> x.
Proof. intros H1 H2 ->. congruence. Qed.

Lemma option_match_some (s s' : str) (g : caps) :
  match_at option_pattern s = Some (g, s') ->
  exists w, word_label w = true /\ s = region_option w ++ s' /\ g = Some w.
Proof.
  unfold match_at, option_pattern, r_seq. intros H.
  apply r_lit_some in H as (s1 & -> & H).
  unfold r_group, r_plus_greedy in H.
  destruct s1 as [|c t]; [discriminate|].
  destruct (is_word c) eqn:Hc; [|discriminate].
  apply r_star_greedy_some in H as (w & s2 & -> & Hw & H).
  change (c :: w ++ s2) with ((c :: w) ++ s2) in H.
  rewrite firstn_consumed in H.
  apply r_lit_some in H as (s3 & -> & H).
  unfold r_backref in H.
  apply r_lit_some in H as (s4 & -> & H).
  apply r_lit_some in H as (s5 & -> & H).
  injection H as <- <-.
  exists (c :: w). split; [|split; [|reflexivity]].
  - unfold word_label. simpl. now rewrite Hc, Hw.
  - unfold region_option. now rewrite <- !app_assoc.
Qed.

Lemma r_group_plus_run (p : char -> bool) (w s : str) (g : caps) (k : cont) :
  w <> [] -> forallb p w = true ->
  (forall c t g', p c = true -> k (c :: t) g' = None) ->
  match s with c :: _ => p c = false | [] => True end ->
  r_group (r_plus_greedy p) (w ++ s) g k = k s (Some w).
Proof.
  intros Hne Hw Hk Hs. destruct w as [|c w]; [congruence|].
  unfold r_group, r_plus_greedy. simpl in Hw.
  apply andb_true_iff in Hw as [Hc Hw].
  rewrite <- app_comm_cons. cbv beta iota. rewrite Hc.
  rewrite r_star_greedy_run; try assumption.
  - rewrite app_comm_cons. now rewrite (firstn_consumed _ (c :: w) s).
  - intros x t Hx. now apply Hk.
Qed.

Lemma option_match_label (w s' : str) :
  word_label w = true ->
  match_at option_pattern (region_option w ++ s') = Some (Some w, s').
Proof.
  unfold word_label. intros H. apply andb_true_iff in H as [Hne Hw].
  apply negb_true_iff, str_eqb_nil in Hne.
  unfold match_at, option_pattern, r_seq, region_option.
  rewrite <- !app_assoc, r_lit_app, r_group_plus_run; try assumption.
  - rewrite r_lit_app. unfold r_backref. now rewrite !r_lit_app.
  - intros x t g' Hx. apply r_lit_head_ne. apply (is_word_ne _ _ Hx). reflexivity.
  - reflexivity.
Qed.

(** ** The scan *)

Section Scan.

Variable r : regex.
Variable M : str -> caps -> Prop.

(** Every match consumes a non-empty prefix of the text, described by [M]. *)
Hypothesis r_sound : forall s g s',
  match_at r s = Some (g, s') -> exists m, s = m ++ s' /\ m <> [] /\ M m g.

Lemma match_at_nil : match_at r [] = None.
Proof using r_sound.
  destruct (match_at r []) as [[g s']|] eqn:E; [|reflexivity].
  apply r_sound in E as (m & E & Hm & _).
  symmetry in E. apply app_eq_nil in E as [-> _]. congruence.
Qed.

Lemma finditer_cons0 (c : char) (t : str) :
  finditer r 0 (c :: t) =
  match match_at r (c :: t) with
  | Some (g, s') =>
      match length (c :: t) - length s' with
      | O => Hit [] g :: Gap c :: finditer r 0 t
      | S n => Hit (firstn (length (c :: t) - length s') (c :: t)) g :: finditer r n t
      end
  | None => Gap c :: finditer r 0 t
  end.
Proof. reflexivity. Qed.

Lemma finditer_cons_hit (c : char) (t m s' : str) (g : caps) :
  match_at r (c :: t) = Some (g, s') -> c :: t = m ++ s' ->
  exists n, length m = S n /\ finditer r 0 (c :: t) = Hit m g :: finditer r n t.
Proof using r_sound.
  intros E Hs. destruct (r_sound _ _ _ E) as (m' & Hs' & Hm' & _).
  assert (m' = m) as -> by (rewrite Hs in Hs'; now apply app_inv_tail in Hs').
  rewrite finditer_cons0, E.
  assert (Hlen : length (c :: t) - length s' = length m)
    by (rewrite Hs, length_app; lia).
  assert (Hfst : firstn (length m) (c :: t) = m)
    by (rewrite Hs, firstn_app, Nat.sub_diag, firstn_all; simpl; apply app_nil_r).
  rewrite Hlen, Hfst.
  destruct m as [|x m]; [congruence|]. now exists (length m).
Qed.

Lemma finditer_skip (a s : str) :
  finditer r (length a) (a ++ s) = finditer r 0 s.
Proof.
  induction a as [|c a IH]; [reflexivity|]. exact IH.
Qed.

Lemma finditer_hit (m s' : str) (g : caps) :
  match_at r (m ++ s') = Some (g, s') ->
  finditer r 0 (m ++ s') = Hit m g :: finditer r 0 s'.
Proof using r_sound.
  intros E. destruct (r_sound _ _ _ E) as (m' & Hs' & Hm' & _).
  apply app_inv_tail in Hs' as <-.
  destruct m as [|c m]; [congruence|].
  change ((c :: m) ++ s') with (c :: (m ++ s')) in E |- *.
  destruct (finditer_cons_hit c (m ++ s') (c :: m) s' g E eq_refl) as (n & Hn & ->).
  injection Hn as <-. now rewrite finditer_skip.
Qed.

Lemma finditer_gap (c : char) (t : str) :
  match_at r (c :: t) = None -> finditer r 0 (c :: t) = Gap c :: finditer r 0 t.
Proof. intros E. now rewrite finditer_cons0, E. Qed.

(** The pieces cover the text, in order. *)
Lemma finditer_source (s : str) (skip : nat) :
  skip <= length s -> source_of (finditer r skip s) = skipn skip s.
Proof using r_sound.
  revert skip; induction s as [|c t IH]; intros skip Hk.
  - simpl in Hk. assert (skip = 0) as -> by lia. simpl. now rewrite match_at_nil.
  - destruct skip as [|n].
    + destruct (match_at r (c :: t)) as [[g s']|] eqn:E.
      * destruct (r_sound _ _ _ E) as (m & Hs & Hm & _).
        destruct (finditer_cons_hit _ _ m _ _ E Hs) as (n & Hn & ->).
        assert (Hl : length (c :: t) = length m + length s') by (now rewrite Hs, length_app).
        simpl in Hl. unfold source_of in *. simpl. rewrite IH by lia.
        destruct m as [|x m]; [congruence|]. injection Hs as <- ->. injection Hn as <-.
        now rewrite skipn_app, skipn_all, Nat.sub_diag.
      * rewrite (finditer_gap _ _ E). unfold source_of in *. simpl.
        now rewrite (IH 0) by lia.
    + simpl in Hk |- *. apply IH. lia.
Qed.

Lemma finditer_hits (s : str) (skip : nat) (m : str) (g : caps) :
  In (Hit m g) (finditer r skip s) -> M m g /\ m <> [].
Proof using r_sound.
  revert skip; induction s as [|c t IH]; intros skip H.
  - simpl in H. now rewrite match_at_nil in H.
  - destruct skip as [|n]; [|now apply (IH n)].
    destruct (match_at r (c :: t)) as [[g' s']|] eqn:E.
    + destruct (r_sound _ _ _ E) as (m' & Hs & Hm & HM).
      destruct (finditer_cons_hit _ _ m' _ _ E Hs) as (n & Hn & Hf).
      rewrite Hf in H. destruct H as [H|H]; [|now apply (IH n)].
      injection H as <- <-. now split.
    + rewrite (finditer_gap _ _ E) in H. destruct H as [H|H]; [discriminate|].
      now apply (IH 0).
Qed.

(** When no match that starts in [a] can see past the end of [a], the scan
    of [a ++ b] is the scan of [a] followed by the scan of [b]. *)
Lemma finditer_app (a b : str) (skip : nat) :
  (forall v u, a = v ++ u -> u <> [] ->
     match_at r (u ++ b) = option_map (fun '(g, s') => (g, s' ++ b)) (match_at r u)) ->
  skip <= length a ->
  finditer r skip (a ++ b) = finditer r skip a ++ finditer r 0 b.
Proof using r_sound.
  revert skip; induction a as [|c t IH]; intros skip Hloc Hk.
  - simpl in Hk. assert (skip = 0) as -> by lia.
    change (finditer r 0 []) with (match match_at r [] with Some (g, _) => [Hit [] g] | None => [] end).
    now rewrite match_at_nil.
  - assert (Hloc' : forall v u, t = v ++ u -> u <> [] ->
       match_at r (u ++ b) = option_map (fun '(g, s') => (g, s' ++ b)) (match_at r u)).
    { intros v u -> Hu. now apply (Hloc (c :: v)). }
    destruct skip as [|n].
    + pose proof (Hloc [] (c :: t) eq_refl ltac:(discriminate)) as E.
      destruct (match_at r (c :: t)) as [[g s']|] eqn:E0; simpl in E.
      * destruct (r_sound _ _ _ E0) as (m & Hs & Hm & _).
        destruct (finditer_cons_hit _ _ m _ _ E0 Hs) as (n & Hn & ->).
        assert (Hs2 : (c :: t) ++ b = m ++ (s' ++ b)) by (now rewrite Hs, app_assoc).
        destruct (finditer_cons_hit _ _ m _ _ E Hs2) as (n' & Hn' & Hf).
        simpl app in Hf. simpl app at 1. rewrite Hf.
        assert (n' = n) as -> by lia.
        assert (Hl : length (c :: t) = length m + length s') by (now rewrite Hs, length_app).
        simpl in Hl. rewrite IH by (assumption || lia). reflexivity.
      * simpl app at 1. rewrite (finditer_gap _ _ E), (finditer_gap _ _ E0).
        rewrite IH by (assumption || simpl; lia). reflexivity.
    + simpl in Hk |- *. apply IH; [assumption | lia].
Qed.

End Scan.

(** ** The scan for options *)

Lemma split_first (x : char) (A R U V : str) :
  ~ In x A -> A ++ x :: R = U ++ x :: V ->
  (U = A /\ V = R) \/ (exists U', U = A ++ x :: U' /\ R = U' ++ x :: V).
Proof.
  revert U; induction A as [|a A IH]; intros U HA E.
  - destruct U as [|u U]; simpl in E.
    + injection E as <-. now left.
    + injection E as <- ->. right. now exists U.
  - destruct U as [|u U]; simpl in E.
    + injection E as <- _. exfalso. apply HA. now left.
    + injection E as <- E. destruct (IH U) as [[-> ->]|(U' & -> & ->)]; try assumption.
      * intros H. apply HA. now right.
      * now left.
      * right. now exists U'.
Qed.

Lemma word_label_spec (w : str) :
  word_label w = true <-> w <> [] /\ forallb is_word w = true.
Proof.
  unfold word_label. rewrite andb_true_iff, negb_true_iff, str_eqb_nil. reflexivity.
Qed.

Lemma word_not_in (x : char) (w : str) :
  is_word x = false -> forallb is_word w = true -> ~ In x w.
Proof.
  intros Hx Hw H. rewrite forallb_forall in Hw. apply Hw in H. congruence.
Qed.

Lemma region_option_nonempty (w : str) : region_option w <> [].
Proof. discriminate. Qed.

(** No proper non-empty suffix of an option of a word label starts the
    way [opens_tag] allows. *)
Lemma option_straddle (w u l s' : str) :
  word_label w = true -> u <> [] -> l <> [] ->
  region_option w = u ++ l -> opens_tag (l ++ s') = true -> False.
Proof.
  intros Hw Hu Hl E Ho. apply word_label_spec in Hw as [_ Hw].
  destruct u as [|u0 u]; [congruence|]. destruct l as [|c l]; [congruence|].
  unfold region_option in E.
  change (litq "<option value='") with (60%N :: litq "option value='") in E.
  change (lit "</option>") with (60%N :: lit "/option>") in E.
  assert (HA : ~ In 60%N (litq "option value='" ++ w ++ litq "'>" ++ w)).
  { rewrite !in_app_iff. pose proof (word_not_in 60%N w eq_refl Hw) as Hn.
    intros [H|[H|[H|H]]]; try contradiction.
    - revert H. clear. cbv. intuition discriminate.
    - revert H. clear. cbv. intuition discriminate. }
  assert (HC : ~ In 60%N (lit "/option>")) by (cbv; intuition discriminate).
  remember (litq "option value='") as A0. remember (lit "/option>") as C0.
  remember (litq "'>") as B0.
  simpl in E. injection E as _ E.
  simpl in Ho. destruct (N.eqb_spec c 60) as [->|Hc].
  - replace (A0 ++ w ++ B0 ++ w ++ 60%N :: C0)
      with ((A0 ++ w ++ B0 ++ w) ++ 60%N :: C0) in E
      by (now rewrite <- !app_assoc).
    destruct (@split_first 60%N _ _ _ _ HA E) as [[_ ->]|(U' & _ & E')].
    + subst C0. discriminate Ho.
    + apply HC. rewrite E', in_app_iff. right. now left.
  - apply andb_true_iff in Ho as [Hcw Hcp].
    apply negb_true_iff in Hcw, Hcp.
    assert (Hin : In c (A0 ++ w ++ B0 ++ w ++ 60%N :: C0))
      by (rewrite E; apply in_elt).
    rewrite !in_app_iff in Hin.
    assert (Hlit : forall L, forallb (fun x => is_word x || existsb (N.eqb x) [32; 61; 34; 62; 47; 60]%N) L = true ->
                             In c L -> False).
    { intros L HL Hc'. rewrite forallb_forall in HL. apply HL in Hc'.
      apply orb_true_iff in Hc' as [Hc'|Hc']; [congruence|].
      simpl in Hc', Hcp. rewrite !orb_false_r in Hc', Hcp.
      rewrite !orb_true_iff in Hc'. rewrite !orb_false_iff in Hcp.
      destruct (N.eqb_spec c 60); [congruence|]. intuition congruence. }
    destruct Hin as [H|[H|[H|[H|H]]]].
    + apply (Hlit A0); [subst A0; reflexivity | assumption].
    + rewrite forallb_forall in Hw. apply Hw in H. congruence.
    + apply (Hlit B0); [subst B0; reflexivity | assumption].
    + rewrite forallb_forall in Hw. apply Hw in H. congruence.
    + apply (Hlit (60%N :: C0)); [subst C0; reflexivity | assumption].
Qed.

Lemma option_sound (s : str) (g : caps) (s' : str) :
  match_at option_pattern s = Some (g, s') ->
  exists m, s = m ++ s' /\ m <> [] /\ option_hit m g.
Proof.
  intros H. apply option_match_some in H as (w & Hw & -> & ->).
  exists (region_option w). repeat split.
  - apply region_option_nonempty.
  - now exists w.
Qed.

Lemma option_local (u b : str) :
  u <> [] -> opens_tag b = true ->
  match_at option_pattern (u ++ b)
  = option_map (fun '(g, s') => (g, s' ++ b)) (match_at option_pattern u).
Proof.
  intros Hu Hb.
  destruct (match_at option_pattern u) as [[g s1]|] eqn:E; simpl.
  - apply option_match_some in E as (w & Hw & -> & ->).
    rewrite <- app_assoc. now apply option_match_label.
  - destruct (match_at option_pattern (u ++ b)) as [[g s2]|] eqn:E2; [|reflexivity].
    exfalso. apply option_match_some in E2 as (w & Hw & E2 & ->).
    apply app_eq_app in E2 as (l & [[-> ->]|[E3 ->]]).
    + rewrite (option_match_label _ _ Hw) in E. discriminate.
    + destruct l as [|c l].
      * rewrite app_nil_r in E3. subst u.
        rewrite <- (app_nil_r (region_option w)) in E.
        rewrite (option_match_label _ _ Hw) in E. discriminate.
      * apply (option_straddle w u (c :: l) s2); try assumption.
        discriminate.
Qed.

Lemma option_finditer_app (a b : str) :
  opens_tag b = true ->
  finditer option_pattern 0 (a ++ b)
  = finditer option_pattern 0 a ++ finditer option_pattern 0 b.
Proof.
  intros Hb. apply (finditer_app _ _ option_sound); [|lia].
  intros v u _ Hu. now apply option_local.
Qed.

Lemma extract_regions_app (a b : str) :
  opens_tag b = true ->
  extract_regions (a ++ b) = extract_regions a ++ extract_regions b.
Proof.
  intros Hb. unfold extract_regions, re_findall.
  now rewrite (option_finditer_app _ _ Hb), flat_map_app, filter_app.
Qed.

Lemma extract_regions_option (w s' : str) :
  word_label w = true ->
  extract_regions (region_option w ++ s') = w :: extract_regions s'.
Proof.
  intros Hw. unfold extract_regions, re_findall.
  rewrite (finditer_hit _ _ option_sound _ _ _ (option_match_label _ s' Hw)).
  simpl. apply word_label_spec in Hw as [Hne _].
  apply str_eqb_nil in Hne. now rewrite Hne.
Qed.

Lemma hit_in_source (ps : list piece) (m : str) (g : caps) :
  In (Hit m g) ps -> exists pre post, source_of ps = pre ++ m ++ post.
Proof.
  intros H. apply in_split in H as (p1 & p2 & ->).
  exists (source_of p1), (source_of p2). unfold source_of.
  rewrite flat_map_app. reflexivity.
Qed.

Lemma extract_regions_in (html x : str) :
  In x (extract_regions html) ->
  word_label x = true /\ exists pre post, html = pre ++ region_option x ++ post.
Proof.
  unfold extract_regions, re_findall. intros H.
  apply filter_In in H as [H _]. apply in_flat_map in H as (p & Hp & H).
  destruct p as [c|m g]; [contradiction|]. destruct H as [<-|[]].
  destruct (finditer_hits _ _ option_sound _ _ _ _ Hp) as [(w & Hw & -> & ->) _].
  split; [assumption|]. simpl.
  apply hit_in_source in Hp.
  now rewrite (finditer_source _ _ option_sound) in Hp by lia.
Qed.

(** ** [extract_regions] *)

(** C9. Whatever the document, every label [extract_regions] returns is a
    non-empty run of word characters ([\w]: letters, digits, underscore);
    so an option whose label holds a space, a hyphen or any other
    character outside [\w] is never returned, its markup being present or
    not. *)
Theorem extract_regions_word_labels (html x : str) :
  In x (extract_regions html) ->
  x <> [] /\ Forall (fun c => is_word c = true) x.
Proof.
  intros H. apply extract_regions_in in H as [H _].
  apply word_label_spec in H as [Hne Hw]. split; [assumption|].
  apply Forall_forall. now apply forallb_forall.
Qed.

(** ** [sorted] *)

Lemma str_leb_refl (a : str) : str_leb a a = true.
Proof.
  induction a as [|x a IH]; [reflexivity|]. simpl.
  now rewrite N.ltb_irrefl.
Qed.

Lemma str_leb_total (a b : str) : str_leb a b = false -> str_leb b a = true.
Proof.
  revert b; induction a as [|x a IH]; intros [|y b]; simpl; try congruence.
  destruct (N.ltb_spec x y); [discriminate|].
  destruct (N.ltb_spec y x); [reflexivity|]. apply IH.
Qed.

Lemma str_leb_trans (a b c : str) :
  str_leb a b = true -> str_leb b c = true -> str_leb a c = true.
Proof.
  revert b c; induction a as [|x a IH]; intros [|y b] [|z c]; simpl; try congruence.
  destruct (N.ltb_spec x y), (N.ltb_spec y z), (N.ltb_spec x z); try reflexivity;
    try lia; destruct (N.ltb_spec y x), (N.ltb_spec z y), (N.ltb_spec z x);
    try discriminate; try lia; try reflexivity.
  apply IH.
Qed.

Lemma str_leb_antisym (a b : str) :
  str_leb a b = true -> str_leb b a = true -> a = b.
Proof.
  revert b; induction a as [|x a IH]; intros [|y b]; simpl; try congruence.
  destruct (N.ltb_spec x y), (N.ltb_spec y x); try discriminate; try lia.
  intros H1 H2. f_equal; [lia | now apply IH].
Qed.

Lemma insert_sorted_perm (x : str) (l : list str) :
  Permutation (x :: l) (insert_sorted x l).
Proof.
  induction l as [|y l IH]; simpl; [reflexivity|].
  destruct (str_leb x y); [reflexivity|].
  rewrite perm_swap. now apply perm_skip.
Qed.

Lemma sorted_perm (l : list str) : Permutation l (sorted l).
Proof.
  induction l as [|x l IH]; simpl; [reflexivity|].
  rewrite <- insert_sorted_perm. now apply perm_skip.
Qed.

Lemma insert_sorted_sorted (x : str) (l : list str) :
  StronglySorted str_le l -> StronglySorted str_le (insert_sorted x l).
Proof.
  induction 1 as [|y l Hl IH Hy]; simpl.
  - constructor; constructor.
  - destruct (str_leb x y) eqn:E.
    + constructor; [now constructor|]. constructor; [exact E|].
      eapply Forall_impl; [|exact Hy]. intros z Hz.
      exact (str_leb_trans _ _ _ E Hz).
    + constructor; [exact IH|].
      eapply Permutation_Forall; [apply insert_sorted_perm|].
      constructor; [|assumption]. now apply str_leb_total.
Qed.

Lemma sorted_sorted (l : list str) : StronglySorted str_le (sorted l).
Proof.
  induction l as [|x l IH]; simpl; [constructor|]. now apply insert_sorted_sorted.
Qed.

Lemma sorted_forall (P : str -> Prop) (l : list str) :
  Forall P l -> Forall P (sorted l).
Proof. apply Permutation_Forall, sorted_perm. Qed.

(** ** Templates without a backslash *)

Lemma parse_template_plain (n : nat) (s : str) :
  ~ In backslash s -> parse_template n TNormal s = Some (map TChar s).
Proof.
  induction s as [|c s IH]; intros H; [reflexivity|]. simpl.
  destruct (N.eqb_spec c backslash) as [->|_].
  - exfalso. apply H. now left.
  - simpl. rewrite IH; [reflexivity|]. intros H'. apply H. now right.
Qed.

Lemma expand_plain (s w : str) (g : caps) : expand (map TChar s) w g = s.
Proof.
  unfold expand. induction s as [|c s IH]; [reflexivity|]. simpl. now rewrite IH.
Qed.

Lemma re_sub_plain (r : regex) (n : nat) (repl s : str) :
  ~ In backslash repl ->
  re_sub r n repl s
  = Some (flat_map (fun p => match p with Gap c => [c] | Hit _ _ => repl end)
                   (finditer r 0 s)).
Proof.
  intros H. unfold re_sub. rewrite (parse_template_plain _ _ H). f_equal.
  unfold substitute. apply flat_map_ext. intros [c|w g]; [reflexivity|].
  apply expand_plain.
Qed.

Lemma gaps_source (a : str) :
  flat_map (fun p => match p with Gap c => [c] | Hit _ _ => [] end) (map Gap a) = a.
Proof. induction a as [|c a IH]; [reflexivity|]. simpl. now rewrite IH. Qed.

(** ** [update_regions_in_html] *)

Lemma join_cons_map (sep p : str) (f : str -> str) (l : list str) :
  join sep (p :: map f l) = p ++ flat_map (fun x => sep ++ f x) l.
Proof.
  revert p; induction l as [|x l IH]; intros p.
  - simpl. now rewrite app_nil_r.
  - cbn [map flat_map].
    change (join sep (p :: f x :: map f l)) with (p ++ sep ++ join sep (f x :: map f l)).
    rewrite IH. now rewrite <- app_assoc.
Qed.

(** ** Decoding the block [update_regions_in_html] wrote *)

Lemma option_match_head (c : char) (s : str) :
  match_at option_pattern (c :: s) <> None ->
  c = 60%N /\ exists t, s = 111%N :: t.
Proof.
  destruct (match_at option_pattern (c :: s)) as [[g s']|] eqn:E; [|congruence].
  intros _. apply option_match_some in E as (w & _ & E & _).
  unfold region_option in E.
  change (litq "<option value='") with (60%N :: 111%N :: litq "ption value='") in E.
  simpl in E. injection E as -> ->. split; [reflexivity|]. eexists. reflexivity.
Qed.

Lemma extract_regions_no_start (a s : str) :
  no_option_start a = true -> extract_regions (a ++ s) = extract_regions s.
Proof.
  induction a as [|c t IH]; intros H; [reflexivity|].
  simpl in H. apply andb_true_iff in H as [Hc Ht].
  assert (E : match_at option_pattern (c :: t ++ s) = None).
  { destruct (match_at option_pattern (c :: t ++ s)) eqn:E; [|reflexivity].
    exfalso. destruct (option_match_head c (t ++ s)) as (-> & t' & Ht'); [congruence|].
    destruct t as [|x t]; simpl in Hc; [discriminate|].
    simpl in Ht'. injection Ht' as -> _. discriminate. }
  unfold extract_regions, re_findall in *. simpl app.
  rewrite (finditer_gap _ _ _ E). simpl. now apply IH.
Qed.

Lemma word_label_no_backslash (x : str) : word_label x = true -> ~ In backslash x.
Proof.
  intros H. apply word_label_spec in H as [_ H]. now apply word_not_in.
Qed.

Lemma new_select_no_backslash (regions : list str) :
  Forall (fun x => ~ In backslash x) regions -> ~ In backslash (new_select regions).
Proof.
  intros H. apply sorted_forall in H.
  unfold new_select, region_options. rewrite join_cons_map.
  assert (Hflat : ~ In backslash
            (flat_map (fun x => (nl :: spaces 20) ++ region_option x) (sorted regions))).
  { induction H as [|x l Hx Hl IH]; [intros []|].
    cbn [flat_map]. unfold region_option. rewrite !in_app_iff.
    intros [[Hb|[Hb|[Hb|[Hb|Hb]]]]|Hb]; try contradiction;
      revert Hb; cbv; intuition discriminate. }
  rewrite in_app_iff. cbn [In]. rewrite !in_app_iff. cbn [In]. rewrite !in_app_iff.
  intros [Hb|[Hb|[Hb|[[Hb|Hb]|[Hb|[Hb|Hb]]]]]]; try contradiction; try discriminate;
    revert Hb; cbv; intuition discriminate.
Qed.

Lemma update_regions_one_block (html pre block post : str) (regions : list str) :
  one_select_block html pre block post ->
  Forall (fun x => ~ In backslash x) regions ->
  update_regions_in_html html regions = (pre ++ new_select regions ++ post, []).
Proof.
  unfold one_select_block, update_regions_in_html. intros Hs Hr.
  rewrite (re_sub_plain _ _ _ _ (new_select_no_backslash _ Hr)), Hs.
  rewrite flat_map_app. cbn [flat_map]. f_equal.
  assert (G : forall a, flat_map (fun p => match p with Gap c => [c] | Hit _ _ => new_select regions end)
                                 (map Gap a) = a).
  { induction a as [|c a IH]; [reflexivity|]. simpl. now rewrite IH. }
  now rewrite !G.
Qed.

Lemma extract_regions_options (labels : list str) (post : str) :
  Forall (fun x => word_label x = true) labels ->
  extract_regions (flat_map (fun x => (nl :: spaces 20) ++ region_option x) labels
                   ++ (nl :: spaces 16 ++ lit "</select>") ++ post)
  = labels ++ extract_regions post.
Proof.
  induction 1 as [|x l Hx Hl IH]; cbn [flat_map].
  - now apply extract_regions_no_start.
  - rewrite <- !app_assoc. rewrite extract_regions_no_start by reflexivity.
    rewrite (extract_regions_option _ _ Hx).
    change ((x :: l) ++ extract_regions post) with (x :: (l ++ extract_regions post)).
    f_equal. exact IH.
Qed.

Lemma extract_regions_new_select (regions : list str) (post : str) :
  Forall (fun x => word_label x = true) regions ->
  extract_regions (new_select regions ++ post) = sorted regions ++ extract_regions post.
Proof.
  intros H. apply sorted_forall in H.
  unfold new_select, region_options. rewrite join_cons_map.
  replace ((litq "<select class='area-select' id='areaSelect'>" ++
            nl :: spaces 20 ++
            (placeholder_option ++
             flat_map (fun x => (nl :: spaces 20) ++ region_option x) (sorted regions)) ++
            nl :: spaces 16 ++ lit "</select>") ++ post)
    with ((litq "<select class='area-select' id='areaSelect'>" ++
           nl :: spaces 20 ++ placeholder_option)
          ++ (flat_map (fun x => (nl :: spaces 20) ++ region_option x) (sorted regions)
              ++ (nl :: spaces 16 ++ lit "</select>") ++ post)).
  - rewrite extract_regions_app.
    + rewrite (extract_regions_options _ _ H). reflexivity.
    + destruct (sorted regions); reflexivity.
  - rewrite <- !app_assoc. cbn [app]. rewrite <- !app_assoc. reflexivity.
Qed.



(** ** The add and edit forms *)

Lemma truthy_false (s : str) : truthy s = false <-> s = [].
Proof. destruct s; cbn; split; congruence. Qed.

Lemma collect_paddy_nil (rows : list (str * str)) :
  collect_paddy rows = [] <-> Forall (fun row => fst row = [] \/ snd row = []) rows.
Proof.
  unfold collect_paddy. induction rows as [|[a b] rows IH]; cbn [flat_map fst snd].
  - split; [constructor|reflexivity].
  - destruct (truthy a && truthy b) eqn:E.
    + split; [discriminate|]. intros H. exfalso.
      apply andb_true_iff in E as [Ea Eb].
      inversion H as [|? ? [Ha|Hb] _]; subst; cbn [fst snd] in *; subst; discriminate.
    + cbn [app]. rewrite IH. split; intros H.
      * constructor; [|assumption]. cbn [fst snd].
        apply andb_false_iff in E as [E|E]; apply truthy_false in E; auto.
      * now inversion H.
Qed.

(** X3. The add form checks its fields. When the name, the contact or the
    rating is empty, no region is chosen, or no row holds both a name and
    a price, nothing is added: the session is left as it was and the
    operator is told to fill the fields. In every other case the record
    of the fields, with the rows that hold both a name and a price, goes
    to the end of the list and the unsaved flag is set. *)
Theorem submit_add_validates (st : session) (new_name new_contact new_rating : str)
        (new_regions : list str) (rows : list (str * str)) :
  (new_name = [] \/ new_contact = [] \/ new_rating = [] \/ new_regions = []
   \/ Forall (fun row => fst row = [] \/ snd row = []) rows ->
   submit_add st new_name new_contact new_rating new_regions rows
   = {| dealers := dealers st;
        changes_made := changes_made st;
        editing_dealer := editing_dealer st;
        shown := shown st ++ [ErrorFillRequired] |})
  /\ (~ (new_name = [] \/ new_contact = [] \/ new_rating = [] \/ new_regions = []
         \/ Forall (fun row => fst row = [] \/ snd row = []) rows) ->
      submit_add st new_name new_contact new_rating new_regions rows
      = {| dealers := dealers st
                      ++ [dealer_record new_name new_contact new_rating new_regions
                                        (collect_paddy rows)];
           changes_made := true;
           editing_dealer := editing_dealer st;
           shown := shown st ++ [SuccessAdded new_name] |}).
Proof.
  unfold submit_add. split; intros H.
  - assert (E : truthy new_name && truthy new_contact && truthy new_rating
                && nonempty new_regions && nonempty (collect_paddy rows) = false).
    { destruct H as [->|[->|[->|[->|H]]]]; cbn [truthy str_eqb negb nonempty andb];
        rewrite ?andb_false_r; try reflexivity.
      apply collect_paddy_nil in H. rewrite H. cbn [nonempty]. now rewrite andb_false_r. }
    now rewrite E.
  - assert (E : truthy new_name && truthy new_contact && truthy new_rating
                && nonempty new_regions && nonempty (collect_paddy rows) = true).
    { repeat (apply andb_true_iff; split).
      - destruct (truthy new_name) eqn:E; [reflexivity|].
        apply truthy_false in E. tauto.
      - destruct (truthy new_contact) eqn:E; [reflexivity|].
        apply truthy_false in E. tauto.
      - destruct (truthy new_rating) eqn:E; [reflexivity|].
        apply truthy_false in E. tauto.
      - destruct new_regions; [tauto|reflexivity].
      - destruct (collect_paddy rows) eqn:E; [|reflexivity].
        apply collect_paddy_nil in E. tauto. }
    now rewrite E.
Qed.

(** C8 fails on the edit form: it has no such check. Saving an edit whose
    name, contact, rating, regions and paddy rows are all empty replaces
    the dealer by the empty record and reports success. *)
Lemma submit_edit_accepts_empty_fields :
  submit_edit
    {| dealers := [dealer_record (lit "Ram") (lit "98765") (lit "4.8") [lit "East"]
                                 [paddy_entry (lit "Basmati") (lit "2500")]];
       changes_made := false;
       editing_dealer := Some 0;
       shown := [] |}
    [] [] [] [] [([], [])]
  = Some {| dealers := [dealer_record [] [] [] [] []];
            changes_made := true;
            editing_dealer := None;
            shown := [SuccessUpdated []] |}.
Proof. reflexivity. Qed.

(** ** The statement patterns *)

Lemma statement_match_some (s : str) (g : caps) (s' : str) :
  match_at statement_pattern s = Some (g, s') ->
  exists m, s = m ++ s' /\ m <> [] /\ (is_statement m /\ g = None).
Proof.
  unfold match_at, statement_pattern, r_seq. intros H.
  apply r_lit_some in H as (s1 & -> & H).
  apply r_lit_some in H as (s2 & -> & H).
  apply r_star_lazy_some in H as (body & s3 & -> & H).
  apply r_lit_some in H as (s4 & -> & H).
  apply r_lit_some in H as (s5 & -> & H).
  injection H as <- <-.
  exists (statement_of body). unfold statement_of. repeat split.
  - now rewrite <- !app_assoc.
  - discriminate.
  - now exists body.
Qed.

Lemma array_match_some (s : str) (g : caps) (s' : str) :
  match_at array_pattern s = Some (g, s') ->
  exists m, s = m ++ s' /\ m <> []
            /\ (exists body, m = statement_of body /\ g = Some (lit "[" ++ body ++ lit "]")).
Proof.
  unfold match_at, array_pattern, r_seq, r_group. intros H.
  apply r_lit_some in H as (s1 & -> & H).
  apply r_lit_some in H as (s2 & -> & H).
  apply r_star_lazy_some in H as (body & s3 & -> & H).
  apply r_lit_some in H as (s4 & -> & H).
  replace (lit "[" ++ body ++ lit "]" ++ s4) with ((lit "[" ++ body ++ lit "]") ++ s4) in H
    by (now rewrite <- !app_assoc).
  rewrite firstn_consumed in H.
  apply r_lit_some in H as (s5 & -> & H).
  injection H as <- <-.
  exists (statement_of body). unfold statement_of. repeat split.
  - now rewrite <- !app_assoc.
  - discriminate.
  - now exists body.
Qed.

(** A lazy run finds a place where what follows succeeds, if there is one. *)
Lemma r_star_lazy_complete (a b : str) (g : caps) (k : cont) :
  k b g <> None -> r_star_lazy any_char (a ++ b) g k <> None.
Proof.
  intros H. induction a as [|c a IH]; simpl.
  - destruct b; simpl; destruct (k _ g); congruence.
  - destruct (k (c :: a ++ b) g); [discriminate|exact IH].
Qed.

Lemma statement_match_complete (body post : str) :
  match_at statement_pattern (statement_of body ++ post) <> None.
Proof.
  unfold match_at, statement_pattern, statement_of, r_seq.
  rewrite <- !app_assoc, !r_lit_app.
  apply r_star_lazy_complete. now rewrite !r_lit_app.
Qed.

Lemma array_match_complete (body post : str) :
  match_at array_pattern (statement_of body ++ post) <> None.
Proof.
  unfold match_at, array_pattern, statement_of, r_seq, r_group.
  rewrite <- !app_assoc, !r_lit_app.
  apply r_star_lazy_complete. rewrite r_lit_app.
  cbv beta. rewrite r_lit_app. discriminate.
Qed.

(** ** Scans without a match, and the stretches of a scan *)

Lemma first_hit_none (ps : list piece) :
  first_hit ps = None <-> forall m g, ~ In (Hit m g) ps.
Proof.
  induction ps as [|[c|m g] ps IH]; simpl.
  - split; [intros _ m g []|reflexivity].
  - rewrite IH. split; intros H m g.
    + intros [E|E]; [discriminate|]. now apply (H m g).
    + intros E. apply (H m g). now right.
  - split; [discriminate|]. intros H. exfalso. apply (H m g). now left.
Qed.

Lemma substitute_no_hit (t : list tpart) (ps : list piece) :
  (forall m g, ~ In (Hit m g) ps) -> substitute t ps = source_of ps.
Proof.
  unfold substitute, source_of. induction ps as [|[c|m g] ps IH]; intros H.
  - reflexivity.
  - cbn [flat_map]. rewrite IH; [reflexivity|].
    intros m g Hin. apply (H m g). now right.
  - exfalso. apply (H m g). now left.
Qed.

Lemma no_statement_no_hit (r : regex) (M : str -> caps -> Prop) (html : str) :
  (forall s g s', match_at r s = Some (g, s') ->
                  exists m, s = m ++ s' /\ m <> [] /\ M m g) ->
  (forall m g, M m g -> is_statement m) ->
  ~ has_statement html ->
  forall m g, ~ In (Hit m g) (finditer r 0 html).
Proof.
  intros Hr HM Hno m g Hin.
  destruct (finditer_hits r M Hr _ _ _ _ Hin) as [Hm _].
  apply HM in Hm as (body & ->).
  apply hit_in_source in Hin as (pre & post & E).
  rewrite (finditer_source r M Hr) in E by lia. simpl in E.
  apply Hno. now exists pre, body, post.
Qed.

(** ** [update_dealers_in_html] and [extract_dealers_data] on any document *)

(** C4. On a document that holds no statement
    [const dealersData = [...];], [update_dealers_in_html] returns the
    document as it was, whatever the dealer data. *)
Theorem update_dealers_without_statement
        (float_repr : str -> str) (html : str) (dealers_data : value) :
  ~ has_statement html ->
  fst (update_dealers_in_html float_repr html dealers_data) = html.
Proof.
  intros Hno. unfold update_dealers_in_html, re_sub.
  destruct (parse_template 0 TNormal _) as [t|]; [|reflexivity]. cbn [fst].
  rewrite substitute_no_hit.
  - now rewrite (finditer_source _ _ statement_match_some) by lia.
  - apply (no_statement_no_hit _ _ _ statement_match_some); [|assumption].
    now intros m g [H _].
Qed.

(** C5, amended. When the document holds no statement,
    [extract_dealers_data] returns the empty list and reports nothing;
    when it finds one and the array text, cleaned up, does not parse, it
    returns the empty list and reports the error. It raises in neither
    case. *)
Theorem extract_dealers_failures (html : str) :
  (~ has_statement html -> extract_dealers_data html = (VList [], []))
  /\ (forall w g,
        re_search array_pattern html = Some (w, g) ->
        and_then (clean_up (group1 g)) json_loads = None ->
        extract_dealers_data html = (VList [], [ErrorExtractingDealers])).
Proof.
  unfold extract_dealers_data. split.
  - intros Hno.
    assert (E : re_search array_pattern html = None).
    { apply first_hit_none.
      apply (no_statement_no_hit _ _ _ array_match_some); [|assumption].
      intros m g (body & -> & _). now exists body. }
    now rewrite E.
  - intros w g -> ->. reflexivity.
Qed.

(** C3. On the statement of the example, [extract_dealers_data] gives one
    record, with name A and regions X: the record the add form would
    build from those fields. The same holds with a script element around
    the statement. *)
Theorem extract_dealers_example :
  extract_dealers_data
    (litq "const dealersData = [{name:'A',contact:'1',rating:'5',regions:['X'],paddyTypes:[{name:'Rice',price:'100',unit:'per quintal'}]}];")
  = (VList [VDict [(lit "name", VStr (lit "A"));
                   (lit "contact", VStr (lit "1"));
                   (lit "rating", VStr (lit "5"));
                   (lit "regions", VList [VStr (lit "X")]);
                   (lit "paddyTypes",
                    VList [VDict [(lit "name", VStr (lit "Rice"));
                                  (lit "price", VStr (lit "100"));
                                  (lit "unit", VStr (lit "per quintal"))]])]],
     [])
  /\ extract_dealers_data
       (litq "<script>const dealersData = [{name:'A',contact:'1',rating:'5',regions:['X'],paddyTypes:[{name:'Rice',price:'100',unit:'per quintal'}]}];</script>")
     = (VList [dealer_record (lit "A") (lit "1") (lit "5") [lit "X"]
                             [paddy_entry (lit "Rice") (lit "100")]],
        []).
Proof. split; vm_compute; reflexivity. Qed.

(** ** Values and their text *)

Lemma value_induction (P : value -> Prop) :
  P VNone -> (forall b, P (VBool b)) -> (forall z, P (VInt z)) ->
  (forall x, P (VFloat x)) -> (forall s, P (VStr s)) ->
  (forall items, Forall P items -> P (VList items)) ->
  (forall pairs, Forall (fun kx => P (snd kx)) pairs -> P (VDict pairs)) ->
  forall v, P v.
Proof.
  intros HN HB HI HF HS HL HD.
  fix IH 1. intros [| b | z | x | s | items | pairs];
    [exact HN | apply HB | apply HI | apply HF | apply HS | apply HL | apply HD].
  - induction items as [|x items IHl]; constructor; [apply IH | exact IHl].
  - induction pairs as [|[k x] pairs IHl]; constructor; [apply IH | exact IHl].
Qed.

Section Text.

Variable float_repr : str -> str.

(** The items of a list after the first, each behind its comma. *)
Lemma iterencode_list (level : nat) (x : value) (xs : list value) :
  iterencode float_repr level (VList (x :: xs))
  = lit "[" ++ newline_indent (S level) ++ iterencode float_repr (S level) x
    ++ flat_map (fun y => lit "," ++ newline_indent (S level)
                          ++ iterencode float_repr (S level) y) xs
    ++ newline_indent level ++ lit "]".
Proof.
  cbn [iterencode]. do 3 f_equal. f_equal.
  induction xs as [|y xs IH]; [reflexivity|].
  cbn [flat_map]. rewrite IH. now rewrite <- !app_assoc.
Qed.

Lemma iterencode_dict (level : nat) (k : str) (x : value) (ps : list (str * value)) :
  iterencode float_repr level (VDict ((k, x) :: ps))
  = lit "{" ++ newline_indent (S level)
    ++ encode_basestring k ++ lit ": " ++ iterencode float_repr (S level) x
    ++ flat_map (fun ky => lit "," ++ newline_indent (S level)
                           ++ encode_basestring (fst ky) ++ lit ": "
                           ++ iterencode float_repr (S level) (snd ky)) ps
    ++ newline_indent level ++ lit "}".
Proof.
  cbn [iterencode]. do 5 f_equal. f_equal.
  induction ps as [|[k' y] ps IH]; [reflexivity|].
  cbn [flat_map fst snd]. rewrite IH. now rewrite <- !app_assoc.
Qed.

End Text.

(** ** Strings written and read back *)

Lemma escape_char_plain (c : char) :
  (32 <=? c)%N = true -> c <> backslash -> c <> dq -> escape_char c = [c].
Proof.
  unfold escape_char, backslash, dq. intros H1 H2 H3. apply N.leb_le in H1.
  repeat match goal with
  | |- context [(c =? ?n)%N] => destruct (N.eqb_spec c n); [lia|]
  end.
  destruct (N.ltb_spec c 32); [lia|reflexivity].
Qed.

Lemma escape_char_quote : escape_char dq = [backslash; dq].
Proof. reflexivity. Qed.

Lemma scanstring_plain (c : char) (t : str) :
  (32 <=? c)%N = true -> c <> backslash -> c <> dq ->
  scanstring (c :: t) = add_char c (scanstring t).
Proof.
  intros H1 H2 H3. apply N.leb_le in H1. cbn [scanstring].
  destruct (N.eqb_spec c dq); [congruence|].
  destruct (N.eqb_spec c backslash); [congruence|].
  destruct (N.leb_spec c 31); [lia|reflexivity].
Qed.

Lemma scanstring_escaped (s rest : str) :
  forallb (fun c => (32 <=? c)%N && negb (c =? backslash)%N) s = true ->
  scanstring (flat_map escape_char s ++ dq :: rest) = Some (s, rest).
Proof.
  induction s as [|c s IH]; intros H.
  - reflexivity.
  - cbn [forallb] in H. apply andb_true_iff in H as [Hc Hs].
    apply andb_true_iff in Hc as [H1 H2]. apply negb_true_iff, N.eqb_neq in H2.
    cbn [flat_map]. rewrite <- app_assoc. destruct (N.eqb_spec c dq) as [->|Hq].
    + rewrite escape_char_quote. cbn [app]. 
      change (scanstring (backslash :: dq :: flat_map escape_char s ++ dq :: rest))
        with (add_char dq (scanstring (flat_map escape_char s ++ dq :: rest))).
      now rewrite (IH Hs).
    + rewrite (escape_char_plain _ H1 H2 Hq). cbn [app].
      rewrite (scanstring_plain _ _ H1 H2 Hq). now rewrite (IH Hs).
Qed.

Lemma clean_str_chars (s : str) :
  clean_str s = true ->
  forallb (fun c => (32 <=? c)%N && negb (c =? backslash)%N) s = true.
Proof. unfold clean_str. intros H. now apply andb_true_iff in H as [H _]. Qed.

(** ** White space *)

Lemma skip_ws_spaces (n : nat) (t : str) : skip_ws (spaces n ++ t) = skip_ws t.
Proof. induction n as [|n IH]; [reflexivity|exact IH]. Qed.

Lemma skip_ws_newline_indent (level : nat) (t : str) :
  skip_ws (newline_indent level ++ t) = skip_ws t.
Proof. unfold newline_indent. cbn [app skip_ws is_ws]. apply skip_ws_spaces. Qed.

Lemma skip_ws_keep (c : char) (t : str) : is_ws c = false -> skip_ws (c :: t) = c :: t.
Proof. intros H. cbn [skip_ws]. now rewrite H. Qed.

(** ** [dict(pairs)] on distinct keys *)

Lemma existsb_str_eqb (k : str) (l : list str) :
  existsb (str_eqb k) l = true <-> In k l.
Proof.
  rewrite existsb_exists. split.
  - intros (x & Hx & E). apply str_eqb_eq in E. now subst.
  - intros H. exists k. split; [assumption|]. now apply str_eqb_eq.
Qed.

Lemma dict_set_fresh (d : list (str * value)) (k : str) (v : value) :
  ~ In k (map fst d) -> dict_set d k v = d ++ [(k, v)].
Proof.
  induction d as [|[k' v'] d IH]; intros H; [reflexivity|].
  cbn [dict_set]. destruct (str_eqb k k') eqn:E.
  - apply str_eqb_eq in E. exfalso. apply H. now left.
  - cbn [app]. rewrite IH; [reflexivity|]. intros Hin. apply H. now right.
Qed.

Lemma dict_of_pairs_distinct (ps : list (str * value)) :
  distinct (map fst ps) = true -> dict_of_pairs ps = ps.
Proof.
  unfold dict_of_pairs.
  assert (G : forall acc,
             distinct (map fst ps) = true ->
             (forall k, In k (map fst ps) -> ~ In k (map fst acc)) ->
             fold_left (fun d kv => dict_set d (fst kv) (snd kv)) ps acc = acc ++ ps).
  { induction ps as [|[k v] ps IH]; intros acc Hd Hacc.
    - cbn. now rewrite app_nil_r.
    - cbn [map fst distinct] in Hd. apply andb_true_iff in Hd as [Hk Hd].
      apply negb_true_iff in Hk.
      cbn [fold_left fst snd]. rewrite dict_set_fresh by (apply Hacc; now left).
      rewrite IH; [now rewrite <- app_assoc| assumption |].
      intros k' Hk' Hin. rewrite map_app, in_app_iff in Hin. destruct Hin as [Hin|[<-|[]]].
      + apply (Hacc k'); [now right | assumption].
      + apply existsb_str_eqb in Hk'. cbn [fst] in Hk'. congruence. }
  intros H. apply (G [] H). intros k _ [].
Qed.

(** ** Reading back what [json.dumps] wrote *)

Section ReadBack.

Variable float_repr : str -> str.

Abbreviation enc := (iterencode float_repr).

Lemma value_head (level : nat) (v : value) :
  clean_value v = true ->
  exists c t, enc level v = c :: t /\ (c = 34 \/ c = 91 \/ c = 123)%N.
Proof.
  destruct v as [| b | z | x | s | [|x xs] | [|[k x] ps]]; try discriminate; intros _.
  - exists 34%N. eexists. split; [reflexivity|auto].
  - exists 91%N. eexists. split; [reflexivity|auto].
  - exists 91%N. eexists. split; [reflexivity|auto].
  - exists 123%N. eexists. split; [reflexivity|auto].
  - exists 123%N. eexists. split; [reflexivity|auto].
Qed.

Lemma skip_ws_value (level : nat) (v : value) (t : str) :
  clean_value v = true -> skip_ws (enc level v ++ t) = enc level v ++ t.
Proof.
  intros H. destruct (value_head level v H) as (c & u & -> & Hc).
  cbn [app]. apply skip_ws_keep. now destruct Hc as [->|[->| ->]].
Qed.

(** What reading a value back asks of each value: enough calls, and the
    text after the value left as it is. *)
Definition reads_back (v : value) : Prop :=
  forall level fuel rest,
    need v <= fuel -> scan_once fuel (enc level v ++ rest) = Some (v, rest).

Lemma scan_items_text (level : nat) (xs : list value) :
  forall (x : value) (fuel : nat) (rest : str),
  Forall reads_back (x :: xs) ->
  forallb clean_value (x :: xs) = true ->
  list_sum (map (fun y => S (need y)) (x :: xs)) <= fuel ->
  scan_items fuel
    (enc (S level) x
     ++ flat_map (fun y => lit "," ++ newline_indent (S level) ++ enc (S level) y) xs
     ++ newline_indent level ++ lit "]" ++ rest)
  = Some (x :: xs, rest).
Proof.
  induction xs as [|y ys IH]; intros x fuel rest HR HC Hf.
  - inversion HR as [|? ? Hx _]; subst. simpl in Hf.
    destruct fuel as [|f]; [lia|]. cbn [scan_items flat_map app].
    rewrite (Hx (S level) f _) by lia.
    rewrite skip_ws_newline_indent. cbn. reflexivity.
  - inversion HR as [|? ? Hx HR']; subst.
    cbn [forallb] in HC. apply andb_true_iff in HC as [_ HC].
    simpl in Hf. destruct fuel as [|f]; [lia|].
    cbn [scan_items flat_map]. rewrite <- !app_assoc.
    rewrite (Hx (S level) f _) by lia.
    change (lit "," ++ ?t) with (44%N :: t). cbn [skip_ws is_ws N.eqb Pos.eqb orb].
    cbn [N.eqb Pos.eqb]. rewrite skip_ws_newline_indent.
    rewrite skip_ws_value by (cbn [forallb] in HC; now apply andb_true_iff in HC as [HC _]).
    rewrite (IH y f rest HR' HC) by (simpl; lia). reflexivity.
Qed.

Lemma scan_members_text (level : nat) (ps : list (str * value)) :
  forall (k : str) (x : value) (fuel : nat) (rest : str),
  Forall (fun kx => reads_back (snd kx)) ((k, x) :: ps) ->
  forallb (fun kx => clean_str (fst kx) && clean_value (snd kx)) ((k, x) :: ps) = true ->
  list_sum (map (fun kx => S (need (snd kx))) ((k, x) :: ps)) <= fuel ->
  scan_members fuel
    (flat_map escape_char k ++ dq :: lit ": " ++ enc (S level) x
     ++ flat_map (fun ky => lit "," ++ newline_indent (S level)
                            ++ encode_basestring (fst ky) ++ lit ": "
                            ++ enc (S level) (snd ky)) ps
     ++ newline_indent level ++ lit "}" ++ rest)
  = Some ((k, x) :: ps, rest).
Proof.
  induction ps as [|[k' y] ps IH]; intros k x fuel rest HR HC Hf.
  - inversion HR as [|? ? Hx _]; subst. cbn [snd] in Hx.
    cbn [forallb fst snd] in HC. rewrite andb_true_r in HC.
    apply andb_true_iff in HC as [Hk Hv].
    simpl in Hf. destruct fuel as [|f]; [lia|].
    cbn [scan_members flat_map app].
    rewrite (scanstring_escaped _ _ (clean_str_chars _ Hk)).
    change (lit ": " ++ ?t) with (58%N :: 32%N :: t).
    cbn [skip_ws is_ws N.eqb Pos.eqb orb].
    rewrite (skip_ws_value _ _ _ Hv), (Hx (S level) f _) by lia.
    rewrite skip_ws_newline_indent. cbn. reflexivity.
  - inversion HR as [|? ? Hx HR']; subst. cbn [snd] in Hx.
    cbn [forallb fst snd] in HC. apply andb_true_iff in HC as [HC1 HC].
    apply andb_true_iff in HC1 as [Hk Hv].
    simpl in Hf. destruct fuel as [|f]; [lia|].
    cbn [scan_members flat_map fst snd]. rewrite <- !app_assoc.
    rewrite (scanstring_escaped _ _ (clean_str_chars _ Hk)).
    change (lit ": " ++ ?t) with (58%N :: 32%N :: t).
    cbn [skip_ws is_ws N.eqb Pos.eqb orb].
    rewrite (skip_ws_value _ _ _ Hv), (Hx (S level) f _) by lia.
    change (lit "," ++ ?t) with (44%N :: t). cbn [skip_ws is_ws N.eqb Pos.eqb orb].
    rewrite skip_ws_newline_indent.
    unfold encode_basestring at 1. cbn [app].
    rewrite skip_ws_keep by reflexivity. cbv iota. rewrite N.eqb_refl.
    rewrite <- app_assoc. cbn [app].
    rewrite (IH k' y f rest HR' HC) by (simpl; lia). reflexivity.
Qed.

Lemma need_positive (v : value) : 1 <= need v.
Proof. destruct v; simpl; lia. Qed.

Lemma reads_back_clean (v : value) : clean_value v = true -> reads_back v.
Proof.
  induction v as [| b | z | x | s | items IH | pairs IH] using value_induction;
    try discriminate; intros HC level fuel rest Hf.
  - (* a string *)
    destruct fuel as [|f]; [simpl in Hf; lia|].
    unfold iterencode, encode_basestring. cbn [app scan_once].
    rewrite N.eqb_refl, <- app_assoc. cbn [app].
    now rewrite (scanstring_escaped _ _ (clean_str_chars _ HC)).
  - (* a list *)
    destruct items as [|x xs].
    + destruct fuel as [|f]; [simpl in Hf; lia|]. reflexivity.
    + assert (HR : Forall reads_back (x :: xs)).
      { cbn [clean_value] in HC. rewrite forallb_forall in HC.
        rewrite Forall_forall in IH |- *. intros y Hy. apply IH; [assumption|]. now apply HC. }
      cbn [clean_value] in HC.
      destruct fuel as [|f]; [simpl in Hf; lia|].
      rewrite iterencode_list, <- !app_assoc.
      change (lit "[" ++ ?t) with (91%N :: t). cbn [scan_once].
      change (91 =? dq)%N with false. change (91 =? 123)%N with false.
      change (91 =? 91)%N with true. cbv iota.
      rewrite skip_ws_newline_indent.
      assert (Hx : clean_value x = true)
        by (cbn [forallb] in HC; now apply andb_true_iff in HC as [HC _]).
      rewrite (skip_ws_value _ _ _ Hx).
      pose proof (scan_items_text level xs x f rest HR HC) as E.
      destruct (value_head (S level) x Hx) as (c & t & Ec & Hc).
      rewrite Ec in E |- *. cbn [app] in E |- *.
      replace (c =? 93)%N with false
        by (symmetry; apply N.eqb_neq; destruct Hc as [->|[->| ->]]; discriminate).
      rewrite E; [reflexivity|]. simpl in Hf |- *. lia.
  - (* a dict *)
    destruct pairs as [|[k x] ps].
    + destruct fuel as [|f]; [simpl in Hf; lia|]. reflexivity.
    + cbn [clean_value] in HC. apply andb_true_iff in HC as [HD HC].
      assert (HR : Forall (fun kx => reads_back (snd kx)) ((k, x) :: ps)).
      { rewrite forallb_forall in HC. rewrite Forall_forall in IH |- *.
        intros ky Hy. apply IH; [assumption|].
        specialize (HC ky Hy). now apply andb_true_iff in HC as [_ HC]. }
      destruct fuel as [|f]; [simpl in Hf; lia|].
      rewrite iterencode_dict, <- !app_assoc.
      change (lit "{" ++ ?t) with (123%N :: t). cbn [scan_once].
      change (123 =? dq)%N with false. change (123 =? 123)%N with true. cbv iota.
      rewrite skip_ws_newline_indent.
      unfold encode_basestring at 1. cbn [app].
      rewrite skip_ws_keep by reflexivity. cbv iota.
      change (dq =? 125)%N with false. rewrite N.eqb_refl. cbv iota.
      rewrite <- app_assoc. cbn [app].
      rewrite (scan_members_text level ps k x f rest HR HC) by (simpl in Hf |- *; lia).
      now rewrite (dict_of_pairs_distinct _ HD).
Qed.

(** The text of a value is at least as long as the calls it needs. *)
Lemma need_le_length (v : value) (level : nat) :
  clean_value v = true -> need v <= length (enc level v).
Proof.
  revert level.
  induction v as [| b | z | x | s | items IH | pairs IH] using value_induction;
    try discriminate; intros level HC.
  - unfold iterencode, encode_basestring. simpl. lia.
  - destruct items as [|x xs]; [simpl; lia|].
    rewrite iterencode_list. cbn [clean_value] in HC.
    assert (G : forall l, Forall (fun v => forall level, clean_value v = true ->
                                   need v <= length (enc level v)) l ->
                          forallb clean_value l = true ->
                          list_sum (map (fun y => S (need y)) l)
                          <= length (flat_map (fun y => lit "," ++ newline_indent (S level)
                                                        ++ enc (S level) y) l)).
    { induction 1 as [|y l Hy _ IHl]; intros Hl; [simpl; lia|].
      cbn [forallb] in Hl. apply andb_true_iff in Hl as [Hy' Hl].
      cbn [map flat_map]. change (list_sum (?a :: ?l)) with (a + list_sum l). rewrite !length_app.
      specialize (Hy (S level) Hy'). specialize (IHl Hl).
      change (length (lit ",")) with 1. lia. }
    inversion IH as [|? ? Hx IH']; subst.
    cbn [forallb] in HC. apply andb_true_iff in HC as [Hx' HC].
    specialize (G xs IH' HC). specialize (Hx (S level) Hx').
    cbn [need map]. change (list_sum (?a :: ?l)) with (a + list_sum l). rewrite !length_app.
    change (length (lit "[")) with 1. change (length (lit "]")) with 1.
    unfold newline_indent at 1. cbn [length]. lia.
  - destruct pairs as [|[k x] ps]; [simpl; lia|].
    rewrite iterencode_dict. cbn [clean_value] in HC. apply andb_true_iff in HC as [_ HC].
    assert (G : forall l, Forall (fun kx => forall level, clean_value (snd kx) = true ->
                                   need (snd kx) <= length (enc level (snd kx))) l ->
                          forallb (fun kx => clean_str (fst kx) && clean_value (snd kx)) l = true ->
                          list_sum (map (fun kx => S (need (snd kx))) l)
                          <= length (flat_map (fun ky => lit "," ++ newline_indent (S level)
                                                 ++ encode_basestring (fst ky) ++ lit ": "
                                                 ++ enc (S level) (snd ky)) l)).
    { induction 1 as [|y l Hy _ IHl]; intros Hl; [simpl; lia|].
      cbn [forallb] in Hl. apply andb_true_iff in Hl as [Hy' Hl].
      apply andb_true_iff in Hy' as [_ Hy'].
      cbn [map flat_map]. change (list_sum (?a :: ?l)) with (a + list_sum l). rewrite !length_app.
      specialize (Hy (S level) Hy'). specialize (IHl Hl).
      change (length (lit ",")) with 1. lia. }
    inversion IH as [|? ? Hx IH']; subst. cbn [snd] in Hx.
    cbn [forallb fst snd] in HC. apply andb_true_iff in HC as [Hx' HC].
    apply andb_true_iff in Hx' as [_ Hx'].
    specialize (G ps IH' HC). specialize (Hx (S level) Hx').
    cbn [need map snd]. change (list_sum (?a :: ?l)) with (a + list_sum l). rewrite !length_app.
    change (length (lit "{")) with 1. change (length (lit ": ")) with 2. lia.
Qed.

(** [json.loads] reads back what [json.dumps] wrote of a clean value. *)
Lemma json_loads_dumps (v : value) :
  clean_value v = true -> json_loads (json_dumps float_repr v) = Some v.
Proof.
  intros HC. unfold json_loads, decode, json_dumps.
  destruct (value_head 0 v HC) as (c & t & Ec & Hc).
  assert (Hbom : match enc 0 v with 65279%N :: _ => False | _ => True end).
  { rewrite Ec. destruct Hc as [->|[->| ->]]; exact I. }
  pose proof (skip_ws_value 0 v [] HC) as Hws. rewrite app_nil_r in Hws.
  pose proof (reads_back_clean v HC 0 (2 * length (enc 0 v) + 2) []) as E.
  rewrite app_nil_r in E.
  pose proof (need_le_length v 0 HC) as Hn.
  rewrite Hws, E by lia. cbn [skip_ws].
  rewrite Ec in Hbom |- *. destruct Hc as [->|[->| ->]]; reflexivity.
Qed.

End ReadBack.

(** ** The shape of the text [json.dumps] writes *)

Lemma nice_spaces (n : nat) (t : str) : nice t -> nice (spaces n ++ t).
Proof.
  intros H. induction n as [|n IH]; [exact H|].
  change (spaces (S n) ++ t) with (32%N :: spaces n ++ t). now apply nice_punct.
Qed.

Lemma nice_newline_indent (level : nat) (t : str) :
  nice t -> nice (newline_indent level ++ t).
Proof.
  intros H. unfold newline_indent. cbn [app].
  apply nice_punct; [reflexivity|]. now apply nice_spaces.
Qed.

Lemma nice_iterencode (float_repr : str -> str) (v : value) :
  clean_value v = true ->
  forall level t, nice t -> nice (iterencode float_repr level v ++ t).
Proof.
  induction v as [| b | z | x | s | items IH | pairs IH] using value_induction;
    try discriminate; intros HC level t Ht.
  - now apply nice_string.
  - destruct items as [|x xs].
    + apply nice_punct; [reflexivity|]. now apply nice_punct.
    + rewrite iterencode_list, <- !app_assoc. cbn [clean_value] in HC.
      change (lit "[" ++ ?u) with (91%N :: u). apply nice_punct; [reflexivity|].
      apply nice_newline_indent.
      inversion IH as [|? ? Hx IH']; subst.
      cbn [forallb] in HC. apply andb_true_iff in HC as [Hx' HC].
      apply Hx; [assumption|].
      assert (G : forall u, nice u ->
                  nice (flat_map (fun y => lit "," ++ newline_indent (S level)
                                           ++ iterencode float_repr (S level) y) xs ++ u)).
      { clear Hx Hx' IH. induction IH' as [|y l Hy _ IHl]; intros u Hu; [exact Hu|].
        cbn [forallb] in HC. apply andb_true_iff in HC as [Hy' HC].
        cbn [flat_map]. rewrite <- !app_assoc.
        change (lit "," ++ ?w) with (44%N :: w). apply nice_punct; [reflexivity|].
        apply nice_newline_indent. apply Hy; [assumption|]. apply IHl; assumption. }
      apply G. apply nice_newline_indent. now apply nice_punct.
  - destruct pairs as [|[k x] ps].
    + apply nice_punct; [reflexivity|]. now apply nice_punct.
    + rewrite iterencode_dict, <- !app_assoc. cbn [clean_value] in HC.
      apply andb_true_iff in HC as [_ HC].
      change (lit "{" ++ ?u) with (123%N :: u). apply nice_punct; [reflexivity|].
      apply nice_newline_indent.
      inversion IH as [|? ? Hx IH']; subst. cbn [snd] in Hx.
      cbn [forallb fst snd] in HC. apply andb_true_iff in HC as [Hx' HC].
      apply andb_true_iff in Hx' as [Hk Hx'].
      change (lit ": " ++ ?u) with (58%N :: 32%N :: u).
      apply nice_key; [assumption|]. apply nice_punct; [reflexivity|].
      apply Hx; [assumption|].
      assert (G : forall u, nice u ->
                  nice (flat_map (fun ky => lit "," ++ newline_indent (S level)
                                            ++ encode_basestring (fst ky) ++ lit ": "
                                            ++ iterencode float_repr (S level) (snd ky)) ps ++ u)).
      { clear Hx Hx' Hk IH. induction IH' as [|[k' y] l Hy _ IHl]; intros u Hu; [exact Hu|].
        cbn [forallb fst snd] in HC. apply andb_true_iff in HC as [Hy' HC].
        apply andb_true_iff in Hy' as [Hk' Hy'].
        cbn [flat_map fst snd]. rewrite <- !app_assoc.
        change (lit "," ++ ?w) with (44%N :: w). apply nice_punct; [reflexivity|].
        apply nice_newline_indent.
        change (lit ": " ++ ?w) with (58%N :: 32%N :: w).
        apply nice_key; [assumption|]. apply nice_punct; [reflexivity|].
        apply Hy; [assumption|]. apply IHl; assumption. }
      apply G. apply nice_newline_indent. now apply nice_punct.
Qed.

(** ** Templates that [re.sub] copies *)

Lemma plain_template_app (a b : str) :
  plain_template a = true -> plain_template (a ++ b) = plain_template b.
Proof.
  remember (length a) as n eqn:Hn. assert (Hle : length a <= n) by lia. clear Hn.
  revert a Hle. induction n as [|n IH]; intros a Hle H.
  - destruct a; [reflexivity | cbn [length] in Hle; lia].
  - destruct a as [|c [|e a]]; cbn [plain_template app length] in *.
    + reflexivity.
    + destruct (c =? backslash)%N; [discriminate|reflexivity].
    + destruct (c =? backslash)%N.
      * apply andb_true_iff in H as [-> H]. cbn [andb]. apply IH; [lia|assumption].
      * apply (IH (e :: a)); [cbn [length]; lia|assumption].
Qed.

Lemma plain_template_escaped (s : str) :
  forallb (fun c => (32 <=? c)%N && negb (c =? backslash)%N) s = true ->
  plain_template (flat_map escape_char s) = true.
Proof.
  induction s as [|c s IH]; intros H; [reflexivity|].
  cbn [forallb] in H. apply andb_true_iff in H as [Hc Hs].
  apply andb_true_iff in Hc as [H1 H2]. apply negb_true_iff in H2.
  cbn [flat_map]. destruct (N.eqb_spec c dq) as [->|Hq].
  - rewrite escape_char_quote. cbn [app plain_template].
    rewrite !N.eqb_refl. now apply IH.
  - rewrite (escape_char_plain c H1) by (try assumption; now apply N.eqb_neq).
    cbn [app plain_template]. rewrite H2. now apply IH.
Qed.

Lemma plain_template_basestring (s t : str) :
  clean_str s = true ->
  plain_template (encode_basestring s ++ t) = plain_template t.
Proof.
  intros H. unfold encode_basestring. cbn [app plain_template].
  change (dq =? backslash)%N with false. cbv iota.
  rewrite <- app_assoc, plain_template_app
    by (apply plain_template_escaped, clean_str_chars, H).
  reflexivity.
Qed.

Lemma nice_plain (t : str) : nice t -> plain_template t = true.
Proof.
  induction 1 as [| c t Hc _ IH | s t Hs _ IH | s t Hs _ IH].
  - reflexivity.
  - cbn [plain_template]. destruct (N.eqb_spec c backslash) as [->|_]; [discriminate|exact IH].
  - now rewrite plain_template_basestring.
  - now rewrite plain_template_basestring.
Qed.

Lemma parse_template_char (n : nat) (c : char) (s : str) :
  c <> backslash ->
  parse_template n TNormal (c :: s) = push (TChar c) (parse_template n TNormal s).
Proof.
  intros H. apply N.eqb_neq in H. destruct s; cbn [parse_template]; now rewrite H.
Qed.

Lemma parse_template_quote (n : nat) (s : str) :
  parse_template n TNormal (backslash :: dq :: s)
  = push (TChar backslash) (push (TChar dq) (parse_template n TNormal s)).
Proof. destruct s; reflexivity. Qed.

Lemma parse_template_copies (n : nat) (s : str) :
  plain_template s = true -> parse_template n TNormal s = Some (map TChar s).
Proof.
  remember (length s) as m eqn:Hm. assert (Hle : length s <= m) by lia. clear Hm.
  revert s Hle. induction m as [|m IH]; intros s Hle H.
  - destruct s; [reflexivity | cbn [length] in Hle; lia].
  - destruct s as [|c s]; [reflexivity|]. cbn [length] in Hle.
    destruct (N.eqb_spec c backslash) as [->|Hc].
    + destruct s as [|e s]; cbn [plain_template] in H; rewrite N.eqb_refl in H;
        [discriminate|].
      apply andb_true_iff in H as [He H]. apply N.eqb_eq in He as ->.
      cbn [length] in Hle.
      rewrite parse_template_quote, (IH s) by (assumption || lia). reflexivity.
    + rewrite (parse_template_char _ _ _ Hc). cbn [plain_template] in H.
      apply N.eqb_neq in Hc. rewrite Hc in H.
      rewrite (IH s) by (assumption || lia). reflexivity.
Qed.

(** ** No bad pair in what [json.dumps] writes *)

Lemma bad_pair_inert (a b : char) : b <> 58%N -> b <> 59%N -> bad_pair a b = false.
Proof.
  intros H1 H2. unfold bad_pair.
  destruct (N.eqb_spec b 58), (N.eqb_spec b 59); try congruence.
  now rewrite !andb_false_r.
Qed.

Lemma pairs_ok_escaped (s : str) :
  forall prev rest,
  forallb (fun c => (32 <=? c)%N && negb (c =? backslash)%N) s = true ->
  pairs_ok prev s = true ->
  pairs_ok prev (flat_map escape_char s ++ dq :: rest) = pairs_ok dq rest.
Proof.
  induction s as [|c s IH]; intros prev rest Hs Hp.
  - cbn [flat_map app pairs_ok]. now rewrite bad_pair_inert by discriminate.
  - cbn [forallb] in Hs. apply andb_true_iff in Hs as [Hc Hs].
    apply andb_true_iff in Hc as [H1 H2]. apply negb_true_iff, N.eqb_neq in H2.
    cbn [pairs_ok] in Hp. apply andb_true_iff in Hp as [Hb Hp].
    cbn [flat_map]. rewrite <- app_assoc. destruct (N.eqb_spec c dq) as [->|Hq].
    + rewrite escape_char_quote. cbn [app pairs_ok].
      rewrite !bad_pair_inert by discriminate. cbn [negb andb]. now apply IH.
    + rewrite (escape_char_plain c H1 H2 Hq). cbn [app pairs_ok].
      rewrite Hb. cbn [andb]. now apply IH.
Qed.

Lemma pairs_ok_basestring (s t : str) (prev : char) :
  clean_str s = true ->
  pairs_ok prev (encode_basestring s ++ t) = pairs_ok dq t.
Proof.
  intros H. unfold clean_str in H. apply andb_true_iff in H as [Hc Hp].
  unfold encode_basestring. cbn [app pairs_ok].
  rewrite bad_pair_inert by discriminate. cbn [negb andb].
  rewrite <- app_assoc. apply pairs_ok_escaped; [assumption|].
  destruct s as [|c s]; [reflexivity|]. cbn [pairs_ok no_bad_pair] in *.
  rewrite Hp, andb_true_r. unfold bad_pair. reflexivity.
Qed.

Lemma punct_inert (c : char) : punct c = true -> c <> 58%N /\ c <> 59%N.
Proof. intros H. split; intros ->; discriminate. Qed.

Lemma nice_pairs (t : str) : nice t -> forall prev, pairs_ok prev t = true.
Proof.
  induction 1 as [| c t Hc _ IH | s t Hs _ IH | s t Hs _ IH]; intros prev.
  - reflexivity.
  - cbn [pairs_ok]. destruct (punct_inert c Hc) as [H1 H2].
    now rewrite (bad_pair_inert _ _ H1 H2), IH.
  - rewrite (pairs_ok_basestring _ _ _ Hs). apply IH.
  - rewrite (pairs_ok_basestring _ _ _ Hs). cbn [pairs_ok]. rewrite IH.
    reflexivity.
Qed.

(** ** Scans that find nothing, and where the first match is *)

Lemma finditer_all_gaps (r : regex) (s : str) :
  (forall u v, s = u ++ v -> match_at r v = None) -> finditer r 0 s = map Gap s.
Proof.
  induction s as [|c t IH]; intros H.
  - cbn [finditer]. now rewrite (H [] [] eq_refl).
  - rewrite finditer_cons0, (H [] (c :: t) eq_refl). cbn [map]. f_equal.
    apply IH. intros u v ->. now apply (H (c :: u) v).
Qed.

Lemma substitute_gaps (t : list tpart) (s : str) (ps : list piece) :
  substitute t (map Gap s ++ ps) = s ++ substitute t ps.
Proof.
  unfold substitute. induction s as [|c s IH]; [reflexivity|].
  cbn [map app flat_map]. now rewrite IH.
Qed.

Lemma source_gaps (s : str) (ps : list piece) :
  source_of (map Gap s ++ ps) = s ++ source_of ps.
Proof.
  unfold source_of. induction s as [|c s IH]; [reflexivity|].
  cbn [map app flat_map]. now rewrite IH.
Qed.

Lemma first_hit_gaps (s : str) (ps : list piece) :
  first_hit (map Gap s ++ ps) = first_hit ps.
Proof. induction s as [|c s IH]; [reflexivity|exact IH]. Qed.

Lemma first_hit_split (ps : list piece) :
  first_hit ps <> None ->
  exists pre m g ps2, ps = map Gap pre ++ Hit m g :: ps2.
Proof.
  induction ps as [|[c|m g] ps IH]; intros H.
  - now contradiction H.
  - destruct (IH H) as (pre & m & g & ps2 & ->). now exists (c :: pre), m, g, ps2.
  - now exists [], m, g, ps.
Qed.

Lemma finditer_gaps_prefix (r : regex) (pre rest : str) :
  (forall u v, pre = u ++ v -> v <> [] -> match_at r (v ++ rest) = None) ->
  finditer r 0 (pre ++ rest) = map Gap pre ++ finditer r 0 rest.
Proof.
  induction pre as [|c pre IH]; intros H; [reflexivity|].
  cbn [app map]. rewrite finditer_gap.
  - f_equal. apply IH. intros u v -> Hv. now apply (H (c :: u) v).
  - apply (H [] (c :: pre) eq_refl). discriminate.
Qed.

Section FirstMatch.

Variable r : regex.
Variable M : str -> caps -> Prop.
Hypothesis r_sound : forall s g s',
  match_at r s = Some (g, s') -> exists m, s = m ++ s' /\ m <> [] /\ M m g.

Lemma finditer_starts_hit (s : str) :
  match_at r s <> None -> first_hit (finditer r 0 s) <> None.
Proof using r_sound.
  destruct (match_at r s) as [[g s']|] eqn:E; [intros _|congruence].
  destruct (r_sound _ _ _ E) as (m & -> & Hm & _).
  now rewrite (finditer_hit r M r_sound _ _ _ E).
Qed.

Lemma finditer_finds (pre s : str) :
  match_at r s <> None -> first_hit (finditer r 0 (pre ++ s)) <> None.
Proof using r_sound.
  intros H. induction pre as [|c pre IH]; [now apply finditer_starts_hit|].
  cbn [app]. destruct (match_at r (c :: pre ++ s)) as [[g s']|] eqn:E.
  - apply finditer_starts_hit. congruence.
  - now rewrite (finditer_gap _ _ _ E).
Qed.

(** Before the first match, no match starts. *)
Lemma gaps_unmatched (pre m : str) (g : caps) (ps2 : list piece) :
  forall s,
  finditer r 0 s = map Gap pre ++ Hit m g :: ps2 ->
  forall u v, pre = u ++ v -> v <> [] ->
  match_at r (v ++ m ++ source_of ps2) = None.
Proof using r_sound.
  induction pre as [|c pre IH]; intros s Hs u v Hp Hv.
  - symmetry in Hp. apply app_eq_nil in Hp as [_ ->]. congruence.
  - assert (Es : s = (c :: pre) ++ m ++ source_of ps2).
    { pose proof (finditer_source r M r_sound s 0 ltac:(lia)) as E0.
      rewrite Hs, source_gaps in E0. cbn [skipn source_of flat_map] in E0.
      now rewrite <- E0. }
    subst s. cbn [app] in Hs.
    destruct (match_at r (c :: pre ++ m ++ source_of ps2)) as [[g' s']|] eqn:E.
    + exfalso. destruct (r_sound _ _ _ E) as (m' & Em & Hm' & _).
      destruct (finditer_cons_hit r M r_sound _ _ m' _ _ E Em) as (n & _ & Ef).
      rewrite Ef in Hs. discriminate.
    + rewrite (finditer_gap _ _ _ E) in Hs. injection Hs as Hs.
      destruct u as [|c' u].
      * cbn [app] in Hp. subst v. exact E.
      * injection Hp as -> ->. now apply (IH _ Hs u v).
Qed.

End FirstMatch.

(** ** The key pattern on text without a bad pair *)

Lemma pairs_ok_mid (a b : str) (x y prev : char) :
  pairs_ok prev (a ++ x :: y :: b) = true -> bad_pair x y = false.
Proof.
  revert prev; induction a as [|c a IH]; intros prev H; cbn [app pairs_ok] in H.
  - apply andb_true_iff in H as [_ H]. apply andb_true_iff in H as [H _].
    now apply negb_true_iff in H.
  - apply andb_true_iff in H as [_ H]. now apply (IH c).
Qed.

Lemma key_match_some (s : str) (g : caps) (s' : str) :
  match_at key_pattern s = Some (g, s') ->
  exists w x, s = w ++ x :: 58%N :: s' /\ is_word x = true.
Proof.
  unfold match_at, key_pattern, r_seq, r_group, r_plus_greedy. intros H.
  destruct s as [|c t]; [discriminate|].
  destruct (is_word c) eqn:Hc; [|discriminate].
  apply r_star_greedy_some in H as (w & s2 & -> & Hw & H).
  apply r_lit_some in H as (s3 & -> & H). injection H as _ <-.
  destruct (exists_last (l := c :: w) ltac:(discriminate)) as (w0 & x & E).
  exists w0, x. split.
  - change (c :: w ++ lit ":" ++ s3) with ((c :: w) ++ 58%N :: s3).
    rewrite E, <- app_assoc. reflexivity.
  - assert (Hall : forallb is_word (c :: w) = true) by (cbn [forallb]; now rewrite Hc).
    rewrite E, forallb_app in Hall. apply andb_true_iff in Hall as [_ Hall].
    cbn [forallb] in Hall. now rewrite andb_true_r in Hall.
Qed.

Lemma key_pattern_no_match (t u v : str) (prev : char) :
  pairs_ok prev t = true -> t = u ++ v -> match_at key_pattern v = None.
Proof.
  intros Hp ->. destruct (match_at key_pattern v) as [[g s']|] eqn:E; [|reflexivity].
  apply key_match_some in E as (w & x & -> & Hx).
  rewrite app_assoc in Hp. apply pairs_ok_mid in Hp.
  unfold bad_pair in Hp. rewrite Hx in Hp. discriminate.
Qed.

Lemma quote_keys_nothing (t : str) (prev : char) :
  pairs_ok prev t = true -> quote_keys t = Some t.
Proof.
  intros Hp. unfold quote_keys, re_sub.
  change (parse_template 1 TNormal key_template)
    with (Some [TChar dq; TGroup 1; TChar dq; TChar 58%N]).
  rewrite finditer_all_gaps by (intros u v; apply (key_pattern_no_match t u v prev Hp)).
  rewrite <- (app_nil_r (map Gap t)), substitute_gaps. cbn. now rewrite app_nil_r.
Qed.

(** ** The array pattern on the statement [update_dealers_in_html] wrote *)

Lemma r_star_lazy_first (body tail : str) (g : caps) (k : cont) (res : result) :
  k tail g = Some res ->
  (forall u v, body = u ++ v -> v <> [] -> k (v ++ tail) g = None) ->
  r_star_lazy any_char (body ++ tail) g k = Some res.
Proof.
  intros Hk. induction body as [|c body IH]; intros H.
  - cbn [app]. destruct tail; cbn [r_star_lazy]; now rewrite Hk.
  - pose proof (H [] (c :: body) eq_refl ltac:(discriminate)) as E.
    cbn [app] in E |- *. cbn [r_star_lazy]. rewrite E.
    cbn [any_char]. apply IH. intros u v -> Hv. now apply (H (c :: u) v).
Qed.

Lemma statement_of_eq (body : str) :
  statement_of body = lit "const dealersData = [" ++ body ++ lit "];".
Proof.
  unfold statement_of.
  change (lit "const dealersData = [") with (lit "const dealersData = " ++ lit "[").
  change (lit "];") with (lit "]" ++ lit ";").
  now rewrite <- !app_assoc.
Qed.

Lemma array_match_statement (body rest : str) (prev : char) :
  pairs_ok prev (body ++ lit "]") = true ->
  match_at array_pattern (statement_of body ++ rest)
  = Some (Some (lit "[" ++ body ++ lit "]"), rest).
Proof.
  intros Hp. unfold match_at, array_pattern, statement_of, r_seq, r_group.
  rewrite <- !app_assoc, !r_lit_app.
  apply r_star_lazy_first.
  - rewrite r_lit_app.
    replace (lit "[" ++ body ++ lit "]" ++ lit ";" ++ rest)
      with ((lit "[" ++ body ++ lit "]") ++ lit ";" ++ rest)
      by (now rewrite <- !app_assoc).
    rewrite firstn_consumed. now rewrite r_lit_app.
  - intros u v -> Hv.
    destruct (r_lit (lit "]") (v ++ lit "]" ++ lit ";" ++ rest) None _) eqn:E;
      [|reflexivity].
    exfalso. apply r_lit_some in E as (s4 & E1 & E).
    apply r_lit_some in E as (s5 & -> & _).
    destruct v as [|c v]; [congruence|].
    change (lit "]" ++ lit ";" ++ s5) with (93%N :: 59%N :: s5) in E1.
    cbn [app] in E1. injection E1 as -> E1.
    destruct v as [|c v]; cbn [app] in E1.
    + discriminate.
    + injection E1 as -> _.
      rewrite <- app_assoc in Hp. cbn [app] in Hp.
      apply pairs_ok_mid in Hp. discriminate.
Qed.

(** A text that, after [v], starts one statement starts a statement after
    [v] whatever statement stands there. *)
Lemma statement_start_transfer (v x body s' body2 post2 : str) :
  v <> [] ->
  v ++ lit "const dealersData = [" ++ x = statement_of body ++ s' ->
  exists body', v ++ statement_of body2 ++ post2 = statement_of body' ++ post2.
Proof.
  intros Hv E. rewrite statement_of_eq, <- app_assoc in E.
  apply app_eq_app in E as (l & [[-> _]|[E1 E2]]).
  - exists (l ++ lit "const dealersData = [" ++ body2).
    rewrite !statement_of_eq, <- !app_assoc. reflexivity.
  - apply app_eq_app in E2 as (l2 & [[E3 _]|[-> _]]).
    + exists (l2 ++ body2). rewrite !statement_of_eq, <- !app_assoc.
      transitivity (v ++ (l ++ l2) ++ body2 ++ lit "];" ++ post2);
        [now rewrite <- E3|].
      transitivity ((v ++ l) ++ l2 ++ body2 ++ lit "];" ++ post2);
        [now rewrite <- !app_assoc | now rewrite <- E1].
    + exfalso. apply (f_equal (@length char)) in E1. rewrite !length_app in E1.
      destruct v; [congruence|]. cbn [length] in E1. lia.
Qed.

(** ** The round trip of the dealer array *)

Lemma list_text_shape (float_repr : str -> str) (items : list value) :
  exists body, json_dumps float_repr (VList items) = lit "[" ++ body ++ lit "]".
Proof.
  unfold json_dumps. destruct items as [|x xs].
  - now exists [].
  - rewrite iterencode_list.
    exists (newline_indent 1 ++ iterencode float_repr 1 x
            ++ flat_map (fun y => lit "," ++ newline_indent 1 ++ iterencode float_repr 1 y) xs
            ++ newline_indent 0).
    now rewrite <- !app_assoc.
Qed.

(** X28. Let the document hold the statement, and let the records
    be made of strings, lists and dicts with distinct keys (as every
    record of the forms is) whose strings, keys included, hold no control
    character, no backslash, no word character right before a colon and
    no closing bracket right before a semicolon. If the symbol clean-up
    leaves the encoded array as it is (it does when no string holds
    U+00E2 or U+00F0, see [fix_symbols_dumps]), then decoding the
    document that [update_dealers_in_html] wrote gives the records back,
    and reports nothing. *)
Theorem dealers_round_trip (float_repr : str -> str) (html : str) (records : list value) :
  has_statement html ->
  forallb clean_value records = true ->
  fix_symbols (json_dumps float_repr (VList records))
  = Some (json_dumps float_repr (VList records)) ->
  extract_dealers_data (fst (update_dealers_in_html float_repr html (VList records)))
  = (VList records, []).
Proof.
  intros Hst HC Hfix.
  assert (HCv : clean_value (VList records) = true) by exact HC.
  pose proof (nice_iterencode float_repr (VList records) HCv 0 [] nice_nil) as Hnice.
  rewrite app_nil_r in Hnice. fold (json_dumps float_repr (VList records)) in Hnice.
  pose proof (json_loads_dumps float_repr _ HCv) as Hload.
  destruct (list_text_shape float_repr records) as (body & ET).
  remember (json_dumps float_repr (VList records)) as T eqn:HT.
  (* the statement written *)
  assert (Enew : lit "const dealersData = " ++ T ++ lit ";" = statement_of body).
  { rewrite ET. unfold statement_of. now rewrite <- !app_assoc. }
  assert (Hplain : plain_template (statement_of body) = true).
  { rewrite <- Enew. rewrite plain_template_app by reflexivity.
    now rewrite plain_template_app by (apply nice_plain, Hnice). }
  assert (Hpairs : pairs_ok 91%N (body ++ lit "]") = true).
  { pose proof (nice_pairs _ Hnice 91%N) as Hp. rewrite ET in Hp.
    change (lit "[" ++ body ++ lit "]") with (91%N :: body ++ lit "]") in Hp.
    cbn [pairs_ok] in Hp. now apply andb_true_iff in Hp as [_ Hp]. }
  (* the document written *)
  unfold update_dealers_in_html, re_sub. rewrite <- HT, Enew.
  rewrite (parse_template_copies _ _ Hplain). cbn [fst].
  destruct Hst as (pre0 & body0 & post0 & ->).
  destruct (first_hit_split (finditer statement_pattern 0
                               (pre0 ++ statement_of body0 ++ post0)))
    as (pre & old & g & ps2 & Eps).
  { apply (finditer_finds _ _ statement_match_some), statement_match_complete. }
  rewrite Eps, substitute_gaps. unfold substitute at 1. cbn [flat_map].
  rewrite expand_plain. fold (substitute (map TChar (statement_of body)) ps2).
  set (rest' := substitute (map TChar (statement_of body)) ps2).
  (* the first statement of the document written is the one written *)
  assert (Hold : is_statement old).
  { assert (Hin : In (Hit old g) (finditer statement_pattern 0
                                   (pre0 ++ statement_of body0 ++ post0)))
      by (rewrite Eps, in_app_iff; right; now left).
    now destruct (finditer_hits _ _ statement_match_some _ _ _ _ Hin) as [[H _] _]. }
  destruct Hold as (body1 & ->).
  assert (Hgap : forall u v, pre = u ++ v -> v <> [] ->
                 match_at array_pattern (v ++ statement_of body ++ rest') = None).
  { intros u v Hp Hv.
    destruct (match_at array_pattern (v ++ statement_of body ++ rest'))
      as [[g' s']|] eqn:E; [|reflexivity].
    exfalso. apply array_match_some in E as (m & E & _ & body' & -> & _).
    rewrite (statement_of_eq body), <- app_assoc in E.
    destruct (statement_start_transfer v _ body' s' body1 (source_of ps2) Hv E)
      as (body'' & E').
    pose proof (gaps_unmatched _ _ statement_match_some _ _ _ _ _ Eps u v Hp Hv) as Hn.
    rewrite E' in Hn. now apply (statement_match_complete body'' (source_of ps2)). }
  unfold extract_dealers_data, re_search.
  rewrite (finditer_gaps_prefix _ _ _ Hgap), first_hit_gaps.
  rewrite (finditer_hit _ _ array_match_some _ _ _
             (array_match_statement body rest' 91%N Hpairs)).
  cbn [first_hit group1]. rewrite <- ET.
  unfold clean_up. rewrite (quote_keys_nothing T 91%N (nice_pairs _ Hnice _)).
  cbn [and_then]. rewrite Hfix. cbn [and_then]. now rewrite Hload.
Qed.

(** ** The bound of [json_loads] on the depth of the calls is enough *)

Lemma skip_ws_length (s : str) : length (skip_ws s) <= length s.
Proof.
  induction s as [|c s IH]; [reflexivity|]. cbn [skip_ws].
  destruct (is_ws c); cbn [length]; lia.
Qed.

Lemma add_char_some (c : char) (r : option (str * str)) (x rest : str) :
  add_char c r = Some (x, rest) -> exists x', r = Some (x', rest).
Proof.
  destruct r as [[x' rest']|]; [|discriminate]. intros H. injection H as _ <-.
  now exists x'.
Qed.

Lemma scanstring_consumes (s x r : str) :
  scanstring s = Some (x, r) -> length r < length s.
Proof.
  remember (length s) as n eqn:Hn. assert (Hle : length s <= n) by lia.
  rewrite Hn. clear Hn. revert s x r Hle.
  induction n as [|n IH]; intros s x r Hle H.
  - destruct s; [discriminate | cbn [length] in Hle; lia].
  - destruct s as [|c t]; [discriminate|]. cbn [scanstring] in H. cbn [length] in Hle.
    repeat match type of H with
    | Some _ = Some _ => injection H as <- <-; cbn [length]; lia
    | None = Some _ => discriminate H
    | add_char _ (scanstring ?u) = Some _ =>
        let x' := fresh "x" in
        apply add_char_some in H as (x' & H); apply IH in H;
        [cbn [length] in *; lia | cbn [length] in *; lia]
    | context [match ?u with _ => _ end] => destruct u eqn:?
    end.
Qed.

Lemma take_digits_length (s : str) :
  length (fst (take_digits s)) + length (snd (take_digits s)) = length s.
Proof.
  induction s as [|c s IH]; [reflexivity|]. cbn [take_digits].
  destruct (is_digit c); [|reflexivity].
  destruct (take_digits s) as [d r]. cbn [fst snd length] in *. lia.
Qed.

Lemma match_frac_length (s : str) : length (snd (match_frac s)) <= length s.
Proof.
  destruct s as [|c t]; [reflexivity|]. cbn [match_frac].
  destruct (c =? 46)%N; [|reflexivity].
  pose proof (take_digits_length t) as H.
  destruct (take_digits t) as [[|d ds] r]; cbn [fst snd length] in *; lia.
Qed.

Lemma match_exp_length (s : str) : length (snd (match_exp s)) <= length s.
Proof.
  destruct s as [|c t]; [reflexivity|]. cbn [match_exp].
  destruct ((c =? 101)%N || (c =? 69)%N); [|reflexivity].
  destruct t as [|sg t']; [reflexivity|].
  destruct ((sg =? 45)%N || (sg =? 43)%N).
  - pose proof (take_digits_length t') as H.
    destruct (take_digits t') as [[|d ds] r]; cbn [fst snd length] in *; lia.
  - pose proof (take_digits_length (sg :: t')) as H.
    destruct (take_digits (sg :: t')) as [[|d ds] r]; cbn [fst snd length] in *; lia.
Qed.

Lemma match_integer_consumes (s i r : str) :
  match_integer s = Some (i, r) -> length r < length s.
Proof.
  destruct s as [|c t]; [discriminate|]. cbn [match_integer].
  destruct (c =? 48)%N.
  - intros H. injection H as _ <-. cbn [length]. lia.
  - destruct (in_range 49%N 57%N c); [|discriminate].
    pose proof (take_digits_length t) as Hl.
    destruct (take_digits t) as [d r']. intros H. injection H as _ <-.
    cbn [fst snd length] in *. lia.
Qed.

Lemma match_number_consumes (s : str) (v : value) (r : str) :
  match_number s = Some (v, r) -> length r < length s.
Proof.
  unfold match_number.
  set (p := match s with
            | c :: t => if (c =? 45)%N then (true, t) else (false, s)
            | [] => (false, s)
            end).
  assert (Hp : length (snd p) <= length s).
  { subst p. destruct s as [|c t]; [reflexivity|].
    destruct (c =? 45)%N; cbn [snd length]; lia. }
  destruct p as [neg s1]. cbn [snd] in Hp.
  destruct (match_integer s1) as [[i s2]|] eqn:Ei; [|discriminate].
  apply match_integer_consumes in Ei.
  pose proof (match_frac_length s2) as Hf.
  destruct (match_frac s2) as [frac s3]. cbn [snd] in Hf.
  pose proof (match_exp_length s3) as He.
  destruct (match_exp s3) as [ex s4]. cbn [snd] in He.
  destruct frac, ex; intros H; injection H as _ <-; lia.
Qed.

Lemma strip_prefix_length (p s r : str) :
  strip_prefix p s = Some r -> length s = length p + length r.
Proof.
  revert s; induction p as [|x p IH]; intros s H.
  - injection H as <-. reflexivity.
  - destruct s as [|y s]; [discriminate|]. cbn [strip_prefix] in H.
    destruct (x =? y)%N; [|discriminate]. apply IH in H. cbn [length]. lia.
Qed.

(** Facts about lengths that [lia] can use, from what the context says
    about [skip_ws], [scanstring] and the literals. *)
Ltac length_facts :=
  repeat match goal with
  | H : skip_ws ?t = ?x |- _ =>
      let L := fresh "L" in
      pose proof (skip_ws_length t) as L; rewrite H in L; clear H
  | H : scanstring ?t = Some _ |- _ => apply scanstring_consumes in H
  | H : match_number ?t = Some _ |- _ => apply match_number_consumes in H
  | H : strip_prefix (lit ?p) ?t = Some _ |- _ =>
      apply strip_prefix_length in H;
      let n := eval vm_compute in (length (lit p)) in
      change (length (lit p)) with n in H
  end;
  repeat match goal with
  | H : context [length (skip_ws ?t)] |- _ =>
      let L := fresh "L" in
      let k := fresh "k" in
      pose proof (skip_ws_length t) as L;
      set (k := length (skip_ws t)) in *; clearbody k
  end;
  cbn [length] in *.

Lemma scan_consumes (f : nat) :
  (forall s v r, scan_once f s = Some (v, r) -> length r < length s)
  /\ (forall s vs r, scan_items f s = Some (vs, r) -> length r < length s)
  /\ (forall s ps r, scan_members f s = Some (ps, r) -> length r < length s).
Proof.
  induction f as [|f (IHo & IHi & IHm)]; [repeat split; discriminate|].
  repeat split.
  - intros s v r H. destruct s as [|c t]; [discriminate|]. cbn [scan_once] in H.
    repeat match type of H with
    | Some _ = Some _ => first [injection H as <- <- | injection H as ->]
    | None = Some _ => discriminate H
    | context [match ?u with _ => _ end] => destruct u eqn:?
    end;
    repeat match goal with
    | E : scan_items f _ = Some _ |- _ => apply IHi in E
    | E : scan_members f _ = Some _ |- _ => apply IHm in E
    end; length_facts; lia.
  - intros s vs r H. cbn [scan_items] in H.
    repeat match type of H with
    | Some _ = Some _ => first [injection H as <- <- | injection H as ->]
    | None = Some _ => discriminate H
    | context [match ?u with _ => _ end] => destruct u eqn:?
    end;
    repeat match goal with
    | E : scan_once f _ = Some _ |- _ => apply IHo in E
    | E : scan_items f _ = Some _ |- _ => apply IHi in E
    end; length_facts; lia.
  - intros s ps r H. cbn [scan_members] in H.
    repeat match type of H with
    | Some _ = Some _ => first [injection H as <- <- | injection H as ->]
    | None = Some _ => discriminate H
    | context [match ?u with _ => _ end] => destruct u eqn:?
    end;
    repeat match goal with
    | E : scan_once f _ = Some _ |- _ => apply IHo in E
    | E : scan_members f _ = Some _ |- _ => apply IHm in E
    end; length_facts; lia.
Qed.

Ltac scan_facts F :=
  repeat match goal with
  | E : scan_once F _ = Some _ |- _ => apply (proj1 (scan_consumes F)) in E
  | E : scan_items F _ = Some _ |- _ => apply (proj1 (proj2 (scan_consumes F))) in E
  | E : scan_members F _ = Some _ |- _ => apply (proj2 (proj2 (scan_consumes F))) in E
  end;
  repeat match goal with
  | |- context [length (skip_ws ?t)] =>
      let L := fresh "L" in
      let k := fresh "k" in
      pose proof (skip_ws_length t) as L;
      set (k := length (skip_ws t)) in *; clearbody k
  end;
  length_facts.

(** Both sides run the same tests; where the left one calls with [G] and
    the right one with [F], the hypotheses [Ho], [Hi], [Hm] make the calls
    equal. *)
Ltac scan_step F G Ho Hi Hm :=
  repeat first
    [ reflexivity
    | rewrite Ho by (scan_facts F; lia)
    | rewrite Hi by (scan_facts F; lia)
    | rewrite Hm by (scan_facts F; lia)
    | match goal with
      | |- context [match ?u with _ => _ end] =>
          lazymatch u with
          | scan_once G _ => fail
          | scan_items G _ => fail
          | scan_members G _ => fail
          | _ => destruct u eqn:?
          end
      end ].

Section ScanStep.

Variables F G : nat.
Hypothesis Ho : forall x, 2 * length x + 2 <= F -> scan_once G x = scan_once F x.
Hypothesis Hi : forall x, 2 * length x + 3 <= F -> scan_items G x = scan_items F x.
Hypothesis Hm : forall x, 2 * length x + 3 <= F -> scan_members G x = scan_members F x.

Lemma scan_once_step (s : str) :
  2 * length s + 2 <= S F -> scan_once (S G) s = scan_once (S F) s.
Proof using Ho Hi Hm.
  intros Hs. destruct s as [|c t]; [reflexivity|].
  cbn [scan_once]. cbn [length] in Hs. scan_step F G Ho Hi Hm.
Qed.

Lemma scan_items_step (s : str) :
  2 * length s + 3 <= S F -> scan_items (S G) s = scan_items (S F) s.
Proof using Ho Hi Hm.
  intros Hs. cbn [scan_items]. scan_step F G Ho Hi Hm.
Qed.

Lemma scan_members_step (s : str) :
  2 * length s + 3 <= S F -> scan_members (S G) s = scan_members (S F) s.
Proof using Ho Hi Hm.
  intros Hs. cbn [scan_members]. scan_step F G Ho Hi Hm.
Qed.

End ScanStep.

Lemma scan_stable (F : nat) :
  (forall s, 2 * length s + 2 <= F -> scan_once (S F) s = scan_once F s)
  /\ (forall s, 2 * length s + 3 <= F -> scan_items (S F) s = scan_items F s)
  /\ (forall s, 2 * length s + 3 <= F -> scan_members (S F) s = scan_members F s).
Proof.
  induction F as [|F (IHo & IHi & IHm)]; [repeat split; intros; lia|].
  repeat split; intros s Hs.
  - now apply scan_once_step.
  - now apply scan_items_step.
  - now apply scan_members_step.
Qed.

Lemma scan_once_fuel (k F : nat) (s : str) :
  2 * length s + 2 <= F -> scan_once (F + k) s = scan_once F s.
Proof.
  intros H. induction k as [|k IH]; [now rewrite Nat.add_0_r|].
  rewrite Nat.add_succ_r, (proj1 (scan_stable (F + k))) by lia. exact IH.
Qed.

(** More calls than [json_loads] allows change nothing: the bound of the
    model is never what makes the answer [None]. *)
Lemma decode_fuel (s : str) (k : nat) :
  decode (2 * length s + 2 + k) s = json_loads s.
Proof.
  unfold json_loads, decode. destruct s as [|c t]; [now rewrite scan_once_fuel|].
  rewrite scan_once_fuel; [reflexivity|].
  pose proof (skip_ws_length (c :: t)). lia.
Qed.

(** ** The symbol clean-up on text without a garbled symbol *)

Lemma escaped_chars (s : str) (c : char) :
  forallb (fun c => (32 <=? c)%N && negb (c =? backslash)%N) s = true ->
  In c (flat_map escape_char s) -> (c < 128)%N \/ In c s.
Proof.
  induction s as [|x s IH]; intros Hs Hin; [contradiction|].
  cbn [forallb] in Hs. apply andb_true_iff in Hs as [Hx Hs].
  apply andb_true_iff in Hx as [H1 H2]. apply negb_true_iff, N.eqb_neq in H2.
  cbn [flat_map] in Hin. apply in_app_iff in Hin as [Hin|Hin].
  - destruct (N.eqb_spec x dq) as [->|Hq].
    + left. rewrite escape_char_quote in Hin.
      destruct Hin as [<-|[<-|[]]]; reflexivity.
    + rewrite (escape_char_plain x H1 H2 Hq) in Hin.
      destruct Hin as [<-|[]]. right. now left.
  - destruct (IH Hs Hin) as [H|H]; [now left|]. right. now right.
Qed.

Lemma basestring_chars (s : str) (c : char) :
  clean_str s = true -> In c (encode_basestring s) -> (c < 128)%N \/ In c s.
Proof.
  intros Hs Hin. unfold encode_basestring in Hin.
  destruct Hin as [<-|Hin]; [now left|].
  apply in_app_iff in Hin as [Hin|[<-|[]]]; [|now left].
  now apply escaped_chars; [apply clean_str_chars|].
Qed.

Lemma newline_indent_chars (level : nat) (c : char) :
  In c (newline_indent level) -> (c < 128)%N.
Proof.
  unfold newline_indent, spaces. intros [<-|Hin]; [reflexivity|].
  apply repeat_spec in Hin. now subst.
Qed.

Lemma iterencode_chars (float_repr : str -> str) (v : value) :
  clean_value v = true ->
  forall level c,
  In c (iterencode float_repr level v) ->
  (c < 128)%N \/ exists s, In s (strings_of v) /\ In c s.
Proof.
  induction v as [| b | z | x | s | items IH | pairs IH] using value_induction;
    try discriminate; intros HC level c Hin.
  - destruct (basestring_chars s c HC Hin) as [H|H]; [now left|].
    right. exists s. split; [now left|assumption].
  - destruct items as [|x xs].
    + left. destruct Hin as [<-|[<-|[]]]; reflexivity.
    + rewrite iterencode_list in Hin. cbn [clean_value] in HC.
      assert (G : forall l, Forall (fun v => clean_value v = true ->
                    forall level c, In c (iterencode float_repr level v) ->
                    (c < 128)%N \/ exists s, In s (strings_of v) /\ In c s) l ->
                  forallb clean_value l = true ->
                  In c (flat_map (fun y => lit "," ++ newline_indent (S level)
                                           ++ iterencode float_repr (S level) y) l) ->
                  (c < 128)%N \/ exists s, In s (flat_map strings_of l) /\ In c s).
      { clear. induction 1 as [|y l Hy _ IHl]; intros Hl Hc; [contradiction|].
        cbn [forallb] in Hl. apply andb_true_iff in Hl as [Hy' Hl].
        cbn [flat_map] in Hc. rewrite !in_app_iff in Hc.
        destruct Hc as [[Hc|[Hc|Hc]]|Hc].
        - left. destruct Hc as [<-|[]]. reflexivity.
        - left. now apply newline_indent_chars in Hc.
        - destruct (Hy Hy' _ _ Hc) as [H|(s & Hs & H)]; [now left|].
          right. exists s. split; [|assumption]. cbn [flat_map].
          rewrite in_app_iff. now left.
        - destruct (IHl Hl Hc) as [H|(s & Hs & H)]; [now left|].
          right. exists s. split; [|assumption]. cbn [flat_map].
          rewrite in_app_iff. now right. }
      specialize (G (x :: xs) IH HC).
      rewrite !in_app_iff in Hin.
      destruct Hin as [Hin|[Hin|[Hin|[Hin|[Hin|Hin]]]]].
      * left. destruct Hin as [<-|[]]. reflexivity.
      * left. now apply newline_indent_chars in Hin.
      * apply G. cbn [flat_map]. rewrite !in_app_iff. left. right. now right.
      * apply G. cbn [flat_map]. rewrite !in_app_iff. now right.
      * left. now apply newline_indent_chars in Hin.
      * left. destruct Hin as [<-|[]]. reflexivity.
  - destruct pairs as [|[k x] ps].
    + left. destruct Hin as [<-|[<-|[]]]; reflexivity.
    + rewrite iterencode_dict in Hin. cbn [clean_value] in HC.
      apply andb_true_iff in HC as [_ HC].
      assert (G : forall l, Forall (fun kx => clean_value (snd kx) = true ->
                    forall level c, In c (iterencode float_repr level (snd kx)) ->
                    (c < 128)%N \/ exists s, In s (strings_of (snd kx)) /\ In c s) l ->
                  forallb (fun kx => clean_str (fst kx) && clean_value (snd kx)) l = true ->
                  In c (flat_map (fun ky => lit "," ++ newline_indent (S level)
                                   ++ encode_basestring (fst ky) ++ lit ": "
                                   ++ iterencode float_repr (S level) (snd ky)) l) ->
                  (c < 128)%N
                  \/ exists s, In s (flat_map (fun kx => fst kx :: strings_of (snd kx)) l)
                               /\ In c s).
      { clear. induction 1 as [|[k y] l Hy _ IHl]; intros Hl Hc; [contradiction|].
        cbn [forallb fst snd] in Hl. apply andb_true_iff in Hl as [Hy' Hl].
        apply andb_true_iff in Hy' as [Hk Hy'].
        cbn [flat_map fst snd] in Hc |- *. rewrite !in_app_iff in Hc.
        destruct Hc as [[Hc|[Hc|[Hc|[Hc|Hc]]]]|Hc].
        - left. destruct Hc as [<-|[]]. reflexivity.
        - left. now apply newline_indent_chars in Hc.
        - destruct (basestring_chars k c Hk Hc) as [H|H]; [now left|].
          right. exists k. split; [now left|assumption].
        - left. destruct Hc as [<-|[<-|[]]]; reflexivity.
        - destruct (Hy Hy' _ _ Hc) as [H|(s & Hs & H)]; [now left|].
          right. exists s. split; [|assumption]. right.
          rewrite in_app_iff. now left.
        - destruct (IHl Hl Hc) as [H|(s & Hs & H)]; [now left|].
          right. exists s. split; [|assumption]. right.
          rewrite in_app_iff. now right. }
      specialize (G ((k, x) :: ps) IH HC).
      rewrite !in_app_iff in Hin.
      destruct Hin as [Hin|[Hin|[Hin|[Hin|[Hin|[Hin|[Hin|Hin]]]]]]].
      * left. destruct Hin as [<-|[]]. reflexivity.
      * left. now apply newline_indent_chars in Hin.
      * apply G. cbn [flat_map fst snd]. rewrite !in_app_iff. left. right. right. now left.
      * left. destruct Hin as [<-|[<-|[]]]; reflexivity.
      * apply G. cbn [flat_map fst snd]. rewrite !in_app_iff. left. do 4 right. exact Hin.
      * apply G. cbn [flat_map fst snd]. rewrite !in_app_iff. now right.
      * left. now apply newline_indent_chars in Hin.
      * left. destruct Hin as [<-|[]]. reflexivity.
Qed.

Lemma re_sub_absent (c : char) (p repl t : str) :
  ~ In c t -> ~ In backslash repl -> re_sub (r_lit (c :: p)) 0 repl t = Some t.
Proof.
  intros Hc Hr. rewrite (re_sub_plain _ _ _ _ Hr).
  rewrite finditer_all_gaps.
  - f_equal. induction t as [|x t IH]; [reflexivity|]. cbn [map flat_map app].
    f_equal. apply IH. intros H. apply Hc. now right.
  - intros u [|x v] ->; [reflexivity|].
    apply r_lit_head_ne. intros ->. apply Hc. rewrite in_app_iff. right. now left.
Qed.

Lemma fix_symbols_nothing (t : str) :
  ~ In 226%N t -> ~ In 240%N t -> fix_symbols t = Some t.
Proof.
  intros H1 H2. unfold fix_symbols, garbled_rupee, garbled_star, garbled_phone.
  rewrite (re_sub_absent 226%N _ rupee t H1) by (cbv; intuition discriminate).
  cbn [and_then].
  rewrite (re_sub_absent 226%N _ star t H1) by (cbv; intuition discriminate).
  cbn [and_then].
  apply (re_sub_absent 240%N _ phone t H2). cbv; intuition discriminate.
Qed.

(** X2. The clean-up of the symbols leaves the text of a clean value
    alone when none of its strings holds U+00E2 or U+00F0, with which the
    garbled symbols start. *)
Lemma fix_symbols_dumps (float_repr : str -> str) (v : value) :
  clean_value v = true ->
  forallb no_garbled_start (strings_of v) = true ->
  fix_symbols (json_dumps float_repr v) = Some (json_dumps float_repr v).
Proof.
  intros HC HG.
  assert (H : forall c, (c = 226 \/ c = 240)%N -> ~ In c (json_dumps float_repr v)).
  { intros c Hc Hin.
    destruct (iterencode_chars float_repr v HC 0 c Hin) as [Hlt|(s & Hs & Hcs)].
    - destruct Hc as [-> | ->]; discriminate.
    - rewrite forallb_forall in HG. specialize (HG s Hs).
      unfold no_garbled_start in HG. apply negb_true_iff in HG.
      assert (existsb (fun c => (c =? 226)%N || (c =? 240)%N) s = true); [|congruence].
      apply existsb_exists. exists c. split; [assumption|].
      destruct Hc as [-> | ->]; reflexivity. }
  apply fix_symbols_nothing; apply H; auto.
Qed.

(** The entries of the forms are clean when their fields are. *)
Lemma paddy_entry_clean (paddy_name paddy_price : str) :
  clean_str paddy_name = true -> clean_str paddy_price = true ->
  clean_value (paddy_entry paddy_name paddy_price) = true.
Proof.
  intros H1 H2. unfold paddy_entry. cbn [clean_value forallb fst snd map].
  rewrite H1, H2. reflexivity.
Qed.

(** X4. A record of the forms is a clean value when its fields are
    clean strings. *)
Lemma dealer_record_clean (name contact rating : str) (regions : list str)
      (paddy_types : list value) :
  clean_str name = true -> clean_str contact = true -> clean_str rating = true ->
  forallb clean_str regions = true -> forallb clean_value paddy_types = true ->
  clean_value (dealer_record name contact rating regions paddy_types) = true.
Proof.
  intros H1 H2 H3 H4 H5. unfold dealer_record. cbn [clean_value forallb fst snd map].
  rewrite H1, H2, H3, H5.
  assert (E : forallb clean_value (map VStr regions) = true).
  { clear - H4. induction regions as [|r l IH]; [reflexivity|].
    cbn [forallb map clean_value] in *. apply andb_true_iff in H4 as [-> H4]. now apply IH. }
  rewrite E. reflexivity.
Qed.

(** ** The selection pattern *)

Lemma select_match_some (s : str) (g : caps) (s' : str) :
  match_at select_pattern s = Some (g, s') ->
  exists m, s = m ++ s' /\ m <> [] /\ (is_select_block m /\ g = None).
Proof.
  unfold match_at, select_pattern, r_seq. intros H.
  apply r_lit_some in H as (s1 & -> & H).
  apply r_star_lazy_some in H as (body & s3 & -> & H).
  apply r_lit_some in H as (s4 & -> & H).
  injection H as <- <-.
  exists (select_block_of body). unfold select_block_of, select_open. repeat split.
  - now rewrite <- !app_assoc.
  - discriminate.
  - now exists body.
Qed.

Lemma select_match_complete (body post : str) :
  match_at select_pattern (select_block_of body ++ post) <> None.
Proof.
  unfold match_at, select_pattern, select_block_of, select_open, r_seq.
  rewrite <- !app_assoc, !r_lit_app.
  apply r_star_lazy_complete. now rewrite !r_lit_app.
Qed.

Lemma no_select_no_hit (html : str) :
  ~ has_select_block html ->
  forall m g, ~ In (Hit m g) (finditer select_pattern 0 html).
Proof.
  intros Hno m g Hin.
  destruct (finditer_hits _ _ select_match_some _ _ _ _ Hin) as [[(body & ->) _] _].
  apply hit_in_source in Hin as (pre & post & E).
  rewrite (finditer_source _ _ select_match_some) in E by lia. simpl in E.
  apply Hno. now exists pre, body, post.
Qed.

(** X5. On a document that holds no selection block
    [<select class="area-select" id="areaSelect">...</select>],
    [update_regions_in_html] returns the document as it was, whatever the
    regions. *)
Theorem update_regions_without_select (html : str) (regions : list str) :
  ~ has_select_block html ->
  fst (update_regions_in_html html regions) = html.
Proof.
  intros Hno. unfold update_regions_in_html, re_sub.
  destruct (parse_template 0 TNormal _) as [t|]; [|reflexivity]. cbn [fst].
  rewrite substitute_no_hit by now apply no_select_no_hit.
  now rewrite (finditer_source _ _ select_match_some) by lia.
Qed.

(** ** What [extract_dealers_data] returns is a list *)

Lemma first_hit_in (ps : list piece) (w : str) (g : caps) :
  first_hit ps = Some (w, g) -> In (Hit w g) ps.
Proof.
  induction ps as [|[c|m g'] ps IH]; simpl; intros H.
  - discriminate.
  - right. now apply IH.
  - left. congruence.
Qed.

Lemma re_sub_head (r : regex) (n : nat) (repl : str) (c : char) (t out : str) :
  match_at r (c :: t) = None ->
  re_sub r n repl (c :: t) = Some out -> exists out', out = c :: out'.
Proof.
  unfold re_sub. intros Hm H.
  destruct (parse_template n TNormal repl) as [tp|]; [|discriminate].
  rewrite finditer_gap in H by assumption.
  injection H as <-. now eexists.
Qed.

Lemma clean_up_bracket (t out : str) :
  clean_up (91%N :: t) = Some out -> exists out', out = 91%N :: out'.
Proof.
  unfold clean_up, quote_keys, fix_symbols, and_then. intros H.
  destruct (re_sub key_pattern 1 key_template (91%N :: t)) as [s1|] eqn:E1; [|discriminate].
  apply re_sub_head in E1 as (t1 & ->); [|reflexivity].
  destruct (re_sub (r_lit garbled_rupee) 0 rupee (91%N :: t1)) as [s2|] eqn:E2; [|discriminate].
  apply re_sub_head in E2 as (t2 & ->); [|reflexivity].
  destruct (re_sub (r_lit garbled_star) 0 star (91%N :: t2)) as [s3|] eqn:E3; [|discriminate].
  apply re_sub_head in E3 as (t3 & ->); [|reflexivity].
  apply re_sub_head in H; [assumption|reflexivity].
Qed.

Lemma json_loads_bracket (t : str) (v : value) :
  json_loads (91%N :: t) = Some v -> exists items, v = VList items.
Proof.
  unfold json_loads.
  match goal with |- context [decode ?f _] => generalize f end. intros fuel.
  change (decode fuel (91%N :: t))
    with (match scan_once fuel (91%N :: t) with
          | Some (v, r) => match skip_ws r with [] => Some v | _ :: _ => None end
          | None => None
          end).
  destruct fuel as [|fuel]; [cbn [scan_once]; discriminate|].
  change (scan_once (S fuel) (91%N :: t))
    with (match skip_ws t with
          | c1 :: t1 =>
              if (c1 =? 93)%N then Some (VList [], t1)
              else match scan_items fuel (c1 :: t1) with
                   | Some (vs, r) => Some (VList vs, r)
                   | None => None
                   end
          | [] => None
          end).
  destruct (skip_ws t) as [|c1 t1]; [discriminate|].
  destruct (c1 =? 93)%N.
  - destruct (skip_ws t1); intros H; [|discriminate]. injection H as <-. now eexists.
  - destruct (scan_items fuel (c1 :: t1)) as [[vs r]|]; [|discriminate].
    destruct (skip_ws r); intros H; [|discriminate]. injection H as <-. now eexists.
Qed.

(** X7. Whatever the document, what [extract_dealers_data] returns is a
    list: the empty list when no statement is found or the array does not
    parse, and otherwise what [json.loads] read from a text that starts
    with a bracket. *)
Theorem extract_dealers_is_list (html : str) :
  exists items, fst (extract_dealers_data html) = VList items.
Proof.
  unfold extract_dealers_data, re_search.
  destruct (first_hit (finditer array_pattern 0 html)) as [[w g]|] eqn:E;
    [|now exists []].
  apply first_hit_in in E.
  destruct (finditer_hits _ _ array_match_some _ _ _ _ E) as [(body & _ & ->) _].
  cbn [group1].
  destruct (and_then (clean_up (lit "[" ++ body ++ lit "]")) json_loads) as [v|] eqn:Ev;
    [|now exists []].
  cbn [fst]. unfold and_then in Ev.
  destruct (clean_up (lit "[" ++ body ++ lit "]")) as [out|] eqn:Ec; [|discriminate].
  apply clean_up_bracket in Ec as (out' & ->).
  now apply json_loads_bracket in Ev.
Qed.

(** ** Base64 *)

(** [lia] with the equations of Euclidean division. *)
Ltac div_lia :=
  try clear unicode_alnum;
  zify; Z.to_euclidean_division_equations; lia.

Lemma sextet_in (i : N) : (i < 64)%N -> In i sextets.
Proof.
  intros H. unfold sextets. apply in_map_iff. exists (N.to_nat i). split.
  - apply N2Nat.id.
  - apply in_seq. lia.
Qed.

Lemma b64_val_char (i : N) :
  (i < 64)%N ->
  b64_val (b64_char i) = Some i
  /\ (b64_char i =? pad)%N = false /\ (b64_char i <? 128)%N = true.
Proof.
  intros H. apply sextet_in in H.
  assert (T : forallb (fun i => match b64_val (b64_char i) with
                                | Some j => (j =? i)%N
                                | None => false
                                end
                                && negb (b64_char i =? pad)%N && (b64_char i <? 128)%N)
                      sextets = true) by (vm_compute; reflexivity).
  rewrite forallb_forall in T. specialize (T i H).
  apply andb_true_iff in T as [T T3]. apply andb_true_iff in T as [T1 T2].
  destruct (b64_val (b64_char i)) as [j|]; [|discriminate].
  apply N.eqb_eq in T1 as ->. apply negb_true_iff in T2. now repeat split.
Qed.

(** One character of the alphabet, read by the loop. *)
Lemma a2b_char (i : N) (q : nat) (l : N) (p : nat) (t : str) :
  (i < 64)%N ->
  a2b_base64 q l p (b64_char i :: t)
  = match q with
    | 0 => a2b_base64 1 i 0 t
    | 1 => emit (l * 4 + i / 16)%N (a2b_base64 2 (i mod 16)%N 0 t)
    | 2 => emit (l * 16 + i / 4)%N (a2b_base64 3 (i mod 4)%N 0 t)
    | _ => emit (l * 64 + i)%N (a2b_base64 0 0%N 0 t)
    end.
Proof.
  intros H. destruct (b64_val_char i H) as (Hv & Hp & _).
  cbn [a2b_base64]. now rewrite Hp, Hv.
Qed.

Lemma sextet_bounds (x y z : N) :
  (x < 256)%N -> (y < 256)%N -> (z < 256)%N ->
  (x / 4 < 64 /\ x mod 4 * 16 + y / 16 < 64 /\ y mod 16 * 4 + z / 64 < 64 /\ z mod 64 < 64)%N.
Proof.
  intros Hx Hy Hz. div_lia.
Qed.

Lemma sextet_join (x y z : N) :
  (x < 256)%N -> (y < 256)%N -> (z < 256)%N ->
  (x / 4 * 4 + (x mod 4 * 16 + y / 16) / 16 = x
   /\ (x mod 4 * 16 + y / 16) mod 16 * 16 + (y mod 16 * 4 + z / 64) / 4 = y
   /\ (y mod 16 * 4 + z / 64) mod 4 * 64 + z mod 64 = z)%N.
Proof.
  intros Hx Hy Hz. repeat split; div_lia.
Qed.

Lemma a2b_group (x y z : N) (t : str) :
  (x < 256)%N -> (y < 256)%N -> (z < 256)%N ->
  a2b_base64 0 0%N 0
    (b64_char (x / 4) :: b64_char (x mod 4 * 16 + y / 16)
     :: b64_char (y mod 16 * 4 + z / 64) :: b64_char (z mod 64) :: t)
  = emit x (emit y (emit z (a2b_base64 0 0%N 0 t))).
Proof.
  intros Hx Hy Hz. destruct (sextet_bounds x y z Hx Hy Hz) as (H1 & H2 & H3 & H4).
  destruct (sextet_join x y z Hx Hy Hz) as (E1 & E2 & E3).
  rewrite !a2b_char by assumption. now rewrite E1, E2, E3.
Qed.

Lemma a2b_last_two (x y : N) (t : str) :
  (x < 256)%N -> (y < 256)%N ->
  a2b_base64 0 0%N 0
    (b64_char (x / 4) :: b64_char (x mod 4 * 16 + y / 16)
     :: b64_char (y mod 16 * 4) :: pad :: t)
  = Some [x; y].
Proof.
  intros Hx Hy.
  destruct (sextet_bounds x y 0 Hx Hy) as (H1 & H2 & H3 & _); [reflexivity|].
  destruct (sextet_join x y 0 Hx Hy) as (E1 & E2 & _); [reflexivity|].
  change (0 / 64)%N with 0%N in *. rewrite N.add_0_r in *.
  rewrite !a2b_char by assumption. rewrite E1, E2. reflexivity.
Qed.

Lemma a2b_last_one (x : N) (t : str) :
  (x < 256)%N ->
  a2b_base64 0 0%N 0 (b64_char (x / 4) :: b64_char (x mod 4 * 16) :: pad :: pad :: t)
  = Some [x].
Proof.
  intros Hx.
  destruct (sextet_bounds x 0 0 Hx) as (H1 & H2 & _); [reflexivity|reflexivity|].
  destruct (sextet_join x 0 0 Hx) as (E1 & _); [reflexivity|reflexivity|].
  change (0 / 16)%N with 0%N in *. rewrite N.add_0_r in *.
  rewrite !a2b_char by assumption. rewrite E1. reflexivity.
Qed.

Lemma a2b_b64encode (n : nat) :
  forall b, length b <= n -> Forall (fun x => (x < 256)%N) b ->
  a2b_base64 0 0%N 0 (b64encode b) = Some b.
Proof.
  induction n as [|n IH]; intros b Hn Hb.
  - destruct b; [reflexivity|simpl in Hn; lia].
  - destruct b as [|x [|y [|z t]]].
    + reflexivity.
    + inversion Hb; subst. now apply a2b_last_one.
    + inversion Hb as [|? ? Hx Hb']; subst. inversion Hb'; subst.
      now apply a2b_last_two.
    + inversion Hb as [|? ? Hx Hb1]; subst. inversion Hb1 as [|? ? Hy Hb2]; subst.
      inversion Hb2 as [|? ? Hz Hb3]; subst.
      change (b64encode (x :: y :: z :: t))
        with (b64_char (x / 4) :: b64_char (x mod 4 * 16 + y / 16)
              :: b64_char (y mod 16 * 4 + z / 64) :: b64_char (z mod 64) :: b64encode t).
      rewrite a2b_group by assumption.
      rewrite IH; [reflexivity| |assumption]. simpl in Hn. lia.
Qed.

(** The loop skips what is neither in the alphabet nor a pad. *)
Lemma a2b_skips (s : str) :
  forall q l p, a2b_base64 q l p (filter b64_kept s) = a2b_base64 q l p s.
Proof.
  induction s as [|c t IH]; intros q l p; [reflexivity|].
  cbn [filter]. unfold b64_kept at 1.
  destruct (c =? pad)%N eqn:Ep.
  - cbn [orb a2b_base64]. rewrite Ep.
    destruct (Nat.leb 2 q); [destruct (Nat.leb 4 (q + S p))|]; auto.
  - cbn [orb]. destruct (b64_val c) as [v|] eqn:Ev.
    + cbn [a2b_base64]. rewrite Ep, Ev.
      destruct q as [|[|[|q]]]; now rewrite IH.
    + cbn [a2b_base64]. rewrite Ep, Ev. apply IH.
Qed.

Lemma b64_char_ascii (i : N) : (i < 64)%N -> (b64_char i <? 128)%N = true.
Proof. intros H. apply (b64_val_char i H). Qed.

Lemma b64encode_ascii (n : nat) :
  forall b, length b <= n -> Forall (fun x => (x < 256)%N) b ->
  forallb (fun c => (c <? 128)%N) (b64encode b) = true.
Proof.
  induction n as [|n IH]; intros b Hn Hb.
  - destruct b; [reflexivity|simpl in Hn; lia].
  - destruct b as [|x [|y [|z t]]].
    + reflexivity.
    + inversion Hb as [|? ? Hx _]; subst.
      destruct (sextet_bounds x 0 0) as (B1 & B2 & _); [assumption|reflexivity|reflexivity|].
      change (0 / 16)%N with 0%N in B2. rewrite N.add_0_r in B2.
      cbn [b64encode forallb].
      now rewrite (b64_char_ascii _ B1), (b64_char_ascii _ B2).
    + inversion Hb as [|? ? Hx Hb']; subst. inversion Hb' as [|? ? Hy _]; subst.
      destruct (sextet_bounds x y 0) as (B1 & B2 & B3 & _);
        [assumption|assumption|reflexivity|].
      change (0 / 64)%N with 0%N in B3. rewrite N.add_0_r in B3.
      cbn [b64encode forallb].
      now rewrite (b64_char_ascii _ B1), (b64_char_ascii _ B2), (b64_char_ascii _ B3).
    + inversion Hb as [|? ? Hx Hb1]; subst. inversion Hb1 as [|? ? Hy Hb2]; subst.
      inversion Hb2 as [|? ? Hz Hb3]; subst.
      destruct (sextet_bounds x y z Hx Hy Hz) as (B1 & B2 & B3 & B4).
      change (b64encode (x :: y :: z :: t))
        with (b64_char (x / 4) :: b64_char (x mod 4 * 16 + y / 16)
              :: b64_char (y mod 16 * 4 + z / 64) :: b64_char (z mod 64) :: b64encode t).
      cbn [forallb].
      rewrite (b64_char_ascii _ B1), (b64_char_ascii _ B2), (b64_char_ascii _ B3),
        (b64_char_ascii _ B4).
      apply IH; [simpl in Hn; lia|assumption].
Qed.

(** [b64decode] reads back what [b64encode] wrote, also when
    characters outside the alphabet that are ASCII (line breaks, spaces)
    have been put into the text. *)
Theorem b64decode_b64encode (b : bytes) (text : str) :
  Forall (fun x => (x < 256)%N) b ->
  forallb (fun c => (c <? 128)%N) text = true ->
  filter b64_kept text = b64encode b ->
  b64decode text = Some b.
Proof.
  intros Hb Ha Hf. unfold b64decode. rewrite Ha, <- a2b_skips, Hf.
  now apply (a2b_b64encode (length b)).
Qed.

(** ** UTF-8 *)

Lemma utf8_encode_char_some (c : char) :
  is_scalar c = true -> exists a, utf8_encode_char c = Some a.
Proof.
  unfold is_scalar, utf8_encode_char. intros H.
  apply andb_true_iff in H as [H1 H2]. apply negb_true_iff in H2.
  rewrite H1, H2. repeat destruct (_ <? _)%N; now eexists.
Qed.

Lemma utf8_encode_char_scalar (c : char) (a : bytes) :
  utf8_encode_char c = Some a -> is_scalar c = true.
Proof.
  unfold is_scalar, utf8_encode_char, in_range.
  destruct (c <? 128)%N eqn:E1; [intros _; apply andb_true_iff; split;
    [apply N.ltb_lt; apply N.ltb_lt in E1; lia
    |apply negb_true_iff, andb_false_iff; left; apply N.leb_gt; apply N.ltb_lt in E1; lia]|].
  destruct (c <? 2048)%N eqn:E2; [intros _; apply andb_true_iff; split;
    [apply N.ltb_lt; apply N.ltb_lt in E2; lia
    |apply negb_true_iff, andb_false_iff; left; apply N.leb_gt; apply N.ltb_lt in E2; lia]|].
  destruct (c <? 65536)%N eqn:E3.
  - destruct ((55296 <=? c)%N && (c <=? 57343)%N) eqn:E4; [discriminate|].
    intros _. apply andb_true_iff. split; [|reflexivity].
    apply N.ltb_lt. apply N.ltb_lt in E3. lia.
  - destruct (c <? 1114112)%N eqn:E4; [|discriminate].
    intros _. apply andb_true_iff. split; [reflexivity|].
    apply negb_true_iff, andb_false_iff. right. apply N.leb_gt. apply N.ltb_ge in E3. lia.
Qed.

(** The tests of the decoder on the bytes of one character. *)
Ltac settle_test :=
  match goal with
  | |- context [if ?b then _ else _] =>
      first
        [ replace b with true
            by (symmetry; unfold is_cont, in_range;
                rewrite ?andb_true_iff, ?N.leb_le, ?N.ltb_lt, ?N.eqb_eq; div_lia)
        | replace b with false
            by (symmetry; unfold is_cont, in_range;
                rewrite ?andb_false_iff, ?N.leb_gt, ?N.ltb_ge, ?N.eqb_neq; div_lia) ]
  end.

Lemma utf8_decode_char (c : char) (a : bytes) (rest : bytes) :
  utf8_encode_char c = Some a ->
  utf8_decode (a ++ rest) = add_code c (utf8_decode rest).
Proof.
  unfold utf8_encode_char, in_range.
  destruct (c <? 128)%N eqn:E1.
  { intros H. assert (Ha : a = [c]) by congruence. rewrite Ha.
    cbn [app utf8_decode]. now rewrite E1. }
  apply N.ltb_ge in E1.
  destruct (c <? 2048)%N eqn:E2.
  { apply N.ltb_lt in E2. intros H.
    remember (192 + c / 64)%N as b0 eqn:E0. remember (128 + c mod 64)%N as b1 eqn:Eb1.
    assert (Ha : a = [b0; b1]) by congruence. rewrite Ha.
    cbn [app utf8_decode]. repeat settle_test. cbv iota. f_equal.
    unfold cont_val. div_lia. }
  apply N.ltb_ge in E2.
  destruct (c <? 65536)%N eqn:E3.
  { apply N.ltb_lt in E3.
    destruct ((55296 <=? c)%N && (c <=? 57343)%N) eqn:E4; [discriminate|].
    apply andb_false_iff in E4. rewrite N.leb_gt, N.leb_gt in E4.
    intros H.
    remember (224 + c / 4096)%N as b0 eqn:E0.
    remember (128 + (c / 64) mod 64)%N as b1 eqn:Eb1.
    remember (128 + c mod 64)%N as b2 eqn:Eb2.
    assert (Ha : a = [b0; b1; b2]) by congruence. rewrite Ha.
    cbn [app utf8_decode].
    destruct (N.eqb_spec b0 224) as [Ea|Ea]; destruct (N.eqb_spec b0 237) as [Eb|Eb];
      repeat (cbv iota; settle_test); cbv iota; f_equal; unfold cont_val; div_lia. }
  apply N.ltb_ge in E3.
  destruct (c <? 1114112)%N eqn:E4; [|discriminate].
  apply N.ltb_lt in E4. intros H.
  remember (240 + c / 262144)%N as b0 eqn:E0.
  remember (128 + (c / 4096) mod 64)%N as b1 eqn:Eb1.
  remember (128 + (c / 64) mod 64)%N as b2 eqn:Eb2.
  remember (128 + c mod 64)%N as b3 eqn:Eb3.
  assert (Ha : a = [b0; b1; b2; b3]) by congruence. rewrite Ha.
  cbn [app utf8_decode].
  destruct (N.eqb_spec b0 240) as [Ea|Ea]; destruct (N.eqb_spec b0 244) as [Eb|Eb];
    repeat (cbv iota; settle_test); cbv iota; f_equal; unfold cont_val; div_lia.
Qed.

Lemma utf8_decode_encode (s : str) :
  forall b, utf8_encode s = Some b -> utf8_decode b = Some s.
Proof.
  induction s as [|c t IH]; intros b H.
  - injection H as <-. reflexivity.
  - cbn [utf8_encode] in H.
    destruct (utf8_encode_char c) as [a|] eqn:Ec; [|discriminate].
    destruct (utf8_encode t) as [b'|]; [|discriminate].
    injection H as <-. rewrite (utf8_decode_char _ _ _ Ec), (IH _ eq_refl). reflexivity.
Qed.

Lemma utf8_encode_char_bytes (c : char) (a : bytes) :
  utf8_encode_char c = Some a -> Forall (fun x => (x < 256)%N) a.
Proof.
  unfold utf8_encode_char, in_range.
  destruct (c <? 128)%N eqn:E1.
  { apply N.ltb_lt in E1. intros H. assert (Ha : a = [c]) by congruence. rewrite Ha.
    repeat (apply Forall_cons; [div_lia|]). apply Forall_nil. }
  destruct (c <? 2048)%N eqn:E2.
  { apply N.ltb_lt in E2. intros H.
    assert (Ha : a = [192 + c / 64; 128 + c mod 64]%N) by congruence. rewrite Ha.
    repeat (apply Forall_cons; [div_lia|]). apply Forall_nil. }
  destruct (c <? 65536)%N eqn:E3.
  { apply N.ltb_lt in E3. destruct (_ && _); [discriminate|]. intros H.
    assert (Ha : a = [224 + c / 4096; 128 + (c / 64) mod 64; 128 + c mod 64]%N)
      by congruence.
    rewrite Ha. repeat (apply Forall_cons; [div_lia|]). apply Forall_nil. }
  destruct (c <? 1114112)%N eqn:E4; [|discriminate].
  apply N.ltb_lt in E4. intros H.
  assert (Ha : a = [240 + c / 262144; 128 + (c / 4096) mod 64;
                    128 + (c / 64) mod 64; 128 + c mod 64]%N) by congruence.
  rewrite Ha. repeat (apply Forall_cons; [div_lia|]). apply Forall_nil.
Qed.

Lemma utf8_encode_bytes (s : str) :
  forall b, utf8_encode s = Some b -> Forall (fun x => (x < 256)%N) b.
Proof.
  induction s as [|c t IH]; intros b H.
  - injection H as <-. constructor.
  - cbn [utf8_encode] in H.
    destruct (utf8_encode_char c) as [a|] eqn:Ec; [|discriminate].
    destruct (utf8_encode t) as [b'|]; [|discriminate].
    injection H as <-. apply Forall_app. split.
    + now apply (utf8_encode_char_bytes c).
    + now apply IH.
Qed.

Lemma utf8_encode_scalar (s : str) :
  (exists b, utf8_encode s = Some b) <-> forallb is_scalar s = true.
Proof.
  induction s as [|c t IH]; cbn [utf8_encode forallb].
  - split; [reflexivity|now eexists].
  - split.
    + intros (b & H).
      destruct (utf8_encode_char c) as [a|] eqn:Ec; [|discriminate].
      destruct (utf8_encode t) as [b'|]; [|discriminate].
      rewrite (utf8_encode_char_scalar _ _ Ec). apply IH. now eexists.
    + intros H. apply andb_true_iff in H as [Hc Ht].
      destruct (utf8_encode_char_some c Hc) as (a & ->).
      apply IH in Ht as (b' & ->). now eexists.
Qed.

(** ** [GitHubManager]: what is sent comes back *)

Lemma get_file_decodes (content text : str) (raw : bytes) (body sha1 : value) :
  utf8_encode content = Some raw ->
  getitem body (lit "content") = Some (VStr text) ->
  forallb (fun c => (c <? 128)%N) text = true ->
  filter b64_kept text = b64encode raw ->
  getitem body (lit "sha") = Some sha1 ->
  get_file (Some body) = (Some (content, sha1), []).
Proof.
  intros Er Hc Ha Hf Hs. unfold get_file, and_then. rewrite Hc.
  rewrite (b64decode_b64encode raw text (utf8_encode_bytes _ _ Er) Ha Hf).
  rewrite (utf8_decode_encode _ _ Er), Hs. reflexivity.
Qed.

Lemma update_request_content
      (branch content commit_message sent : str) (sha0 : value)
      (data : list (str * value)) :
  update_request branch content sha0 commit_message = Some data ->
  dict_get data (lit "content") = Some (VStr sent) ->
  exists raw, utf8_encode content = Some raw /\ sent = b64encode raw.
Proof.
  unfold update_request, and_then. intros Hreq Hsent.
  destruct (utf8_encode content) as [raw|] eqn:Er; [|discriminate].
  exists raw. split; [reflexivity|].
  assert (Ed : data = [(lit "message", VStr commit_message);
                       (lit "content", VStr (b64encode raw));
                       (lit "sha", sha0);
                       (lit "branch", VStr branch)]) by congruence.
  rewrite Ed in Hsent.
  change (dict_get _ (lit "content")) with (Some (VStr (b64encode raw))) in Hsent.
  congruence.
Qed.

(** X8. What [get_file] reads from an answer of GitHub is the document
    [update_file] sent, when the answer carries under [content] the text
    that was sent, with or without line breaks or other ASCII characters
    outside the base64 alphabet put into it; the sha is the one of the
    answer, and nothing is reported. *)
Theorem get_file_reads_what_was_sent
        (branch content commit_message sent : str) (sha0 sha1 body : value)
        (data : list (str * value)) :
  update_request branch content sha0 commit_message = Some data ->
  dict_get data (lit "content") = Some (VStr sent) ->
  carries body sent sha1 ->
  get_file (Some body) = (Some (content, sha1), []).
Proof.
  intros Hreq Hsent (text & Hc & Ha & Hf & Hs).
  destruct (update_request_content _ _ _ _ _ _ Hreq Hsent) as (raw & Er & ->).
  now apply (get_file_decodes content text raw).
Qed.

Lemma forallb_false_in (A : Type) (f : A -> bool) (l : list A) :
  forallb f l = false -> exists x, In x l /\ f x = false.
Proof.
  induction l as [|x l IH]; cbn [forallb]; intros H; [discriminate|].
  apply andb_false_iff in H as [H|H].
  - exists x. split; [now left|assumption].
  - destruct (IH H) as (y & Hin & Hy). exists y. split; [now right|assumption].
Qed.

(** X9. Building the request raises, and [update_file] then sends nothing,
    exactly when the document holds a character that is no scalar value:
    a surrogate. *)
Theorem update_request_fails_on_surrogate
        (branch content commit_message : str) (sha0 : value) :
  update_request branch content sha0 commit_message = None
  <-> exists c, In c content /\ is_scalar c = false.
Proof.
  unfold update_request, and_then. split.
  - intros H. destruct (utf8_encode content) as [raw|] eqn:Er; [discriminate|].
    destruct (forallb is_scalar content) eqn:Ef.
    + apply utf8_encode_scalar in Ef as (b & Eb). congruence.
    + now apply forallb_false_in.
  - intros (c & Hin & Hc).
    destruct (utf8_encode content) as [raw|] eqn:Er; [|reflexivity].
    assert (Hs : forallb is_scalar content = true)
      by (apply utf8_encode_scalar; now exists raw).
    rewrite forallb_forall in Hs. rewrite (Hs c Hin) in Hc. discriminate.
Qed.

(** ** The region buttons *)

Lemma list_remove_filter (x : str) (l : list str) :
  In x l -> NoDup l ->
  list_remove x l = Some (filter (fun y => negb (str_eqb y x)) l).
Proof.
  induction l as [|y t IH]; intros Hin Hnd; [destruct Hin|].
  inversion Hnd as [|? ? Hy Hnd']; subst.
  cbn [list_remove filter]. destruct (str_eqb y x) eqn:E.
  - apply str_eqb_eq in E as ->. cbn [negb]. f_equal.
    symmetry. clear IH Hin Hnd Hnd'. induction t as [|z t IH]; [reflexivity|].
    cbn [filter]. destruct (str_eqb z x) eqn:Ez.
    + apply str_eqb_eq in Ez as ->. exfalso. apply Hy. now left.
    + cbn [negb]. f_equal. apply IH. intros Hin. apply Hy. now right.
  - cbn [negb]. destruct Hin as [->|Hin].
    + rewrite (proj2 (str_eqb_eq x x) eq_refl) in E. discriminate.
    + now rewrite (IH Hin Hnd').
Qed.

(** X10. The delete button of a region that is in the list takes it out
    and leaves the other regions in their order, when the list holds no
    region twice; the unsaved flag is set. (With a region held twice the
    first one only is taken out.) *)
Theorem delete_region_removes (p : page) (region : str) :
  In region (regions p) -> NoDup (regions p) ->
  exists p',
    delete_region p region = Some p'
    /\ regions p' = filter (fun y => negb (str_eqb y region)) (regions p)
    /\ ~ In region (regions p')
    /\ changes_made (forms p') = true
    /\ dealers (forms p') = dealers (forms p).
Proof.
  intros Hin Hnd. unfold delete_region. rewrite (list_remove_filter _ _ Hin Hnd).
  eexists. split; [reflexivity|]. cbn [with_regions regions forms changes_made dealers].
  repeat split.
  intros H. apply filter_In in H as [_ H].
  rewrite (proj2 (str_eqb_eq region region) eq_refl) in H. discriminate.
Qed.

(** X11. The add-region button keeps the list free of repeats and of the
    empty name: a new, non-empty name goes to the end of the list, with
    the unsaved flag set; an empty name or one already in the list
    leaves the list as it was. *)
Theorem add_region_keeps_distinct (p : page) (new_region : str) :
  NoDup (regions p) -> ~ In [] (regions p) ->
  NoDup (regions (add_region p new_region))
  /\ ~ In [] (regions (add_region p new_region))
  /\ (new_region <> [] -> In new_region (regions (add_region p new_region)))
  /\ (regions (add_region p new_region) = regions p
      \/ regions (add_region p new_region) = regions p ++ [new_region]
         /\ changes_made (forms (add_region p new_region)) = true).
Proof.
  intros Hnd He. unfold add_region, truthy.
  destruct (str_eqb new_region []) eqn:En; cbn [negb].
  - apply str_eqb_eq in En as ->. cbn [with_notices regions].
    repeat split; try assumption; [congruence|now left].
  - apply str_eqb_nil in En.
    destruct (existsb (str_eqb new_region) (regions p)) eqn:Ex.
    + apply existsb_str_eqb in Ex. cbn [with_notices regions].
      repeat split; try assumption; [|now left]. intros _. exact Ex.
    + assert (Hn : ~ In new_region (regions p)).
      { intros Hin. apply existsb_str_eqb in Hin. congruence. }
      cbn [with_regions regions forms changes_made]. repeat split.
      * apply NoDup_app; [assumption|repeat constructor; intros []| ].
        intros x Hx [<-|[]]. now apply Hn.
      * intros Hin. apply in_app_iff in Hin as [Hin|[E|[]]]; [now apply He|].
        now apply En.
      * intros _. apply in_app_iff. right. now left.
      * right. now split.
Qed.

(** ** Deleting a dealer while the edit form is open *)

Lemma nth_error_list_pop (A : Type) (l : list A) (i j : nat) :
  i <= j -> nth_error (list_pop l i) j = nth_error l (S j).
Proof.
  revert i j. induction l as [|x l IH]; intros i j Hij.
  - destruct i, j; reflexivity.
  - destruct i as [|i]; [reflexivity|].
    destruct j as [|j]; [lia|]. cbn [list_pop nth_error]. apply IH. lia.
Qed.

Lemma list_pop_list_set (A : Type) (l : list A) (i j : nat) (x : A) :
  i <= j -> list_set (list_pop l i) j x = list_pop (list_set l (S j) x) i.
Proof.
  revert i j. induction l as [|y l IH]; intros i j Hij.
  - destruct i, j; reflexivity.
  - destruct i as [|i]; [reflexivity|].
    destruct j as [|j]; [lia|]. cbn [list_pop list_set]. f_equal. apply IH. lia.
Qed.

(** X12. Deleting the dealer at [idx] while the edit form is open for the
    dealer at [j], [idx <= j], leaves the form open at [j], where the
    dealer that stood at [j + 1] now stands. When there was none the
    script raises at [dealers[idx]]; and whenever the form is then saved,
    it is that dealer the save overwrites: the list is the one that
    editing the dealer at [j + 1] before the deletion would have given. *)
Theorem delete_shifts_edit
        (p p' : page) (idx j : nat)
        (edit_name edit_contact edit_rating : str) (edit_regions : list str)
        (rows : list (str * str)) :
  editing_dealer (forms p) = Some j -> idx <= j ->
  click_delete p idx = Some p' ->
  editing_dealer (forms p') = Some j
  /\ nth_error (dealers (forms p')) j = nth_error (dealers (forms p)) (S j)
  /\ (nth_error (dealers (forms p)) (S j) = None ->
      submit_edit (forms p') edit_name edit_contact edit_rating edit_regions rows = None)
  /\ forall st',
       submit_edit (forms p') edit_name edit_contact edit_rating edit_regions rows
       = Some st' ->
       dealers st'
       = list_pop (list_set (dealers (forms p)) (S j)
                            (dealer_record edit_name edit_contact edit_rating
                                           edit_regions (collect_paddy rows)))
                  idx.
Proof.
  intros He Hij Hd. unfold click_delete in Hd.
  destruct (nth_error (dealers (forms p)) idx) as [dealer|]; [|discriminate].
  destruct (getitem dealer (lit "name")) as [name|]; [|discriminate].
  injection Hd as <-. cbn [forms editing_dealer dealers].
  split; [assumption|]. split; [now apply nth_error_list_pop|].
  unfold submit_edit. cbn [editing_dealer dealers]. rewrite He.
  rewrite nth_error_list_pop by assumption.
  split.
  - now intros ->.
  - intros st'. destruct (nth_error (dealers (forms p)) (S j)); [|discriminate].
    intros H. injection H as <-. cbn [dealers]. now apply list_pop_list_set.
Qed.

(** ** The unsaved flag *)

(** X13. Between a load and a save no run of the script touches the
    stored document or its sha, and a run that changes the dealers or the
    regions sets the unsaved flag. *)
Theorem handle_sets_unsaved_flag (p p' : page) (e : event) :
  handle p e = Some p' ->
  html_content p' = html_content p /\ sha p' = sha p
  /\ (dealers (forms p') = dealers (forms p) /\ regions p' = regions p
      \/ changes_made (forms p') = true).
Proof.
  destruct e as [idx|idx|a b c d rows|a b c d rows| |region|new_region]; cbn [handle].
  - destruct (nth_error _ idx); [|discriminate]. intros H. injection H as <-.
    repeat split. now left.
  - unfold click_delete. destruct (nth_error _ idx) as [dealer|]; [|discriminate].
    destruct (getitem dealer _); [|discriminate]. intros H. injection H as <-.
    repeat split. now right.
  - intros H. injection H as <-. cbn [with_forms html_content sha regions forms].
    repeat split. unfold submit_add.
    destruct (_ && _); cbn [dealers changes_made]; [now right|now left].
  - unfold submit_edit. destruct (editing_dealer (forms p)) as [idx|]; [|discriminate].
    destruct (nth_error _ idx); [|discriminate]. cbn [option_map].
    intros H. injection H as <-. repeat split. now right.
  - destruct (editing_dealer (forms p)) as [idx|]; [|discriminate].
    destruct (nth_error _ idx); [|discriminate]. intros H. injection H as <-.
    repeat split. now left.
  - unfold delete_region. destruct (list_remove region (regions p)); [|discriminate].
    intros H. injection H as <-. repeat split. now right.
  - intros H. injection H as <-. unfold add_region.
    destruct (truthy new_region); [destruct (existsb _ _)|];
      repeat split; try (now left); now right.
Qed.

(** ** The overview *)

Lemma count_get_set (counts : list (str * nat)) (k r : str) (n : nat) :
  count_get (count_set counts k n) r = if str_eqb r k then n else count_get counts r.
Proof.
  induction counts as [|[k' m] rest IH]; cbn [count_set count_get].
  - reflexivity.
  - destruct (str_eqb k k') eqn:E.
    + apply str_eqb_eq in E as ->. cbn [count_get]. now destruct (str_eqb r k').
    + cbn [count_get]. rewrite IH. destruct (str_eqb r k') eqn:E'; [|reflexivity].
      apply str_eqb_eq in E' as ->. destruct (str_eqb k' k) eqn:E''; [|reflexivity].
      apply str_eqb_eq in E'' as ->.
      rewrite (proj2 (str_eqb_eq k k) eq_refl) in E. discriminate.
Qed.

Lemma count_set_keys (counts : list (str * nat)) (k : str) (n : nat) :
  map fst (count_set counts k n)
  = if existsb (str_eqb k) (map fst counts) then map fst counts
    else map fst counts ++ [k].
Proof.
  induction counts as [|[k' m] rest IH]; cbn [count_set map fst existsb app].
  - reflexivity.
  - destruct (str_eqb k k') eqn:E; cbn [orb map fst]; [reflexivity|].
    rewrite IH. now destruct (existsb _ _).
Qed.

Lemma occurrences_app (r : str) (a b : list str) :
  occurrences r (a ++ b) = occurrences r a + occurrences r b.
Proof. unfold occurrences. now rewrite filter_app, length_app. Qed.

Lemma counts_fit_region (counts : list (str * nat)) (seen : list str) (region : str) :
  counts_fit counts seen -> counts_fit (count_region counts region) (seen ++ [region]).
Proof.
  intros (Hnd & Hc & Hk). unfold count_region. repeat split.
  - rewrite count_set_keys. destruct (existsb _ _) eqn:E; [assumption|].
    apply NoDup_app; [assumption|repeat constructor; intros []|].
    intros x Hx [<-|[]]. apply existsb_str_eqb in Hx. congruence.
  - intros r. rewrite count_get_set, occurrences_app, !Hc.
    assert (E1 : occurrences r [region] = if str_eqb r region then 1 else 0).
    { unfold occurrences. cbn [filter]. now destruct (str_eqb r region). }
    rewrite E1. destruct (str_eqb r region) eqn:E.
    + apply str_eqb_eq in E as ->. reflexivity.
    + lia.
  - rewrite count_set_keys. intros H.
    destruct (existsb _ _) eqn:E.
    + apply in_app_iff. left. now apply Hk.
    + apply in_app_iff in H as [H|H]; apply in_app_iff;
        [left; now apply Hk | now right].
  - rewrite count_set_keys. intros H. apply in_app_iff in H as [H|[<-|[]]].
    + apply Hk in H. destruct (existsb _ _); [assumption|].
      apply in_app_iff. now left.
    + destruct (existsb _ _) eqn:E.
      * now apply existsb_str_eqb in E.
      * apply in_app_iff. right. now left.
Qed.

Lemma counts_fit_regions (l : list str) :
  forall counts seen,
  counts_fit counts seen -> counts_fit (fold_left count_region l counts) (seen ++ l).
Proof.
  induction l as [|r l IH]; intros counts seen H; cbn [fold_left].
  - now rewrite app_nil_r.
  - replace (seen ++ r :: l) with ((seen ++ [r]) ++ l) by now rewrite <- app_assoc.
    apply IH. now apply counts_fit_region.
Qed.

Lemma counts_fit_served (served : list (list str)) :
  forall counts seen,
  counts_fit counts seen ->
  counts_fit (fold_left (fun c regions => fold_left count_region regions c) served counts)
             (seen ++ concat served).
Proof.
  induction served as [|l served IH]; intros counts seen H; cbn [fold_left concat].
  - now rewrite app_nil_r.
  - rewrite app_assoc. apply IH. now apply counts_fit_regions.
Qed.

Lemma region_counts_fit (served : list (list str)) :
  counts_fit (region_counts served) (concat served).
Proof.
  apply (counts_fit_served served [] []). repeat split.
  - constructor.
  - intros [].
  - intros [].
Qed.

Lemma NoDup_sorted (l : list str) : NoDup l -> NoDup (sorted l).
Proof.
  intros H. eapply Permutation_NoDup; [apply sorted_perm|assumption].
Qed.

Lemma overview_lines_fit (served : list (list str)) :
  StronglySorted str_le (map fst (overview_lines served))
  /\ NoDup (map fst (overview_lines served))
  /\ forall region n,
       In (region, n) (overview_lines served)
       <-> n = occurrences region (concat served) /\ 0 < n.
Proof.
  destruct (region_counts_fit served) as (Hnd & Hc & Hk).
  assert (Ek : map fst (overview_lines served) = sorted (map fst (region_counts served))).
  { unfold overview_lines. rewrite map_map. cbn [fst]. apply map_id. }
  rewrite Ek. split; [apply sorted_sorted|]. split; [now apply NoDup_sorted|].
  assert (Hpos : forall r, In r (concat served) <-> 0 < occurrences r (concat served)).
  { intros r. unfold occurrences. split.
    - intros Hin. assert (In r (filter (str_eqb r) (concat served))).
      { apply filter_In. split; [assumption|]. now apply str_eqb_eq. }
      destruct (filter _ _); [contradiction|cbn [length]; lia].
    - intros H. destruct (filter (str_eqb r) (concat served)) as [|x t] eqn:E;
        [cbn [length] in H; lia|].
      assert (Hx : In x (filter (str_eqb r) (concat served))) by (rewrite E; now left).
      apply filter_In in Hx as [Hx Hr]. now apply str_eqb_eq in Hr as ->. }
  intros region n. unfold overview_lines. rewrite in_map_iff. split.
  - intros (r & E & Hin). injection E as -> <-. rewrite Hc. split; [reflexivity|].
    apply Hpos, Hk. eapply Permutation_in; [symmetry; apply sorted_perm|exact Hin].
  - intros (-> & Hn). exists region. rewrite Hc. split; [reflexivity|].
    eapply Permutation_in; [apply sorted_perm|]. now apply Hk, Hpos.
Qed.

Lemma string_items_strings (l : list str) : string_items (map VStr l) = Some l.
Proof.
  induction l as [|x l IH]; [reflexivity|]. cbn [map string_items]. now rewrite IH.
Qed.

Lemma dealer_regions_record (name contact rating : str) (regions : list str)
      (paddy_types : list value) :
  dealer_regions (dealer_record name contact rating regions paddy_types) = Some regions.
Proof.
  unfold dealer_regions, dealer_record.
  change (getitem _ (lit "regions")) with (Some (VList (map VStr regions))).
  cbn [and_then]. apply string_items_strings.
Qed.

(** X14. When every dealer is a record whose regions are a list of
    strings, as the records of the forms are, the overview writes one
    line for each region some dealer serves, and none for any other; the
    regions come sorted, none twice; and the count on the line of a
    region is how often it comes in the region lists of the dealers: the
    number of dealers that serve it, when no dealer lists a region
    twice. *)
Theorem overview_counts (dealers : list value) (served : list (list str)) :
  served_regions dealers = Some served ->
  exists lines,
    overview dealers = Some lines
    /\ StronglySorted str_le (map fst lines)
    /\ NoDup (map fst lines)
    /\ forall region n,
         In (region, n) lines <-> n = occurrences region (concat served) /\ 0 < n.
Proof.
  intros H. exists (overview_lines served). unfold overview. rewrite H.
  split; [reflexivity|]. apply overview_lines_fit.
Qed.

(** ** A scan read back: where it found nothing, and where it found a match *)

Section ScanBack.

Variable r : regex.
Variable M : str -> caps -> Prop.
Hypothesis r_sound : forall s g s',
  match_at r s = Some (g, s') -> exists m, s = m ++ s' /\ m <> [] /\ M m g.

Lemma finditer_hit_inv (s m : str) (g : caps) (ps : list piece) :
  finditer r 0 s = Hit m g :: ps ->
  exists s', s = m ++ s' /\ match_at r s = Some (g, s') /\ ps = finditer r 0 s'.
Proof using r_sound.
  destruct s as [|c t].
  - cbn [finditer]. now rewrite (match_at_nil r M r_sound).
  - destruct (match_at r (c :: t)) as [[g' s']|] eqn:E.
    + destruct (r_sound _ _ _ E) as (m' & Es & Hm & _).
      rewrite Es in E |- *. rewrite (finditer_hit r M r_sound _ _ _ E).
      intros H. injection H as -> -> <-. now exists s'.
    + now rewrite (finditer_gap r _ _ E).
Qed.

Lemma finditer_gap_inv (s : str) (c : char) (ps : list piece) :
  finditer r 0 s = Gap c :: ps ->
  exists t, s = c :: t /\ match_at r s = None /\ ps = finditer r 0 t.
Proof using r_sound.
  destruct s as [|x t].
  - cbn [finditer]. now rewrite (match_at_nil r M r_sound).
  - destruct (match_at r (x :: t)) as [[g' s']|] eqn:E.
    + destruct (r_sound _ _ _ E) as (m' & Es & Hm & _).
      rewrite Es in E |- *. now rewrite (finditer_hit r M r_sound _ _ _ E).
    + rewrite (finditer_gap r _ _ E). intros H. injection H as -> <-. now exists t.
Qed.

Lemma finditer_nil_inv (s : str) : finditer r 0 s = [] -> s = [].
Proof using r_sound.
  destruct s as [|x t]; [reflexivity|].
  destruct (match_at r (x :: t)) as [[g' s']|] eqn:E.
  - destruct (r_sound _ _ _ E) as (m' & Es & Hm & _).
    rewrite Es in E |- *. now rewrite (finditer_hit r M r_sound _ _ _ E).
  - now rewrite (finditer_gap r _ _ E).
Qed.

(** A scan that is gaps only. *)
Lemma finditer_gaps_inv (a : str) :
  forall s, finditer r 0 s = map Gap a ->
  s = a /\ forall u v, a = u ++ v -> v <> [] -> match_at r v = None.
Proof using r_sound.
  induction a as [|c a IH]; intros s H.
  - apply finditer_nil_inv in H as ->. split; [reflexivity|].
    intros u v E Hv. destruct u, v; try discriminate. congruence.
  - cbn [map] in H. apply finditer_gap_inv in H as (t & -> & Hn & Ht).
    symmetry in Ht. destruct (IH _ Ht) as (-> & Ha). split; [reflexivity|].
    intros [|x u] v E Hv.
    + cbn [app] in E. now subst v.
    + injection E as -> E. now apply (Ha u v).
Qed.

(** A scan that found one match. *)
Lemma finditer_one_inv (pre m rest : str) (g : caps) :
  forall s,
  finditer r 0 s = map Gap pre ++ Hit m g :: map Gap rest ->
  s = pre ++ m ++ rest
  /\ (forall u v, pre = u ++ v -> v <> [] -> match_at r (v ++ m ++ rest) = None)
  /\ match_at r (m ++ rest) = Some (g, rest)
  /\ (forall u v, rest = u ++ v -> v <> [] -> match_at r v = None).
Proof using r_sound.
  induction pre as [|c pre IH]; intros s H.
  - cbn [map app] in H. apply finditer_hit_inv in H as (s' & -> & Hm & Hs').
    symmetry in Hs'. apply finditer_gaps_inv in Hs' as (-> & Hr).
    repeat split; try assumption.
    intros u v E Hv. destruct u, v; try discriminate. congruence.
  - cbn [map app] in H. apply finditer_gap_inv in H as (t & -> & Hn & Ht).
    symmetry in Ht. destruct (IH _ Ht) as (-> & Hp & Hm & Hr).
    repeat split; try assumption.
    intros [|x u] v E Hv.
    + cbn [app] in E. now subst v.
    + injection E as -> E. now apply (Hp u v).
Qed.

Lemma finditer_one (pre m rest : str) (g : caps) :
  (forall u v, pre = u ++ v -> v <> [] -> match_at r (v ++ m ++ rest) = None) ->
  match_at r (m ++ rest) = Some (g, rest) ->
  (forall u v, rest = u ++ v -> v <> [] -> match_at r v = None) ->
  finditer r 0 (pre ++ m ++ rest) = map Gap pre ++ Hit m g :: map Gap rest.
Proof using r_sound.
  intros Hp Hm Hr.
  rewrite (finditer_gaps_prefix r pre (m ++ rest) Hp).
  rewrite (finditer_hit r M r_sound _ _ _ Hm).
  rewrite (finditer_all_gaps r rest); [reflexivity|].
  intros u [|x v] E; [apply (match_at_nil r M r_sound)|].
  now apply (Hr u (x :: v)).
Qed.

End ScanBack.
(** ** The lazy run of the selection pattern *)

Lemma lazy_first_success (s : str) (g : caps) (k : cont) (res : result) :
  r_star_lazy any_char s g k = Some res ->
  exists u v, s = u ++ v /\ k v g = Some res
              /\ forall u1 v1, u = u1 ++ v1 -> v1 <> [] -> k (v1 ++ v) g = None.
Proof.
  induction s as [|c t IH]; cbn [r_star_lazy].
  - destruct (k [] g) as [r0|] eqn:E; [|discriminate].
    intros H. injection H as <-. exists [], []. repeat split; [assumption|].
    intros u1 v1 Eu Hv. destruct u1, v1; try discriminate. congruence.
  - destruct (k (c :: t) g) as [r0|] eqn:E.
    + intros H. injection H as <-. exists [], (c :: t). repeat split; [assumption|].
      intros u1 v1 Eu Hv. destruct u1, v1; try discriminate. congruence.
    + cbn [any_char]. intros H. destruct (IH H) as (u & v & -> & Hk & Hmin).
      exists (c :: u), v. repeat split; [assumption|].
      intros [|x u1] v1 Eu Hv.
      * cbn [app] in Eu. subst v1. exact E.
      * injection Eu as -> Eu. now apply Hmin with (u1 := u1).
Qed.

Lemma lit_end_some (T s : str) (g : caps) (res : result) :
  r_lit T s g (fun s' g' => Some (g', s')) = Some res ->
  exists rest, s = T ++ rest /\ res = (g, rest).
Proof.
  intros H. apply r_lit_some in H as (s' & -> & H). injection H as <-. now exists s'.
Qed.

Lemma lit_end_none (T s : str) (g : caps) :
  ~ starts_with T s -> r_lit T s g (fun s' g' => Some (g', s')) = None.
Proof.
  intros Hn. destruct (r_lit T s g _) as [res|] eqn:E; [|reflexivity].
  apply lit_end_some in E as (rest & -> & _). exfalso. apply Hn. now exists rest.
Qed.

Lemma starts_with_longer (T a R : str) :
  length T <= length a -> starts_with T (a ++ R) -> starts_with T a.
Proof.
  intros Hl (z & E). apply app_eq_app in E as (l & [[-> E]|[E _]]).
  - now exists l.
  - assert (Hlen : length T = length a + length l) by (now rewrite E, length_app).
    assert (l = []) by (destruct l; [reflexivity|cbn [length] in Hlen; lia]).
    subst l. rewrite app_nil_r in E. subst a. exists []. now rewrite app_nil_r.
Qed.

Lemma select_match_inv (m R : str) (g : caps) :
  match_at select_pattern (m ++ R) = Some (g, R) ->
  exists body, m = select_block_of body /\ g = None /\ closes_first body.
Proof.
  unfold match_at, select_pattern, r_seq. intros H.
  apply r_lit_some in H as (s1 & E1 & H).
  apply lazy_first_success in H as (u & v & -> & Hk & Hmin).
  apply lit_end_some in Hk as (rest & -> & Hres). injection Hres as <- <-.
  exists u. repeat split.
  - apply (app_inv_tail R). rewrite E1. unfold select_block_of, select_open.
    now rewrite <- !app_assoc.
  - intros u1 v1 Eu Hv Hs. specialize (Hmin u1 v1 Eu Hv).
    destruct Hs as (z & Ez). unfold select_close in Ez.
    rewrite (app_assoc v1), Ez, <- app_assoc, r_lit_app in Hmin. discriminate.
Qed.

Lemma select_match_exact (body R : str) :
  closes_first body ->
  match_at select_pattern (select_block_of body ++ R) = Some (None, R).
Proof.
  intros Hc. unfold match_at, select_pattern, select_block_of, select_open, r_seq.
  rewrite <- !app_assoc, r_lit_app.
  apply r_star_lazy_first.
  - now rewrite r_lit_app.
  - intros u v Eu Hv. apply lit_end_none. intros Hs.
    apply (Hc u v Eu Hv). rewrite app_assoc in Hs.
    apply starts_with_longer in Hs; [assumption|].
    rewrite length_app. lia.
Qed.

Lemma prefix_split (A : Type) (a R P z : list A) :
  a ++ R = P ++ z -> length P <= length a -> exists l, a = P ++ l /\ z = l ++ R.
Proof.
  intros E Hl. apply app_eq_app in E as (l & [[E1 E2]|[E1 E2]]).
  - now exists l.
  - assert (Hlen : length P = length a + length l) by (now rewrite E1, length_app).
    assert (l = []) by (destruct l; [reflexivity|cbn [length] in Hlen; lia]).
    subst l. rewrite app_nil_r in E1. cbn [app] in E2. subst.
    exists []. now rewrite app_nil_r.
Qed.

(** A match of the selection pattern that starts before a block ends
    with that block or before, whatever follows the block. *)
Lemma select_start_transfer (v body R R' : str) :
  match_at select_pattern (v ++ select_block_of body ++ R') <> None ->
  match_at select_pattern (v ++ select_block_of body ++ R) <> None.
Proof.
  intros H.
  destruct (match_at select_pattern (v ++ select_block_of body ++ R'))
    as [[g s']|] eqn:E; [clear H|congruence].
  apply select_match_some in E as (m & E & _ & (x & ->) & _).
  assert (E1 : (v ++ select_block_of body) ++ R'
               = select_open ++ (x ++ select_close ++ s')).
  { rewrite <- app_assoc, E. unfold select_block_of, select_close.
    now rewrite <- !app_assoc. }
  apply prefix_split in E1 as (l & E1 & _);
    [|unfold select_block_of; rewrite !length_app; lia].
  assert (E2 : (v ++ select_open ++ body) ++ select_close = select_open ++ l).
  { rewrite <- E1. unfold select_block_of, select_close. now rewrite <- !app_assoc. }
  apply prefix_split in E2 as (l2 & E2 & _); [|rewrite !length_app; lia].
  replace (v ++ select_block_of body ++ R) with (select_block_of l2 ++ R);
    [apply select_match_complete|].
  unfold select_block_of. rewrite <- !app_assoc.
  rewrite (app_assoc select_open l2), <- E2. now rewrite <- !app_assoc.
Qed.

(** ** Text put where a statement was: what the selection scan sees *)

Lemma adjacent_app (x y : char) (a b : str) :
  adjacent x y (a ++ x :: y :: b) = true.
Proof.
  induction a as [|c a IH].
  - cbn [app adjacent]. now rewrite !N.eqb_refl.
  - cbn [app]. destruct (a ++ x :: y :: b) as [|d t] eqn:E.
    + now destruct a.
    + cbn [adjacent] in IH |- *. rewrite IH. apply orb_true_r.
Qed.

(** The end of a literal cannot be the start of a text that begins with
    two characters the literal never has side by side, the first of them
    not its last. *)
Lemma no_overhang (P a l s' rest : str) (x y : char) :
  adjacent x y P = false -> last P 0%N <> x ->
  P = a ++ l -> l <> [] -> l ++ s' = x :: y :: rest -> False.
Proof.
  intros Hadj Hlast EP Hl E.
  destruct l as [|c l]; [congruence|]. injection E as -> E.
  destruct l as [|d l].
  - apply Hlast. rewrite EP. apply last_last.
  - injection E as -> E. rewrite EP, adjacent_app in Hadj. discriminate.
Qed.

(** Two ways to cut one text: the second cut comes first, or later. *)
Lemma cut_cases (A : Type) (x1 x2 y1 y2 : list A) :
  x1 ++ x2 = y1 ++ y2 ->
  (exists l, x1 = y1 ++ l /\ y2 = l ++ x2)
  \/ (exists l, l <> [] /\ y1 = x1 ++ l /\ x2 = l ++ y2).
Proof.
  intros E. apply app_eq_app in E as (l & [[E1 E2]|[E1 E2]]).
  - left. now exists l.
  - destruct l as [|c l].
    + left. exists []. rewrite app_nil_r in *. cbn [app] in E2. now subst.
    + right. exists (c :: l). now repeat split.
Qed.

Section NewStatement.

(** The text [N] put in place of a statement begins like a statement and
    holds no [<]. *)
Variables (N N' : str).
Hypothesis N_start : N = 99%N :: 111%N :: N'.
Hypothesis N_plain : ~ In 60%N N.

(** A closing tag found after the new text was there before. *)
Lemma close_transfer (x s' w old post : str) :
  x ++ select_close ++ s' = w ++ N ++ post ->
  exists x' s'', w ++ old ++ post = x' ++ select_close ++ s''.
Proof using N_start N_plain.
  intros E. apply cut_cases in E as [(l & E1 & E2)|(l & Hl & E1 & E2)].
  - (* the tag starts after [w] *)
    apply cut_cases in E2 as [(l' & E3 & E4)|(l' & Hl' & E3 & E4)].
    + destruct l' as [|c l'].
      * exists (w ++ old), s'. cbn [app] in E4. now rewrite <- E4, <- app_assoc.
      * exfalso. apply N_plain. rewrite E3, in_app_iff. right.
        unfold select_close in E4. injection E4 as <- _. now left.
    + exists (w ++ old ++ l'), s'. rewrite E4. now rewrite <- !app_assoc.
  - (* the tag starts inside [w] *)
    apply cut_cases in E2 as [(l' & E3 & E4)|(l' & Hl' & E3 & E4)].
    + destruct l' as [|c l'].
      * rewrite app_nil_r in E3. subst l. exists x, (old ++ post).
        rewrite E1. now rewrite <- !app_assoc.
      * exfalso. rewrite N_start in E4.
        apply (no_overhang select_close l (c :: l') s' (N' ++ post) 99%N 111%N);
          [reflexivity|discriminate|assumption|discriminate|now symmetry].
    + exists x, (l' ++ old ++ post). rewrite E1, E3. now rewrite <- !app_assoc.
Qed.

(** Where the selection scan found nothing after the block, it finds
    nothing once the new text stands in place of the statement. *)
Lemma tail_transfer (mid old post : str) :
  (forall u v, mid ++ old ++ post = u ++ v -> v <> [] ->
               match_at select_pattern v = None) ->
  forall u v, mid ++ N ++ post = u ++ v -> v <> [] ->
              match_at select_pattern v = None.
Proof using N_start N_plain.
  intros Hold u v E Hv.
  destruct (match_at select_pattern v) as [[g s']|] eqn:Em; [exfalso|reflexivity].
  apply select_match_some in Em as (m & Ev & _ & (x & ->) & _).
  apply cut_cases in E as [(l & E1 & E2)|(l & Hl & E1 & E2)].
  - destruct l as [|c l].
    + cbn [app] in E2. rewrite E2, N_start in Ev. discriminate.
    + assert (E3 : (c :: l) ++ N ++ post
                   = select_open ++ (x ++ select_close ++ s')).
      { rewrite <- E2, Ev. unfold select_block_of, select_close.
        now rewrite <- !app_assoc. }
      apply cut_cases in E3 as [(l2 & E4 & E5)|(l2 & Hl2 & E4 & E5)].
      * destruct (close_transfer _ _ _ old _ E5) as (x' & s'' & E6).
        assert (Hn : match_at select_pattern ((c :: l) ++ old ++ post) = None).
        { apply (Hold u); [|discriminate]. rewrite E1. now rewrite <- !app_assoc. }
        rewrite E4, <- app_assoc, E6 in Hn.
        apply (select_match_complete x' s''). rewrite <- Hn.
        unfold select_block_of, select_close. now rewrite <- !app_assoc.
      * rewrite N_start in E5.
        apply (no_overhang select_open (c :: l) l2 (x ++ select_close ++ s')
                           (N' ++ post) 99%N 111%N);
          [reflexivity|discriminate|assumption|assumption|now symmetry].
  - apply cut_cases in E2 as [(l' & E3 & E4)|(l' & Hl' & E3 & E4)].
    + destruct l' as [|c l'].
      * cbn [app] in E4. subst v.
        assert (Hn : match_at select_pattern post = None).
        { apply (Hold (mid ++ old)); [now rewrite <- app_assoc|assumption]. }
        rewrite Ev in Hn. now apply (select_match_complete x s').
      * apply N_plain. rewrite E3, in_app_iff. right.
        rewrite E4 in Ev. injection Ev as -> _. now left.
    + assert (Hn : match_at select_pattern v = None).
      { apply (Hold (mid ++ old ++ l')); [|assumption]. rewrite E4.
        now rewrite <- !app_assoc. }
      rewrite Ev in Hn. now apply (select_match_complete x s').
Qed.

End NewStatement.
(** ** The document after the dealers were written, as the selection scan
    sees it *)

Lemma one_select_block_after (pre block mid old post N N' : str) :
  N = 99%N :: 111%N :: N' -> ~ In 60%N N ->
  one_select_block (pre ++ block ++ mid ++ old ++ post) pre block (mid ++ old ++ post) ->
  one_select_block (pre ++ block ++ mid ++ N ++ post) pre block (mid ++ N ++ post).
Proof.
  intros HN1 HN2 H. unfold one_select_block in *.
  apply (finditer_one_inv _ _ select_match_some) in H as (_ & Hp & Hm & Hr).
  apply select_match_inv in Hm as (body & -> & _ & Hc).
  apply (finditer_one _ _ select_match_some).
  - intros u v E Hv.
    destruct (match_at select_pattern (v ++ select_block_of body ++ mid ++ N ++ post))
      eqn:Em; [exfalso|reflexivity].
    apply (select_start_transfer v body (mid ++ old ++ post) (mid ++ N ++ post)).
    + now rewrite Em.
    + now apply (Hp u v).
  - now apply select_match_exact.
  - now apply (tail_transfer N N' HN1 HN2 mid old post).
Qed.

Lemma substitute_only_gaps (t : list tpart) (s : str) :
  substitute t (map Gap s) = s.
Proof.
  rewrite <- (app_nil_r (map Gap s)), substitute_gaps. apply app_nil_r.
Qed.

(** What [update_dealers_in_html] writes on a document with one
    statement. *)
Lemma update_dealers_one_statement
      (float_repr : str -> str) (html pre old post : str) (records : list value) :
  one_statement html pre old post ->
  forallb clean_value records = true ->
  update_dealers_in_html float_repr html (VList records)
  = (pre ++ (lit "const dealersData = " ++ json_dumps float_repr (VList records)
             ++ lit ";") ++ post, []).
Proof.
  intros H1 HC.
  assert (HCv : clean_value (VList records) = true) by exact HC.
  pose proof (nice_iterencode float_repr (VList records) HCv 0 [] nice_nil) as Hnice.
  rewrite app_nil_r in Hnice. fold (json_dumps float_repr (VList records)) in Hnice.
  assert (Hplain : plain_template (lit "const dealersData = "
                     ++ json_dumps float_repr (VList records) ++ lit ";") = true).
  { rewrite plain_template_app by reflexivity.
    now rewrite plain_template_app by (apply nice_plain, Hnice). }
  unfold update_dealers_in_html, re_sub.
  rewrite (parse_template_copies _ _ Hplain). unfold one_statement in H1. rewrite H1.
  rewrite substitute_gaps. unfold substitute at 1. cbn [flat_map].
  rewrite expand_plain.
  fold (substitute (map TChar (lit "const dealersData = "
          ++ json_dumps float_repr (VList records) ++ lit ";")) (map Gap post)).
  now rewrite substitute_only_gaps.
Qed.

(** ** The document after the regions were written, as the array scan
    sees it *)

Lemma new_select_no_bracket (regions : list str) :
  Forall (fun x => ~ In 91%N x) regions -> ~ In 91%N (new_select regions).
Proof.
  intros H. apply sorted_forall in H.
  unfold new_select, region_options. rewrite join_cons_map.
  assert (Hflat : ~ In 91%N
            (flat_map (fun x => (nl :: spaces 20) ++ region_option x) (sorted regions))).
  { induction H as [|x l Hx Hl IH]; [intros []|].
    cbn [flat_map]. unfold region_option. rewrite !in_app_iff.
    intros [[Hb|[Hb|[Hb|[Hb|Hb]]]]|Hb]; try contradiction;
      revert Hb; cbv; intuition discriminate. }
  rewrite in_app_iff. cbn [In]. rewrite !in_app_iff. cbn [In]. rewrite !in_app_iff.
  intros [Hb|[Hb|[Hb|[[Hb|Hb]|[Hb|[Hb|Hb]]]]]]; try contradiction; try discriminate;
    revert Hb; cbv; intuition discriminate.
Qed.

Lemma word_label_no_bracket (x : str) : word_label x = true -> ~ In 91%N x.
Proof.
  intros H. apply word_label_spec in H as [_ H]. now apply word_not_in.
Qed.

Lemma suffix_has_last (A : Type) (a l X : list A) (c : A) :
  a ++ l = X ++ [c] -> l <> [] -> In c l.
Proof.
  intros E Hl. destruct (exists_last Hl) as (l0 & z & ->).
  rewrite app_assoc in E. apply app_inj_tail in E as [_ ->].
  apply in_app_iff. right. now left.
Qed.

Lemma new_select_ends (regions : list str) :
  exists X, new_select regions = X ++ [62%N].
Proof.
  unfold new_select.
  exists (litq "<select class='area-select' id='areaSelect'>" ++ nl :: spaces 20
          ++ region_options regions ++ nl :: spaces 16 ++ lit "</select").
  rewrite <- !app_assoc. cbn [app]. rewrite <- !app_assoc. reflexivity.
Qed.

Lemma new_select_starts (regions : list str) :
  exists X, new_select regions = 60%N :: X.
Proof. unfold new_select. now eexists. Qed.

(** No statement starts before the one written: not in the text before
    the new block, not in the block, not in the text after it. *)
Lemma array_gap_after (pre block mid old post body : str) (regions : list str) :
  (forall u v, pre ++ block ++ mid = u ++ v -> v <> [] ->
               match_at statement_pattern (v ++ old ++ post) = None) ->
  is_statement old ->
  Forall (fun x => word_label x = true) regions ->
  forall u v, pre ++ new_select regions ++ mid = u ++ v -> v <> [] ->
              match_at array_pattern (v ++ statement_of body ++ post) = None.
Proof.
  intros Hgap (body0 & ->) Hw u v E Hv.
  destruct (match_at array_pattern (v ++ statement_of body ++ post))
    as [[g s']|] eqn:Em; [exfalso|reflexivity].
  apply array_match_some in Em as (m & Em & _ & body' & -> & _).
  (* a statement that starts in [mid] *)
  assert (Hmid : forall u', pre ++ block ++ mid = u' ++ v -> False).
  { intros u' Eu. rewrite (statement_of_eq body), <- app_assoc in Em.
    destruct (statement_start_transfer v _ body' s' body0 post Hv Em) as (body'' & E').
    pose proof (Hgap u' v Eu Hv) as Hn. rewrite E' in Hn.
    now apply (statement_match_complete body'' post). }
  destruct (new_select_starts regions) as (X1 & Es).
  destruct (new_select_ends regions) as (X2 & Ee).
  assert (Hbr : ~ In 91%N (new_select regions)).
  { apply new_select_no_bracket. eapply Forall_impl; [|exact Hw].
    apply word_label_no_bracket. }
  rewrite (statement_of_eq body') in Em.
  apply cut_cases in E as [(l & E1 & E2)|(l & Hl & E1 & E2)].
  - (* [v] starts in [pre] *)
    destruct l as [|c l].
    + cbn [app] in E2. rewrite E2, Es in Em. discriminate.
    + rewrite E2, <- !app_assoc in Em.
      apply cut_cases in Em as [(l2 & E3 & E4)|(l2 & Hl2 & E3 & E4)].
      * assert (Hn : match_at statement_pattern
                       (((c :: l) ++ block ++ mid) ++ statement_of body0 ++ post) = None).
        { apply (Hgap u); [|discriminate]. rewrite E1. now rewrite <- !app_assoc. }
        rewrite E3 in Hn.
        apply (statement_match_complete
                 (l2 ++ block ++ mid ++ lit "const dealersData = [" ++ body0) post).
        rewrite <- Hn. rewrite (statement_of_eq body0), !statement_of_eq.
        now rewrite <- !app_assoc.
      * rewrite Es in E4. destruct l2 as [|d l2]; [congruence|].
        injection E4 as <- _.
        assert (Hin : In 60%N (lit "const dealersData = ["))
          by (rewrite E3, in_app_iff; right; now left).
        revert Hin. cbv. intuition discriminate.
  - apply cut_cases in E2 as [(l' & E3 & E4)|(l' & Hl' & E3 & E4)].
    + destruct l' as [|c l'].
      * (* [v] is [mid] *)
        cbn [app] in E4. apply (Hmid (pre ++ block)). rewrite E4.
        now rewrite <- app_assoc.
      * (* [v] starts in the new block *)
        rewrite E4, <- !app_assoc in Em.
        apply cut_cases in Em as [(l3 & E5 & E6)|(l3 & Hl3 & E5 & E6)].
        -- apply Hbr. rewrite E3, in_app_iff. right. rewrite E5, in_app_iff. left.
           cbv. intuition.
        -- assert (Hin : In 62%N (c :: l')).
           { apply (suffix_has_last _ l _ X2); [|discriminate]. now rewrite <- E3. }
           assert (Hin' : In 62%N (lit "const dealersData = ["))
             by (rewrite E5, in_app_iff; now left).
           revert Hin'. cbv. intuition discriminate.
    + (* [v] starts in [mid] *)
      apply (Hmid (pre ++ block ++ l')). rewrite E4. now rewrite <- !app_assoc.
Qed.

(** ** The characters of the text [json.dumps] writes *)

Lemma escaped_from (s : str) (c : char) :
  forallb (fun c => (32 <=? c)%N && negb (c =? backslash)%N) s = true ->
  In c (flat_map escape_char s) -> In c json_punctuation \/ In c s.
Proof.
  induction s as [|x s IH]; intros Hs Hin; [contradiction|].
  cbn [forallb] in Hs. apply andb_true_iff in Hs as [Hx Hs].
  apply andb_true_iff in Hx as [H1 H2]. apply negb_true_iff, N.eqb_neq in H2.
  cbn [flat_map] in Hin. apply in_app_iff in Hin as [Hin|Hin].
  - destruct (N.eqb_spec x dq) as [->|Hq].
    + left. rewrite escape_char_quote in Hin.
      destruct Hin as [<-|[<-|[]]]; cbv; intuition.
    + rewrite (escape_char_plain x H1 H2 Hq) in Hin.
      destruct Hin as [<-|[]]. right. now left.
  - destruct (IH Hs Hin) as [H|H]; [now left|]. right. now right.
Qed.

Lemma basestring_from (s : str) (c : char) :
  clean_str s = true -> In c (encode_basestring s) -> In c json_punctuation \/ In c s.
Proof.
  intros Hs Hin. unfold encode_basestring in Hin.
  destruct Hin as [<-|Hin]; [left; cbv; intuition|].
  apply in_app_iff in Hin as [Hin|[<-|[]]]; [|left; cbv; intuition].
  now apply escaped_from; [apply clean_str_chars|].
Qed.

Lemma newline_indent_from (level : nat) (c : char) :
  In c (newline_indent level) -> In c json_punctuation.
Proof.
  unfold newline_indent, spaces. intros [<-|Hin]; [cbv; intuition|].
  apply repeat_spec in Hin. subst. cbv. intuition.
Qed.

Lemma iterencode_from (float_repr : str -> str) (v : value) :
  clean_value v = true ->
  forall level c,
  In c (iterencode float_repr level v) ->
  In c json_punctuation \/ exists s, In s (strings_of v) /\ In c s.
Proof.
  induction v as [| b | z | x | s | items IH | pairs IH] using value_induction;
    try discriminate; intros HC level c Hin.
  - destruct (basestring_from s c HC Hin) as [H|H]; [now left|].
    right. exists s. split; [now left|assumption].
  - destruct items as [|x xs].
    + left. destruct Hin as [<-|[<-|[]]]; cbv; intuition.
    + rewrite iterencode_list in Hin. cbn [clean_value] in HC.
      assert (G : forall l, Forall (fun v => clean_value v = true ->
                    forall level c, In c (iterencode float_repr level v) ->
                    In c json_punctuation \/ exists s, In s (strings_of v) /\ In c s) l ->
                  forallb clean_value l = true ->
                  In c (flat_map (fun y => lit "," ++ newline_indent (S level)
                                           ++ iterencode float_repr (S level) y) l) ->
                  In c json_punctuation
                  \/ exists s, In s (flat_map strings_of l) /\ In c s).
      { clear. induction 1 as [|y l Hy _ IHl]; intros Hl Hc; [contradiction|].
        cbn [forallb] in Hl. apply andb_true_iff in Hl as [Hy' Hl].
        cbn [flat_map] in Hc. rewrite !in_app_iff in Hc.
        destruct Hc as [[Hc|[Hc|Hc]]|Hc].
        - left. destruct Hc as [<-|[]]. cbv. intuition.
        - left. now apply newline_indent_from in Hc.
        - destruct (Hy Hy' _ _ Hc) as [H|(s & Hs & H)]; [now left|].
          right. exists s. split; [|assumption]. cbn [flat_map].
          rewrite in_app_iff. now left.
        - destruct (IHl Hl Hc) as [H|(s & Hs & H)]; [now left|].
          right. exists s. split; [|assumption]. cbn [flat_map].
          rewrite in_app_iff. now right. }
      specialize (G (x :: xs) IH HC).
      rewrite !in_app_iff in Hin.
      destruct Hin as [Hin|[Hin|[Hin|[Hin|[Hin|Hin]]]]].
      * left. destruct Hin as [<-|[]]. cbv. intuition.
      * left. now apply newline_indent_from in Hin.
      * apply G. cbn [flat_map]. rewrite !in_app_iff. left. right. now right.
      * apply G. cbn [flat_map]. rewrite !in_app_iff. now right.
      * left. now apply newline_indent_from in Hin.
      * left. destruct Hin as [<-|[]]. cbv. intuition.
  - destruct pairs as [|[k x] ps].
    + left. destruct Hin as [<-|[<-|[]]]; cbv; intuition.
    + rewrite iterencode_dict in Hin. cbn [clean_value] in HC.
      apply andb_true_iff in HC as [_ HC].
      assert (G : forall l, Forall (fun kx => clean_value (snd kx) = true ->
                    forall level c, In c (iterencode float_repr level (snd kx)) ->
                    In c json_punctuation
                    \/ exists s, In s (strings_of (snd kx)) /\ In c s) l ->
                  forallb (fun kx => clean_str (fst kx) && clean_value (snd kx)) l = true ->
                  In c (flat_map (fun ky => lit "," ++ newline_indent (S level)
                                   ++ encode_basestring (fst ky) ++ lit ": "
                                   ++ iterencode float_repr (S level) (snd ky)) l) ->
                  In c json_punctuation
                  \/ exists s, In s (flat_map (fun kx => fst kx :: strings_of (snd kx)) l)
                               /\ In c s).
      { clear. induction 1 as [|[k y] l Hy _ IHl]; intros Hl Hc; [contradiction|].
        cbn [forallb fst snd] in Hl. apply andb_true_iff in Hl as [Hy' Hl].
        apply andb_true_iff in Hy' as [Hk Hy'].
        cbn [flat_map fst snd] in Hc |- *. rewrite !in_app_iff in Hc.
        destruct Hc as [[Hc|[Hc|[Hc|[Hc|Hc]]]]|Hc].
        - left. destruct Hc as [<-|[]]. cbv. intuition.
        - left. now apply newline_indent_from in Hc.
        - destruct (basestring_from k c Hk Hc) as [H|H]; [now left|].
          right. exists k. split; [now left|assumption].
        - left. destruct Hc as [<-|[<-|[]]]; cbv; intuition.
        - destruct (Hy Hy' _ _ Hc) as [H|(s & Hs & H)]; [now left|].
          right. exists s. split; [|assumption]. right.
          rewrite in_app_iff. now left.
        - destruct (IHl Hl Hc) as [H|(s & Hs & H)]; [now left|].
          right. exists s. split; [|assumption]. right.
          rewrite in_app_iff. now right. }
      specialize (G ((k, x) :: ps) IH HC).
      rewrite !in_app_iff in Hin.
      destruct Hin as [Hin|[Hin|[Hin|[Hin|[Hin|[Hin|[Hin|Hin]]]]]]].
      * left. destruct Hin as [<-|[]]. cbv. intuition.
      * left. now apply newline_indent_from in Hin.
      * apply G. cbn [flat_map fst snd]. rewrite !in_app_iff. left. right. right. now left.
      * left. destruct Hin as [<-|[<-|[]]]; cbv; intuition.
      * apply G. cbn [flat_map fst snd]. rewrite !in_app_iff. left. do 4 right. exact Hin.
      * apply G. cbn [flat_map fst snd]. rewrite !in_app_iff. now right.
      * left. now apply newline_indent_from in Hin.
      * left. destruct Hin as [<-|[]]. cbv. intuition.
Qed.

Lemma dumps_lacks (float_repr : str -> str) (v : value) (c : char) :
  clean_value v = true -> strings_lack c v = true -> ~ In c json_punctuation ->
  ~ In c (json_dumps float_repr v).
Proof.
  intros HC HL Hp Hin.
  destruct (iterencode_from float_repr v HC 0 c Hin) as [H|(s & Hs & H)];
    [now apply Hp|].
  unfold strings_lack in HL. rewrite forallb_forall in HL.
  specialize (HL s Hs). apply negb_true_iff in HL.
  assert (existsb (N.eqb c) s = true); [|congruence].
  apply existsb_exists. exists c. split; [assumption|apply N.eqb_refl].
Qed.

Lemma no_option_start_plain (a : str) : ~ In 60%N a -> no_option_start a = true.
Proof.
  induction a as [|c t IH]; intros H; [reflexivity|].
  cbn [no_option_start]. rewrite IH by (intros Hin; apply H; now right).
  destruct (N.eqb_spec c 60) as [->|Hc]; [exfalso; apply H; now left|reflexivity].
Qed.

(** The clean-up leaves the text of a clean value alone when none of its
    strings holds the first character of a garbled symbol. *)
Lemma clean_up_dumps (float_repr : str -> str) (v : value) :
  clean_value v = true ->
  forallb no_garbled_start (strings_of v) = true ->
  clean_up (json_dumps float_repr v) = Some (json_dumps float_repr v).
Proof.
  intros HC HG.
  pose proof (nice_iterencode float_repr v HC 0 [] nice_nil) as Hnice.
  rewrite app_nil_r in Hnice. fold (json_dumps float_repr v) in Hnice.
  unfold clean_up. rewrite (quote_keys_nothing _ 91%N (nice_pairs _ Hnice _)).
  cbn [and_then].
  assert (H : forall c, (c = 226 \/ c = 240)%N -> ~ In c (json_dumps float_repr v)).
  { intros c Hc Hin.
    destruct (iterencode_from float_repr v HC 0 c Hin) as [Hp|(s & Hs & Hcs)].
    - clear - Hc Hp. revert Hp. destruct Hc as [-> | ->]; cbv; intuition discriminate.
    - rewrite forallb_forall in HG. specialize (HG s Hs).
      unfold no_garbled_start in HG. apply negb_true_iff in HG.
      assert (existsb (fun c => (c =? 226)%N || (c =? 240)%N) s = true); [|congruence].
      apply existsb_exists. exists c. split; [assumption|].
      destruct Hc as [-> | ->]; reflexivity. }
  apply fix_symbols_nothing; apply H; auto.
Qed.

(** ** The round trip of the whole document *)

Lemma written_document
      (float_repr : str -> str) (html pre block mid old post : str)
      (records : list value) (regions : list str) :
  laid_out html pre block mid old post ->
  plain_dealers records = true ->
  Forall (fun x => word_label x = true) regions ->
  exists written,
    update_dealers_in_html float_repr html (VList records)
    = (pre ++ block ++ mid ++ written ++ post, [])
    /\ update_regions_in_html (pre ++ block ++ mid ++ written ++ post) regions
       = (pre ++ new_select regions ++ mid ++ written ++ post, [])
    /\ extract_dealers_data (pre ++ new_select regions ++ mid ++ written ++ post)
       = (VList records, [])
    /\ extract_regions (pre ++ new_select regions ++ mid ++ written ++ post)
       = sorted regions.
Proof.
  intros (Hsel & Hst & Hp1 & Hp2 & Hp3) Hd Hw.
  unfold plain_dealers in Hd.
  apply andb_true_iff in Hd as [Hd Hg]. apply andb_true_iff in Hd as [HC Hlt].
  assert (HCv : clean_value (VList records) = true) by exact HC.
  set (T := json_dumps float_repr (VList records)).
  set (N := lit "const dealersData = " ++ T ++ lit ";").
  exists N.
  (* the text written *)
  pose proof (nice_iterencode float_repr (VList records) HCv 0 [] nice_nil) as Hnice.
  rewrite app_nil_r in Hnice. fold (json_dumps float_repr (VList records)) in Hnice.
  fold T in Hnice.
  destruct (list_text_shape float_repr records) as (body & ET). fold T in ET.
  assert (EN : N = statement_of body).
  { unfold N. rewrite ET. unfold statement_of. now rewrite <- !app_assoc. }
  assert (Hpairs : pairs_ok 91%N (body ++ lit "]") = true).
  { pose proof (nice_pairs _ Hnice 91%N) as Hp. rewrite ET in Hp.
    change (lit "[" ++ body ++ lit "]") with (91%N :: body ++ lit "]") in Hp.
    cbn [pairs_ok] in Hp. now apply andb_true_iff in Hp as [_ Hp]. }
  assert (HN1 : N = 99%N :: 111%N :: (lit "nst dealersData = " ++ T ++ lit ";"))
    by reflexivity.
  assert (HN2 : ~ In 60%N N).
  { unfold N. rewrite !in_app_iff. intros [H|[H|H]].
    - revert H. cbv. intuition discriminate.
    - revert H. apply dumps_lacks; [assumption|assumption|].
      cbv. intuition discriminate.
    - revert H. cbv. intuition discriminate. }
  (* the document, cut as the scans cut it *)
  pose proof Hst as Hst'. unfold one_statement in Hst'.
  apply (finditer_one_inv _ _ statement_match_some) in Hst'
    as (Ehtml & Hgap & Hm & _).
  assert (Hold : is_statement old).
  { apply statement_match_some in Hm as (m & Em & _ & Hm & _).
    apply app_inv_tail in Em. now subst m. }
  split.
  { rewrite (update_dealers_one_statement float_repr _ _ _ _ records Hst HC).
    fold T. fold N. now rewrite <- !app_assoc. }
  assert (Hsel' : one_select_block (pre ++ block ++ mid ++ N ++ post)
                                   pre block (mid ++ N ++ post)).
  { apply (one_select_block_after pre block mid old post N _ HN1 HN2).
    rewrite Ehtml in Hsel. now rewrite <- !app_assoc in Hsel. }
  split.
  { apply (update_regions_one_block _ _ _ _ _ Hsel').
    eapply Forall_impl; [|exact Hw]. apply word_label_no_backslash. }
  split.
  - (* the dealers *)
    unfold extract_dealers_data, re_search.
    replace (pre ++ new_select regions ++ mid ++ N ++ post)
      with ((pre ++ new_select regions ++ mid) ++ statement_of body ++ post)
      by (rewrite EN; now rewrite <- !app_assoc).
    rewrite (finditer_gaps_prefix array_pattern (pre ++ new_select regions ++ mid)
               (statement_of body ++ post)
               (array_gap_after pre block mid old post body regions Hgap Hold Hw)).
    rewrite first_hit_gaps.
    rewrite (finditer_hit _ _ array_match_some _ _ _
               (array_match_statement body post 91%N Hpairs)).
    cbn [first_hit group1]. rewrite <- ET. unfold T.
    rewrite (clean_up_dumps float_repr _ HCv Hg). cbn [and_then].
    now rewrite (json_loads_dumps float_repr _ HCv).
  - (* the regions *)
    rewrite (extract_regions_no_start _ _ Hp1).
    rewrite (extract_regions_new_select _ _ Hw).
    rewrite (extract_regions_no_start _ _ Hp2).
    rewrite (extract_regions_no_start _ _ (no_option_start_plain _ HN2)).
    rewrite <- (app_nil_r post), (extract_regions_no_start _ _ Hp3).
    apply app_nil_r.
Qed.

(** X15. On a document with one selection block and, after it, one
    statement, and no option outside the block, writing the dealers and
    then the regions gives a document from which [extract_dealers_data]
    reads the dealers back, reporting nothing, and [extract_regions] the
    regions, sorted: for word labels and for dealers that are clean
    values whose strings hold neither [<] nor the first character of a
    garbled symbol. *)
Theorem document_round_trip
        (float_repr : str -> str) (html pre block mid old post : str)
        (records : list value) (regions : list str) :
  laid_out html pre block mid old post ->
  plain_dealers records = true ->
  Forall (fun x => word_label x = true) regions ->
  extract_dealers_data
    (fst (update_regions_in_html
            (fst (update_dealers_in_html float_repr html (VList records))) regions))
  = (VList records, [])
  /\ extract_regions
       (fst (update_regions_in_html
               (fst (update_dealers_in_html float_repr html (VList records))) regions))
     = sorted regions.
Proof.
  intros Hl Hd Hw.
  destruct (written_document float_repr _ _ _ _ _ _ _ _ Hl Hd Hw)
    as (written & -> & E2 & E3 & E4).
  cbn [fst]. rewrite E2. cbn [fst]. now split.
Qed.

(** ** Saving, then loading what was saved *)

(** X16. A save that GitHub accepts, then a load that is served what was
    sent, gives the page the dealers it had and its regions, sorted; the
    document of the page is the one that was sent, the sha is the one
    served, and the unsaved flag is down. This for a document laid out
    with one selection block and then one statement, regions that are
    word labels and dealers that are plain. *)
Theorem save_then_load
        (float_repr : str -> str) (branch : str)
        (accepted : list (str * value) -> bool)
        (p : page) (commit_message pre block mid old post sent : str)
        (data : list (str * value)) (body sha1 : value) :
  laid_out (html_content p) pre block mid old post ->
  plain_dealers (dealers (forms p)) = true ->
  Forall (fun x => word_label x = true) (regions p) ->
  update_request branch (fst (updated_html float_repr p)) (sha p) commit_message
  = Some data ->
  accepted data = true ->
  dict_get data (lit "content") = Some (VStr sent) ->
  carries body sent sha1 ->
  dealers (forms (load (save float_repr branch accepted p commit_message) (Some body)))
  = dealers (forms p)
  /\ regions (load (save float_repr branch accepted p commit_message) (Some body))
     = sorted (regions p)
  /\ html_content (load (save float_repr branch accepted p commit_message) (Some body))
     = fst (updated_html float_repr p)
  /\ sha (load (save float_repr branch accepted p commit_message) (Some body)) = sha1
  /\ changes_made
       (forms (load (save float_repr branch accepted p commit_message) (Some body)))
     = false.
Proof.
  intros Hl Hd Hw Hreq Hacc Hsent (text & Hc & Ha & Hf & Hs).
  destruct (written_document float_repr _ _ _ _ _ _ _ _ Hl Hd Hw)
    as (written & E1 & E2 & E3 & E4).
  assert (Eu : updated_html float_repr p
               = (pre ++ new_select (regions p) ++ mid ++ written ++ post, [])).
  { unfold updated_html. rewrite E1, E2. reflexivity. }
  rewrite Eu in Hreq |- *. cbn [fst] in Hreq |- *.
  destruct (update_request_content _ _ _ _ _ _ Hreq Hsent) as (raw & Er & ->).
  unfold save. rewrite Eu. unfold update_file. rewrite Hreq, Hacc.
  unfold load. cbn [html_content sha regions forms notices].
  rewrite (get_file_decodes _ text raw body sha1 Er Hc Ha Hf Hs).
  assert (Et : truthy (pre ++ new_select (regions p) ++ mid ++ written ++ post) = true).
  { unfold truthy. apply negb_true_iff, str_eqb_nil.
    destruct (new_select_starts (regions p)) as (X & ->). now destruct pre. }
  rewrite Et, E3, E4. cbn [html_content sha regions forms dealers changes_made items_of].
  repeat split.
Qed.

(** ** Writing the dealers twice *)

Lemma statement_match_exact (body rest : str) (prev : char) :
  pairs_ok prev (body ++ lit "]") = true ->
  match_at statement_pattern (statement_of body ++ rest) = Some (None, rest).
Proof.
  intros Hp. unfold match_at, statement_pattern, statement_of, r_seq.
  rewrite <- !app_assoc, !r_lit_app.
  apply r_star_lazy_first.
  - now rewrite !r_lit_app.
  - intros u v -> Hv.
    destruct (r_lit (lit "]") (v ++ lit "]" ++ lit ";" ++ rest) None _) eqn:E;
      [|reflexivity].
    exfalso. apply r_lit_some in E as (s4 & E1 & E).
    apply r_lit_some in E as (s5 & -> & _).
    destruct v as [|c v]; [congruence|].
    change (lit "]" ++ lit ";" ++ s5) with (93%N :: 59%N :: s5) in E1.
    cbn [app] in E1. injection E1 as -> E1.
    destruct v as [|c v]; cbn [app] in E1.
    + discriminate.
    + injection E1 as -> _.
      rewrite <- app_assoc in Hp. cbn [app] in Hp.
      apply pairs_ok_mid in Hp. discriminate.
Qed.

Lemma substitute_relabel (N m : str) (ps : list piece) :
  substitute (map TChar N) (relabel m ps) = substitute (map TChar N) ps.
Proof.
  unfold substitute, relabel. induction ps as [|[c|w g] ps IH]; cbn [map flat_map].
  - reflexivity.
  - now rewrite IH.
  - now rewrite !expand_plain, IH.
Qed.

(** The scan of a document in which a clean statement was put in place
    of every statement finds that statement at the same places, and
    nothing else. *)
Lemma rescan_statements (body : str) (n : nat) :
  pairs_ok 91%N (body ++ lit "]") = true ->
  forall html, length html <= n ->
  finditer statement_pattern 0
    (substitute (map TChar (statement_of body)) (finditer statement_pattern 0 html))
  = relabel (statement_of body) (finditer statement_pattern 0 html).
Proof.
  intros Hp. induction n as [|n IH]; intros html Hn.
  - destruct html; [|cbn [length] in Hn; lia]. reflexivity.
  - destruct html as [|c t]; [reflexivity|].
    destruct (match_at statement_pattern (c :: t)) as [[g s']|] eqn:Em.
    + destruct (statement_match_some _ _ _ Em) as (m & Es & Hm & _ & ->).
      rewrite Es in Em |- *.
      rewrite (finditer_hit _ _ statement_match_some _ _ _ Em).
      unfold substitute, relabel. cbn [flat_map map]. rewrite expand_plain.
      fold (substitute (map TChar (statement_of body)) (finditer statement_pattern 0 s')).
      fold (relabel (statement_of body) (finditer statement_pattern 0 s')).
      rewrite (finditer_hit _ _ statement_match_some _ _ _
                 (statement_match_exact body _ 91%N Hp)).
      f_equal. apply IH.
      apply (f_equal (@length char)) in Es. rewrite length_app in Es.
      cbn [length] in Es, Hn. destruct m; [congruence|cbn [length] in Es; lia].
    + rewrite (finditer_gap _ _ _ Em).
      unfold substitute, relabel. cbn [flat_map map app].
      fold (substitute (map TChar (statement_of body)) (finditer statement_pattern 0 t)).
      fold (relabel (statement_of body) (finditer statement_pattern 0 t)).
      assert (En : match_at statement_pattern
                     (c :: substitute (map TChar (statement_of body))
                                      (finditer statement_pattern 0 t)) = None).
      { destruct (first_hit (finditer statement_pattern 0 t)) as [[w g]|] eqn:Ef.
        - destruct (first_hit_split (finditer statement_pattern 0 t))
            as (pre & old & g' & ps2 & Eps); [congruence|].
          assert (Hold : is_statement old).
          { assert (Hin : In (Hit old g') (finditer statement_pattern 0 t))
              by (rewrite Eps, in_app_iff; right; now left).
            now destruct (finditer_hits _ _ statement_match_some _ _ _ _ Hin)
              as [[H _] _]. }
          destruct Hold as (body0 & ->).
          assert (Et : t = pre ++ statement_of body0 ++ source_of ps2).
          { pose proof (finditer_source _ _ statement_match_some t 0 ltac:(lia)) as Hs.
            rewrite Eps, source_gaps in Hs. cbn [skipn] in Hs. rewrite <- Hs.
            reflexivity. }
          rewrite Eps, substitute_gaps. unfold substitute at 1. cbn [flat_map].
          rewrite expand_plain.
          fold (substitute (map TChar (statement_of body)) ps2).
          destruct (match_at statement_pattern
                      (c :: pre ++ statement_of body ++ substitute _ ps2))
            as [[g2 s2]|] eqn:E2; [exfalso|reflexivity].
          apply statement_match_some in E2 as (m2 & E2 & _ & (body2 & ->) & _).
          rewrite (statement_of_eq body), <- app_assoc in E2.
          destruct (statement_start_transfer (c :: pre) _ body2 s2 body0 (source_of ps2)
                      ltac:(discriminate) E2) as (body3 & E3).
          apply (statement_match_complete body3 (source_of ps2)).
          rewrite <- E3. cbn [app]. now rewrite <- Et.
        - rewrite substitute_no_hit by now apply first_hit_none.
          now rewrite (finditer_source _ _ statement_match_some) by lia. }
      rewrite (finditer_gap _ _ _ En). f_equal. apply IH. cbn [length] in Hn. lia.
Qed.

(** X17. Writing dealers onto a document on which dealers were written
    gives what writing them onto the first document gives: the last
    write wins, and writing the same dealers twice changes nothing more.
    This for dealers that are clean values. *)
Theorem update_dealers_last_write_wins
        (float_repr : str -> str) (html : str) (first second : list value) :
  forallb clean_value first = true ->
  forallb clean_value second = true ->
  update_dealers_in_html float_repr
    (fst (update_dealers_in_html float_repr html (VList first))) (VList second)
  = update_dealers_in_html float_repr html (VList second).
Proof.
  intros H1 H2.
  assert (G : forall records, forallb clean_value records = true ->
            exists body,
              pairs_ok 91%N (body ++ lit "]") = true
              /\ forall doc,
                   update_dealers_in_html float_repr doc (VList records)
                   = (substitute (map TChar (statement_of body))
                                 (finditer statement_pattern 0 doc), [])).
  { intros records HC.
    assert (HCv : clean_value (VList records) = true) by exact HC.
    pose proof (nice_iterencode float_repr (VList records) HCv 0 [] nice_nil) as Hnice.
    rewrite app_nil_r in Hnice. fold (json_dumps float_repr (VList records)) in Hnice.
    destruct (list_text_shape float_repr records) as (body & ET).
    exists body. split.
    - pose proof (nice_pairs _ Hnice 91%N) as Hp. rewrite ET in Hp.
      change (lit "[" ++ body ++ lit "]") with (91%N :: body ++ lit "]") in Hp.
      cbn [pairs_ok] in Hp. now apply andb_true_iff in Hp as [_ Hp].
    - intros doc. unfold update_dealers_in_html, re_sub.
      assert (Enew : lit "const dealersData = " ++ json_dumps float_repr (VList records)
                     ++ lit ";" = statement_of body).
      { rewrite ET. unfold statement_of. now rewrite <- !app_assoc. }
      rewrite Enew.
      assert (Hplain : plain_template (statement_of body) = true).
      { rewrite <- Enew. rewrite plain_template_app by reflexivity.
        now rewrite plain_template_app by (apply nice_plain, Hnice). }
      now rewrite (parse_template_copies _ _ Hplain). }
  destruct (G first H1) as (b1 & Hp1 & E1). destruct (G second H2) as (b2 & _ & E2).
  rewrite E1, !E2. cbn [fst].
  rewrite (rescan_statements b1 (length html) Hp1 html (le_n _)).
  now rewrite substitute_relabel.
Qed.

(** ** Writing the regions twice *)

Lemma no_close_start_app (a b : str) :
  no_close_start a = true -> no_close_start (a ++ b) = no_close_start b.
Proof.
  induction a as [|c t IH]; intros H; [reflexivity|].
  cbn [no_close_start] in H. apply andb_true_iff in H as [Hc Ht].
  cbn [app no_close_start]. rewrite (IH Ht).
  destruct (c =? 60)%N; cbn [negb orb] in *; [|reflexivity].
  destruct t as [|x t']; [discriminate|]. cbn [app].
  destruct (x =? 47)%N; cbn [negb orb] in *; [|reflexivity].
  destruct t' as [|y t'']; [discriminate|]. cbn [app]. now rewrite Hc.
Qed.

Lemma no_close_start_plain (a : str) : ~ In 60%N a -> no_close_start a = true.
Proof.
  induction a as [|c t IH]; intros H; [reflexivity|].
  cbn [no_close_start]. rewrite IH by (intros Hin; apply H; now right).
  destruct (N.eqb_spec c 60) as [->|Hc]; [exfalso; apply H; now left|reflexivity].
Qed.

Lemma word_label_no_lt (x : str) : word_label x = true -> ~ In 60%N x.
Proof.
  intros H. apply word_label_spec in H as [_ H]. now apply word_not_in.
Qed.

Lemma no_close_start_option (x : str) :
  word_label x = true -> no_close_start (region_option x) = true.
Proof.
  intros H. apply word_label_no_lt, no_close_start_plain in H.
  unfold region_option.
  rewrite no_close_start_app by reflexivity.
  rewrite no_close_start_app by assumption.
  rewrite no_close_start_app by reflexivity.
  now rewrite no_close_start_app by assumption.
Qed.

Lemma no_close_start_body (regions : list str) :
  Forall (fun x => word_label x = true) regions ->
  no_close_start (new_select_body regions) = true.
Proof.
  intros H. apply sorted_forall in H.
  unfold new_select_body, region_options. rewrite join_cons_map.
  change (nl :: spaces 20 ++ (placeholder_option ++ flat_map
            (fun x => (nl :: spaces 20) ++ region_option x) (sorted regions))
          ++ nl :: spaces 16)
    with ((nl :: spaces 20) ++ (placeholder_option ++ flat_map
            (fun x => (nl :: spaces 20) ++ region_option x) (sorted regions))
          ++ nl :: spaces 16).
  rewrite no_close_start_app by reflexivity.
  rewrite <- app_assoc. rewrite no_close_start_app by reflexivity.
  induction H as [|x l Hx Hl IH]; [reflexivity|].
  cbn [flat_map]. rewrite <- !app_assoc.
  rewrite no_close_start_app by reflexivity.
  now rewrite no_close_start_app by now apply no_close_start_option.
Qed.

Lemma no_close_start_suffix (u v : str) :
  no_close_start (u ++ v) = true -> no_close_start v = true.
Proof.
  induction u as [|c u IH]; intros H; [assumption|].
  cbn [app no_close_start] in H. apply andb_true_iff in H as [_ H]. now apply IH.
Qed.

Lemma closes_first_body (body : str) :
  no_close_start body = true -> closes_first body.
Proof.
  intros H u v -> Hv (z & E).
  apply no_close_start_suffix in H.
  destruct v as [|c v]; [congruence|].
  unfold select_close in E.
  change (lit "</select>") with (60%N :: 47%N :: 115%N :: lit "elect>") in E.
  cbn [app] in E. injection E as -> E.
  cbn [no_close_start] in H. apply andb_true_iff in H as [H _].
  cbn [N.eqb Pos.eqb negb orb] in H.
  destruct v as [|x v]; [discriminate|].
  cbn [app] in E. injection E as -> E.
  cbn [N.eqb Pos.eqb negb orb] in H.
  destruct v as [|y v]; [discriminate|].
  cbn [app] in E. injection E as -> E. discriminate.
Qed.

Lemma new_select_block (regions : list str) :
  new_select regions = select_block_of (new_select_body regions).
Proof.
  unfold new_select, select_block_of, new_select_body, select_open.
  cbn [app]. rewrite <- !app_assoc. reflexivity.
Qed.

(** A selection block that starts in the text before a new block starts
    there whatever block stands after the text. *)
Lemma select_start_before (v body0 body1 R R' : str) :
  v <> [] ->
  match_at select_pattern (v ++ select_block_of body1 ++ R') <> None ->
  match_at select_pattern (v ++ select_block_of body0 ++ R) <> None.
Proof.
  intros Hv H.
  destruct (match_at select_pattern (v ++ select_block_of body1 ++ R'))
    as [[g s']|] eqn:E; [clear H|congruence].
  apply select_match_some in E as (m & E & _ & (x & ->) & _).
  unfold select_block_of in E at 2. rewrite <- app_assoc in E.
  apply cut_cases in E as [(l & E1 & E2)|(l & Hl & E1 & E2)].
  - replace (v ++ select_block_of body0 ++ R)
      with (select_block_of (l ++ select_open ++ body0) ++ R);
      [apply select_match_complete|].
    rewrite E1. unfold select_block_of. now rewrite <- !app_assoc.
  - exfalso. destruct v as [|c v]; [congruence|].
    assert (Hin : In 60%N (tl select_open)).
    { rewrite E1. cbn [app tl]. rewrite in_app_iff. right.
      destruct l as [|d l]; [congruence|].
      unfold select_block_of, select_open in E2. injection E2 as <- _. now left. }
    clear - Hin. revert Hin. cbv. intuition discriminate.
Qed.

(** The scan of a document in which the new block was put in place of
    every selection block finds that block at the same places, and
    nothing else. *)
Lemma rescan_selects (body : str) (n : nat) :
  closes_first body ->
  forall html, length html <= n ->
  finditer select_pattern 0
    (substitute (map TChar (select_block_of body)) (finditer select_pattern 0 html))
  = relabel (select_block_of body) (finditer select_pattern 0 html).
Proof.
  intros Hc. induction n as [|n IH]; intros html Hn.
  - destruct html; [|cbn [length] in Hn; lia]. reflexivity.
  - destruct html as [|c t]; [reflexivity|].
    destruct (match_at select_pattern (c :: t)) as [[g s']|] eqn:Em.
    + destruct (select_match_some _ _ _ Em) as (m & Es & Hm & _ & ->).
      rewrite Es in Em |- *.
      rewrite (finditer_hit _ _ select_match_some _ _ _ Em).
      unfold substitute, relabel. cbn [flat_map map]. rewrite expand_plain.
      fold (substitute (map TChar (select_block_of body)) (finditer select_pattern 0 s')).
      fold (relabel (select_block_of body) (finditer select_pattern 0 s')).
      rewrite (finditer_hit _ _ select_match_some _ _ _
                 (select_match_exact body _ Hc)).
      f_equal. apply IH.
      apply (f_equal (@length char)) in Es. rewrite length_app in Es.
      cbn [length] in Es, Hn. destruct m; [congruence|cbn [length] in Es; lia].
    + rewrite (finditer_gap _ _ _ Em).
      unfold substitute, relabel. cbn [flat_map map app].
      fold (substitute (map TChar (select_block_of body)) (finditer select_pattern 0 t)).
      fold (relabel (select_block_of body) (finditer select_pattern 0 t)).
      assert (En : match_at select_pattern
                     (c :: substitute (map TChar (select_block_of body))
                                      (finditer select_pattern 0 t)) = None).
      { destruct (first_hit (finditer select_pattern 0 t)) as [[w g]|] eqn:Ef.
        - destruct (first_hit_split (finditer select_pattern 0 t))
            as (pre & old & g' & ps2 & Eps); [congruence|].
          assert (Hold : is_select_block old).
          { assert (Hin : In (Hit old g') (finditer select_pattern 0 t))
              by (rewrite Eps, in_app_iff; right; now left).
            now destruct (finditer_hits _ _ select_match_some _ _ _ _ Hin)
              as [[H _] _]. }
          destruct Hold as (body0 & ->).
          assert (Et : t = pre ++ select_block_of body0 ++ source_of ps2).
          { pose proof (finditer_source _ _ select_match_some t 0 ltac:(lia)) as Hs.
            rewrite Eps, source_gaps in Hs. cbn [skipn] in Hs. rewrite <- Hs.
            reflexivity. }
          rewrite Eps, substitute_gaps. unfold substitute at 1. cbn [flat_map].
          rewrite expand_plain.
          fold (substitute (map TChar (select_block_of body)) ps2).
          destruct (match_at select_pattern
                      (c :: pre ++ select_block_of body ++ substitute _ ps2))
            as [[g2 s2]|] eqn:E2; [exfalso|reflexivity].
          apply (select_start_before (c :: pre) body0 body (source_of ps2)
                   (substitute (map TChar (select_block_of body)) ps2));
            [discriminate| |].
          + cbn [app]. now rewrite E2.
          + cbn [app]. now rewrite <- Et.
        - rewrite substitute_no_hit by now apply first_hit_none.
          now rewrite (finditer_source _ _ select_match_some) by lia. }
      rewrite (finditer_gap _ _ _ En). f_equal. apply IH. cbn [length] in Hn. lia.
Qed.

(** X18. Writing regions onto a document on which regions were written
    gives what writing them onto the first document gives: the last
    write wins, and writing the same regions twice changes nothing more.
    This when the regions written first are word labels and those written
    last hold no backslash. *)
Theorem update_regions_last_write_wins (html : str) (first second : list str) :
  Forall (fun x => word_label x = true) first ->
  Forall (fun x => ~ In backslash x) second ->
  update_regions_in_html (fst (update_regions_in_html html first)) second
  = update_regions_in_html html second.
Proof.
  intros H1 H2.
  assert (H1' : Forall (fun x => ~ In backslash x) first)
    by (eapply Forall_impl; [|exact H1]; apply word_label_no_backslash).
  unfold update_regions_in_html, re_sub.
  rewrite !parse_template_plain by now apply new_select_no_backslash.
  cbn [fst]. rewrite (new_select_block first).
  rewrite (rescan_selects _ (length html)
             (closes_first_body _ (no_close_start_body _ H1)) html (le_n _)).
  now rewrite substitute_relabel.
Qed.

(** ** What was fetched can be sent *)

Lemma add_code_some (c : char) (r : option str) (s : str) :
  add_code c r = Some s -> exists s', r = Some s' /\ s = c :: s'.
Proof.
  destruct r as [s'|]; cbn [add_code option_map]; [|discriminate].
  intros H. injection H as <-. now exists s'.
Qed.

Lemma in_range_spec (lo hi c : N) :
  in_range lo hi c = true -> (lo <= c /\ c <= hi)%N.
Proof.
  unfold in_range. intros H. apply andb_true_iff in H as [H1 H2].
  now rewrite N.leb_le in H1, H2.
Qed.

Lemma is_scalar_spec (c : char) :
  ((c < 55296)%N \/ (57343 < c /\ c < 1114112)%N) -> is_scalar c = true.
Proof.
  intros H. unfold is_scalar, in_range. apply andb_true_iff. split.
  - apply N.ltb_lt. lia.
  - apply negb_true_iff, andb_false_iff.
    destruct H as [H|H]; [left; apply N.leb_gt; lia|right; apply N.leb_gt; lia].
Qed.

Lemma utf8_decode_scalar (n : nat) :
  forall b s, length b <= n -> utf8_decode b = Some s -> forallb is_scalar s = true.
Proof.
  induction n as [|n IH]; intros b s Hn H.
  - destruct b; [|cbn [length] in Hn; lia]. injection H as <-. reflexivity.
  - destruct b as [|b0 t]; [injection H as <-; reflexivity|].
    cbn [length] in Hn. cbn [utf8_decode] in H.
    destruct (b0 <? 128)%N eqn:E0.
    { apply N.ltb_lt in E0. apply add_code_some in H as (s' & H & ->).
      cbn [forallb]. rewrite (IH t s') by (assumption || lia).
      rewrite is_scalar_spec by lia. reflexivity. }
    destruct (in_range 194%N 223%N b0) eqn:E1.
    { apply in_range_spec in E1. destruct t as [|b1 t1]; [discriminate|].
      destruct (is_cont b1) eqn:C1; [|discriminate].
      apply in_range_spec in C1. apply add_code_some in H as (s' & H & ->).
      cbn [length] in Hn. cbn [forallb]. rewrite (IH t1 s') by (assumption || lia).
      rewrite is_scalar_spec by (unfold cont_val; lia). reflexivity. }
    destruct (in_range 224%N 239%N b0) eqn:E2.
    { apply in_range_spec in E2. destruct t as [|b1 [|b2 t2]]; try discriminate.
      destruct (in_range _ _ b1 && is_cont b2) eqn:C; [|discriminate].
      apply andb_true_iff in C as [C1 C2].
      apply in_range_spec in C1, C2. apply add_code_some in H as (s' & H & ->).
      cbn [length] in Hn. cbn [forallb]. rewrite (IH t2 s') by (assumption || lia).
      rewrite is_scalar_spec; [reflexivity|].
      unfold cont_val.
      destruct (N.eqb_spec b0 224) as [Ea|Ea]; destruct (N.eqb_spec b0 237) as [Eb|Eb];
        lia. }
    destruct (in_range 240%N 244%N b0) eqn:E3; [|discriminate].
    apply in_range_spec in E3. destruct t as [|b1 [|b2 [|b3 t3]]]; try discriminate.
    destruct (in_range _ _ b1 && is_cont b2 && is_cont b3) eqn:C; [|discriminate].
    apply andb_true_iff in C as [C C3]. apply andb_true_iff in C as [C1 C2].
    apply in_range_spec in C1, C2, C3. apply add_code_some in H as (s' & H & ->).
    cbn [length] in Hn. cbn [forallb]. rewrite (IH t3 s') by (assumption || lia).
    rewrite is_scalar_spec; [reflexivity|].
    unfold cont_val.
    destruct (N.eqb_spec b0 240) as [Ea|Ea]; destruct (N.eqb_spec b0 244) as [Eb|Eb];
      lia.
Qed.

(** X19. A document [get_file] returned holds no surrogate: the request
    that sends it back as it is can always be built. *)
Theorem fetched_document_can_be_sent
        (response : option value) (content branch commit_message : str)
        (sha1 sha0 : value) (told : list notice) :
  get_file response = (Some (content, sha1), told) ->
  forallb is_scalar content = true
  /\ exists data, update_request branch content sha0 commit_message = Some data.
Proof.
  unfold get_file, and_then. intros H.
  destruct response as [body|]; [|discriminate].
  destruct (getitem body (lit "content")) as [c|]; [|discriminate].
  destruct (match c with VStr text => b64decode text | _ => None end) as [raw|];
    [|discriminate].
  destruct (utf8_decode raw) as [s|] eqn:Ed; [|discriminate].
  destruct (getitem body (lit "sha")) as [s1|]; [|discriminate].
  injection H as <- <- <-.
  pose proof (utf8_decode_scalar (length raw) raw s (le_n _) Ed) as Hs.
  split; [assumption|].
  apply utf8_encode_scalar in Hs as (b & Eb).
  unfold update_request, and_then. rewrite Eb. now eexists.
Qed.

(** ** The edit form changes one dealer *)

Lemma list_set_length (A : Type) (l : list A) (i : nat) (x : A) :
  length (list_set l i x) = length l.
Proof.
  revert i. induction l as [|y l IH]; intros [|i]; cbn [list_set length]; auto.
Qed.

Lemma nth_error_list_set (A : Type) (l : list A) (i j : nat) (x : A) :
  nth_error (list_set l i x) j
  = if Nat.eqb i j then option_map (fun _ => x) (nth_error l j) else nth_error l j.
Proof.
  revert i j. induction l as [|y l IH]; intros [|i] [|j]; cbn [list_set nth_error Nat.eqb];
    try reflexivity.
  - now destruct (Nat.eqb i j).
  - apply IH.
Qed.

(** X20. Saving the edit form changes the dealer it was opened for and no
    other: the list keeps its length and every other dealer its place,
    and the form is closed. *)
Theorem submit_edit_changes_one
        (st st' : session) (idx : nat)
        (edit_name edit_contact edit_rating : str) (edit_regions : list str)
        (rows : list (str * str)) :
  editing_dealer st = Some idx ->
  submit_edit st edit_name edit_contact edit_rating edit_regions rows = Some st' ->
  length (dealers st') = length (dealers st)
  /\ nth_error (dealers st') idx
     = Some (dealer_record edit_name edit_contact edit_rating edit_regions
                           (collect_paddy rows))
  /\ (forall j, j <> idx -> nth_error (dealers st') j = nth_error (dealers st) j)
  /\ editing_dealer st' = None /\ changes_made st' = true.
Proof.
  unfold submit_edit. intros -> H.
  destruct (nth_error (dealers st) idx) as [d|] eqn:E; [|discriminate].
  injection H as <-. cbn [dealers editing_dealer changes_made].
  repeat split.
  - apply list_set_length.
  - rewrite nth_error_list_set, Nat.eqb_refl, E. reflexivity.
  - intros j Hj. rewrite nth_error_list_set.
    destruct (Nat.eqb_spec idx j); [congruence|reflexivity].
Qed.

(** ** Bare keys *)

Lemma key_match_inv (s : str) (g : caps) (s' : str) :
  match_at key_pattern s = Some (g, s') ->
  exists w, s = w ++ 58%N :: s' /\ word_label w = true /\ g = Some w.
Proof.
  unfold match_at, key_pattern, r_seq, r_group, r_plus_greedy. intros H.
  destruct s as [|c t]; [discriminate|].
  destruct (is_word c) eqn:Hc; [|discriminate].
  apply r_star_greedy_some in H as (w & s2 & -> & Hw & H).
  change (c :: w ++ s2) with ((c :: w) ++ s2) in H.
  rewrite firstn_consumed in H.
  apply r_lit_some in H as (s3 & -> & H). injection H as <- <-.
  exists (c :: w). split; [|split; [|reflexivity]].
  - reflexivity.
  - unfold word_label. cbn [str_eqb negb forallb andb]. now rewrite Hc, Hw.
Qed.

Lemma key_match_complete (k rest : str) :
  word_label k = true ->
  match_at key_pattern (k ++ 58%N :: rest) = Some (Some k, rest).
Proof.
  unfold word_label. intros H. apply andb_true_iff in H as [Hne Hw].
  apply negb_true_iff, str_eqb_nil in Hne.
  unfold match_at, key_pattern, r_seq.
  rewrite r_group_plus_run; try assumption.
  - change (58%N :: rest) with (lit ":" ++ rest). now rewrite r_lit_app.
  - intros x t g' Hx. apply r_lit_head_ne. apply (is_word_ne _ _ Hx). reflexivity.
  - reflexivity.
Qed.

Lemma no_word_colon_cons (a b : char) (t : str) :
  no_word_colon (a :: b :: t)
  = negb (is_word a && (b =? 58)%N) && no_word_colon (b :: t).
Proof. reflexivity. Qed.

Lemma no_word_colon_mid (a b : str) (x y : char) :
  no_word_colon (a ++ x :: y :: b) = true -> is_word x && (y =? 58)%N = false.
Proof.
  induction a as [|c a IH]; intros H.
  - cbn [app] in H. rewrite no_word_colon_cons in H.
    apply andb_true_iff in H as [H _]. now apply negb_true_iff in H.
  - apply IH. destruct a as [|c' a]; cbn [app] in H |- *;
      rewrite no_word_colon_cons in H; now apply andb_true_iff in H as [_ H].
Qed.

Lemma last_suffix (u v : str) (d : char) : v <> [] -> last (u ++ v) d = last v d.
Proof.
  intros Hv. induction u as [|c u IH]; [reflexivity|].
  cbn [app]. destruct (u ++ v) as [|c' t] eqn:E.
  - apply app_eq_nil in E as [_ ->]. congruence.
  - exact IH.
Qed.

Lemma last_word (v : str) :
  v <> [] -> forallb is_word v = true -> is_word (last v 0%N) = true.
Proof.
  induction v as [|c v IH]; [congruence|]. intros _ H.
  cbn [forallb] in H. apply andb_true_iff in H as [Hc H].
  destruct v as [|c' v]; [exact Hc|].
  change (last (c :: c' :: v) 0%N) with (last (c' :: v) 0%N).
  apply IH; [discriminate|assumption].
Qed.

(** In plain text no key starts, whatever comes after the text. *)
Lemma plain_no_key (s rest : str) :
  no_word_colon s = true -> is_word (last s 0%N) = false ->
  forall u v, s = u ++ v -> v <> [] -> match_at key_pattern (v ++ rest) = None.
Proof.
  intros Hs Hl u v -> Hv.
  destruct (match_at key_pattern (v ++ rest)) as [[g s']|] eqn:E; [|reflexivity].
  exfalso. apply key_match_inv in E as (w & E & Hw & _).
  unfold word_label in Hw. apply andb_true_iff in Hw as [Hne Hw].
  apply negb_true_iff, str_eqb_nil in Hne.
  rewrite last_suffix in Hl by assumption.
  apply app_eq_app in E as [l [[-> E]|[-> E]]].
  - destruct l as [|c l].
    + rewrite app_nil_r in Hl. rewrite (last_word w Hne Hw) in Hl. discriminate.
    + cbn [app] in E. injection E as <- _.
      destruct (exists_last Hne) as (w0 & x & ->).
      rewrite forallb_app in Hw. apply andb_true_iff in Hw as [_ Hx].
      cbn [forallb] in Hx. rewrite andb_true_r in Hx.
      rewrite <- app_assoc in Hs. cbn [app] in Hs. rewrite app_assoc in Hs.
      apply no_word_colon_mid in Hs. rewrite Hx in Hs. discriminate.
  - rewrite forallb_app in Hw. apply andb_true_iff in Hw as [Hw _].
    rewrite (last_word v Hv Hw) in Hl. discriminate.
Qed.

Lemma key_match_sound (s : str) (g : caps) (s' : str) :
  match_at key_pattern s = Some (g, s') ->
  exists m, s = m ++ s' /\ m <> [] /\ True.
Proof.
  intros H. apply key_match_inv in H as (w & -> & _ & _).
  exists (w ++ [58%N]). rewrite <- app_assoc. repeat split.
  destruct w; discriminate.
Qed.

(** The scan of the key pattern finds the keys of the text and nothing
    else: each key comes out in double quotes. *)
Lemma substitute_bare (l : list chunk) :
  forallb chunk_ok l = true ->
  substitute [TChar dq; TGroup 1; TChar dq; TChar 58%N]
             (finditer key_pattern 0 (bare l))
  = quoted l.
Proof.
  induction l as [|x l IH]; [reflexivity|]. intros H.
  cbn [forallb] in H. apply andb_true_iff in H as [Hx H].
  destruct x as [s|k]; cbn [bare quoted flat_map bare_chunk quoted_chunk];
    fold (bare l); fold (quoted l).
  - unfold chunk_ok in Hx. apply andb_true_iff in Hx as [Hs Hl].
    apply negb_true_iff in Hl.
    rewrite finditer_gaps_prefix by (intros u v; now apply plain_no_key).
    now rewrite substitute_gaps, (IH H).
  - rewrite (finditer_hit key_pattern (fun _ _ => True) key_match_sound
                          (k ++ lit ":") (bare l) (Some k))
      by (rewrite <- app_assoc; now apply key_match_complete).
    unfold substitute. cbn [flat_map]. fold (substitute [TChar dq; TGroup 1; TChar dq; TChar 58%N]
                                                         (finditer key_pattern 0 (bare l))).
    rewrite (IH H). cbn [expand flat_map expand_part group1 app].
    rewrite <- ?app_assoc. reflexivity.
Qed.

Lemma quote_keys_bare (l : list chunk) :
  forallb chunk_ok l = true -> quote_keys (bare l) = Some (quoted l).
Proof.
  intros H. unfold quote_keys, re_sub.
  change (parse_template 1 TNormal key_template)
    with (Some [TChar dq; TGroup 1; TChar dq; TChar 58%N]).
  cbv iota beta. f_equal. now apply substitute_bare.
Qed.

Lemma quoted_key_plain (k : str) :
  forallb is_word k = true -> no_word_colon (k ++ [dq; 58%N]) = true.
Proof.
  induction k as [|c k IH]; intros H; [reflexivity|].
  cbn [forallb] in H. apply andb_true_iff in H as [Hc H].
  destruct k as [|c' k]; cbn [app] in IH |- *; rewrite no_word_colon_cons.
  - now rewrite andb_false_r.
  - rewrite (IH H), andb_true_r. cbn [forallb] in H.
    apply andb_true_iff in H as [Hc' _].
    destruct (N.eqb_spec c' 58) as [->|_]; [discriminate|]. now rewrite andb_false_r.
Qed.

Lemma requoted_ok (l : list chunk) :
  forallb chunk_ok l = true ->
  forallb chunk_ok (map (fun x => Plain (quoted_chunk x)) l) = true.
Proof.
  induction l as [|x l IH]; [reflexivity|]. intros H.
  cbn [forallb] in H. apply andb_true_iff in H as [Hx H].
  cbn [map forallb]. rewrite (IH H), andb_true_r.
  destruct x as [s|k]; [exact Hx|].
  unfold word_label in Hx. apply andb_true_iff in Hx as [_ Hw].
  cbn [chunk_ok quoted_chunk].
  change (dq :: k ++ dq :: lit ":") with ([dq] ++ k ++ [dq; 58%N]).
  rewrite app_assoc, last_suffix by discriminate.
  rewrite andb_true_r. rewrite <- app_assoc. cbn [app].
  destruct (k ++ [dq; 58%N]) as [|c t] eqn:E; [reflexivity|].
  rewrite no_word_colon_cons, <- E, (quoted_key_plain k Hw). reflexivity.
Qed.

Lemma requoted_text (l : list chunk) :
  bare (map (fun x => Plain (quoted_chunk x)) l) = quoted l
  /\ quoted (map (fun x => Plain (quoted_chunk x)) l) = quoted l.
Proof.
  unfold bare, quoted. induction l as [|x l [IH1 IH2]]; [now split|].
  cbn [map flat_map bare_chunk quoted_chunk]. now rewrite IH1, IH2.
Qed.

Lemma quote_keys_quoted (l : list chunk) :
  forallb chunk_ok l = true -> quote_keys (quoted l) = Some (quoted l).
Proof.
  intros H. destruct (requoted_text l) as [E1 E2].
  rewrite <- E1 at 1. rewrite (quote_keys_bare _ (requoted_ok l H)). now rewrite E2.
Qed.

(** X21. A document whose array has its keys bare is read as the same
    document with the keys in double quotes: the clean-up puts the quotes
    around every key and nowhere else. This when every key is one or
    more word characters, and the text between the keys holds no word
    character right before a colon and does not end with a word
    character. *)
Theorem bare_keys_read_as_quoted (html html' whole whole' : str) (l : list chunk) :
  forallb chunk_ok l = true ->
  re_search array_pattern html = Some (whole, Some (bare l)) ->
  re_search array_pattern html' = Some (whole', Some (quoted l)) ->
  quote_keys (bare l) = Some (quoted l)
  /\ extract_dealers_data html = extract_dealers_data html'.
Proof.
  intros H E E'. split; [now apply quote_keys_bare|].
  unfold extract_dealers_data, clean_up. rewrite E, E'. cbn [group1].
  now rewrite (quote_keys_bare l H), (quote_keys_quoted l H).
Qed.

(** ** The text [json.dumps] lays out, with bare keys *)

Lemma bare_app (a b : list chunk) : bare (a ++ b) = bare a ++ bare b.
Proof. apply flat_map_app. Qed.

Lemma quoted_app (a b : list chunk) : quoted (a ++ b) = quoted a ++ quoted b.
Proof. apply flat_map_app. Qed.

Lemma is_word_plain (c : char) :
  is_word c = true -> (32 <=? c)%N = true /\ c <> backslash /\ c <> dq.
Proof.
  unfold is_word, is_digit, is_ascii_letter, in_range, backslash, dq.
  destruct (N.ltb_spec c 128) as [Hc|Hc].
  - rewrite !orb_true_iff, !andb_true_iff, !N.leb_le, N.eqb_eq.
    intros H. rewrite ?N.leb_le. clear unicode_alnum. lia.
  - intros _. rewrite N.leb_le. clear unicode_alnum. lia.
Qed.

Lemma escape_word (k : str) :
  forallb is_word k = true -> flat_map escape_char k = k.
Proof.
  induction k as [|c k IH]; intros H; [reflexivity|].
  cbn [forallb] in H. apply andb_true_iff in H as [Hc H].
  destruct (is_word_plain c Hc) as (H1 & H2 & H3).
  cbn [flat_map]. now rewrite (escape_char_plain c H1 H2 H3), (IH H).
Qed.

Lemma pairs_no_word_colon (s : str) (prev : char) :
  pairs_ok prev s = true -> no_word_colon s = true.
Proof.
  revert prev. induction s as [|a s IH]; intros prev H; [reflexivity|].
  cbn [pairs_ok] in H. apply andb_true_iff in H as [_ H].
  destruct s as [|b s]; [reflexivity|].
  rewrite no_word_colon_cons, (IH a H), andb_true_r.
  cbn [pairs_ok] in H. apply andb_true_iff in H as [H _].
  unfold bad_pair in H. apply negb_true_iff, orb_false_iff in H as [H _].
  now rewrite H.
Qed.

Lemma string_chunk_ok (s : str) :
  clean_str s = true -> chunk_ok (Plain (encode_basestring s)) = true.
Proof.
  intros H. unfold chunk_ok. apply andb_true_iff. split.
  - apply (pairs_no_word_colon _ dq).
    rewrite <- (app_nil_r (encode_basestring s)).
    now rewrite (pairs_ok_basestring s [] dq H).
  - unfold encode_basestring.
    change (dq :: flat_map escape_char s ++ [dq])
      with ((dq :: flat_map escape_char s) ++ [dq]).
    now rewrite last_suffix by discriminate.
Qed.

Lemma no_word_plain (s : str) :
  forallb (fun c => negb (is_word c)) s = true -> chunk_ok (Plain s) = true.
Proof.
  intros H. unfold chunk_ok. apply andb_true_iff. split.
  - induction s as [|a s IH]; [reflexivity|].
    cbn [forallb] in H. apply andb_true_iff in H as [Ha H].
    destruct s as [|b s]; [reflexivity|].
    rewrite no_word_colon_cons, (IH H), andb_true_r.
    apply negb_true_iff in Ha. now rewrite Ha.
  - induction s as [|a s IH]; [reflexivity|].
    cbn [forallb] in H. apply andb_true_iff in H as [Ha H].
    destruct s as [|b s]; [exact Ha|].
    change (last (a :: b :: s) 0%N) with (last (b :: s) 0%N). now apply IH.
Qed.

Lemma indent_chunk_ok (level : nat) : chunk_ok (Plain (newline_indent level)) = true.
Proof.
  apply no_word_plain. unfold newline_indent, spaces. cbn [forallb].
  apply andb_true_iff. split; [reflexivity|].
  induction (12 * level) as [|n IH]; [reflexivity|].
  cbn [repeat forallb]. now rewrite IH.
Qed.

Section BareText.

Variable float_repr : str -> str.

Lemma bare_iterencode_list (level : nat) (x : value) (xs : list value) :
  bare_iterencode float_repr level (VList (x :: xs))
  = lit "[" ++ newline_indent (S level) ++ bare_iterencode float_repr (S level) x
    ++ flat_map (fun y => lit "," ++ newline_indent (S level)
                          ++ bare_iterencode float_repr (S level) y) xs
    ++ newline_indent level ++ lit "]".
Proof.
  cbn [bare_iterencode]. do 3 f_equal. f_equal.
  induction xs as [|y xs IH]; [reflexivity|].
  cbn [flat_map]. rewrite IH. now rewrite <- !app_assoc.
Qed.

Lemma bare_iterencode_dict (level : nat) (k : str) (x : value) (ps : list (str * value)) :
  bare_iterencode float_repr level (VDict ((k, x) :: ps))
  = lit "{" ++ newline_indent (S level)
    ++ k ++ lit ": " ++ bare_iterencode float_repr (S level) x
    ++ flat_map (fun ky => lit "," ++ newline_indent (S level)
                           ++ fst ky ++ lit ": "
                           ++ bare_iterencode float_repr (S level) (snd ky)) ps
    ++ newline_indent level ++ lit "}".
Proof.
  cbn [bare_iterencode]. do 5 f_equal. f_equal.
  induction ps as [|[k' y] ps IH]; [reflexivity|].
  cbn [flat_map fst snd]. rewrite IH. now rewrite <- !app_assoc.
Qed.

Lemma key_chunks (k t u : str) (l : list chunk) :
  word_label k = true -> t = bare l -> u = quoted l ->
  k ++ lit ": " ++ t = bare (Key k :: Plain (lit " ") :: l)
  /\ encode_basestring k ++ lit ": " ++ u = quoted (Key k :: Plain (lit " ") :: l).
Proof.
  intros Hk -> ->. unfold word_label in Hk. apply andb_true_iff in Hk as [_ Hw].
  split.
  - unfold bare. cbn [flat_map bare_chunk]. now rewrite <- app_assoc.
  - unfold quoted, encode_basestring. cbn [flat_map quoted_chunk].
    rewrite (escape_word k Hw). cbn [app]. now rewrite <- !app_assoc.
Qed.

(** The laid-out text cut into chunks. *)
Lemma bare_layout (v : value) :
  clean_value v = true -> word_keys v = true ->
  forall level, exists l,
    bare_iterencode float_repr level v = bare l
    /\ iterencode float_repr level v = quoted l
    /\ forallb chunk_ok l = true.
Proof.
  induction v as [| b | z | x | s | items IH | pairs IH] using value_induction;
    try discriminate; intros HC HK level.
  - exists [Plain (encode_basestring s)]. cbn [bare quoted flat_map bare_chunk quoted_chunk].
    rewrite app_nil_r. repeat split. cbn [forallb].
    now rewrite (string_chunk_ok s HC).
  - destruct items as [|x xs].
    + exists [Plain (lit "[]")]. repeat split.
    + rewrite iterencode_list, bare_iterencode_list.
      cbn [clean_value word_keys forallb] in HC, HK.
      apply andb_true_iff in HC as [HCx HC]. apply andb_true_iff in HK as [HKx HK].
      inversion IH as [|? ? Hx IH']; subst.
      destruct (Hx HCx HKx (S level)) as (lx & Ex1 & Ex2 & Ex3).
      assert (G : exists lr,
                 flat_map (fun y => lit "," ++ newline_indent (S level)
                                    ++ bare_iterencode float_repr (S level) y) xs
                 = bare lr
                 /\ flat_map (fun y => lit "," ++ newline_indent (S level)
                                       ++ iterencode float_repr (S level) y) xs
                    = quoted lr
                 /\ forallb chunk_ok lr = true).
      { clear Hx HCx HKx IH Ex1 Ex2 Ex3.
        induction IH' as [|y l Hy _ IHl]; [now exists []|].
        cbn [forallb] in HC, HK.
        apply andb_true_iff in HC as [HCy HC]. apply andb_true_iff in HK as [HKy HK].
        destruct (Hy HCy HKy (S level)) as (ly & Ey1 & Ey2 & Ey3).
        destruct (IHl HC HK) as (lr & Er1 & Er2 & Er3).
        exists (Plain (lit ",") :: Plain (newline_indent (S level)) :: ly ++ lr).
        cbn [flat_map]. rewrite Ey1, Ey2, Er1, Er2.
        unfold bare, quoted. cbn [flat_map bare_chunk quoted_chunk forallb].
        rewrite !flat_map_app, forallb_app, Ey3, Er3, indent_chunk_ok, <- !app_assoc.
        repeat split. }
      destruct G as (lr & Er1 & Er2 & Er3).
      exists (Plain (lit "[") :: Plain (newline_indent (S level))
              :: lx ++ lr ++ [Plain (newline_indent level); Plain (lit "]")]).
      rewrite Ex1, Ex2, Er1, Er2.
      unfold bare, quoted. cbn [flat_map bare_chunk quoted_chunk forallb].
      rewrite !flat_map_app, !forallb_app, Ex3, Er3, !indent_chunk_ok.
      cbn [flat_map bare_chunk quoted_chunk forallb]. rewrite ?indent_chunk_ok.
      rewrite <- ?app_assoc, ?app_nil_r. repeat split.
  - destruct pairs as [|[k x] ps].
    + exists [Plain (lit "{}")]. repeat split.
    + rewrite iterencode_dict, bare_iterencode_dict.
      cbn [clean_value] in HC. apply andb_true_iff in HC as [_ HC].
      cbn [word_keys forallb fst snd] in HC, HK.
      apply andb_true_iff in HC as [HCx HC]. apply andb_true_iff in HK as [HKx HK].
      apply andb_true_iff in HCx as [_ HCx]. apply andb_true_iff in HKx as [Hk HKx].
      inversion IH as [|? ? Hx IH']; subst. cbn [snd] in Hx.
      destruct (Hx HCx HKx (S level)) as (lx & Ex1 & Ex2 & Ex3).
      assert (G : exists lr,
                 flat_map (fun ky => lit "," ++ newline_indent (S level)
                                     ++ fst ky ++ lit ": "
                                     ++ bare_iterencode float_repr (S level) (snd ky)) ps
                 = bare lr
                 /\ flat_map (fun ky => lit "," ++ newline_indent (S level)
                                        ++ encode_basestring (fst ky) ++ lit ": "
                                        ++ iterencode float_repr (S level) (snd ky)) ps
                    = quoted lr
                 /\ forallb chunk_ok lr = true).
      { clear Hx HCx HKx Hk IH Ex1 Ex2 Ex3.
        induction IH' as [|[k' y] l Hy _ IHl]; [now exists []|].
        cbn [forallb fst snd] in HC, HK.
        apply andb_true_iff in HC as [HCy HC]. apply andb_true_iff in HK as [HKy HK].
        apply andb_true_iff in HCy as [_ HCy]. apply andb_true_iff in HKy as [Hk' HKy].
        cbn [snd] in Hy.
        destruct (Hy HCy HKy (S level)) as (ly & Ey1 & Ey2 & Ey3).
        destruct (IHl HC HK) as (lr & Er1 & Er2 & Er3).
        exists (Plain (lit ",") :: Plain (newline_indent (S level))
                :: Key k' :: Plain (lit " ") :: ly ++ lr).
        cbn [flat_map fst snd]. rewrite Er1, Er2.
        rewrite <- !app_assoc.
        destruct (key_chunks k' _ _ (ly ++ lr) Hk'
                             (eq_sym (eq_trans (bare_app ly lr)
                                               (f_equal2 (@app char) (eq_sym Ey1) eq_refl)))
                             (eq_sym (eq_trans (quoted_app ly lr)
                                               (f_equal2 (@app char) (eq_sym Ey2) eq_refl))))
          as [K1 K2].
        rewrite K1, K2. cbn [forallb chunk_ok]. fold (chunk_ok (Plain (newline_indent (S level)))).
        rewrite indent_chunk_ok, forallb_app, Ey3, Er3, Hk'.
        repeat split. }
      destruct G as (lr & Er1 & Er2 & Er3).
      exists (Plain (lit "{") :: Plain (newline_indent (S level))
              :: Key k :: Plain (lit " ")
              :: lx ++ lr ++ [Plain (newline_indent level); Plain (lit "}")]).
      rewrite Er1, Er2.
      assert (T1 : bare_iterencode float_repr (S level) x ++ bare lr
                   ++ newline_indent level ++ lit "}"
                   = bare (lx ++ lr ++ [Plain (newline_indent level); Plain (lit "}")])).
      { rewrite !bare_app, Ex1. reflexivity. }
      assert (T2 : iterencode float_repr (S level) x ++ quoted lr
                   ++ newline_indent level ++ lit "}"
                   = quoted (lx ++ lr ++ [Plain (newline_indent level); Plain (lit "}")])).
      { rewrite !quoted_app, Ex2. reflexivity. }
      destruct (key_chunks k _ _ _ Hk T1 T2) as [K1 K2].
      rewrite K1, K2. cbn [forallb chunk_ok].
      fold (chunk_ok (Plain (newline_indent (S level)))).
      rewrite indent_chunk_ok, !forallb_app, Ex3, Er3, Hk. cbn [forallb chunk_ok].
      fold (chunk_ok (Plain (newline_indent level))). rewrite indent_chunk_ok.
      repeat split.
Qed.

End BareText.

(** X22. [extract_dealers_data] reads the records from an array that is
    written as JavaScript has it, the keys bare: when the array the
    search finds is the text [json.dumps] lays out for the records but
    with no quotes around the keys, the records come back, and nothing
    is reported. This for records that are clean values whose keys are
    one or more word characters and whose strings hold neither U+00E2
    nor U+00F0. *)
Theorem extract_dealers_bare_keys
        (float_repr : str -> str) (html whole : str) (records : list value) :
  forallb clean_value records = true ->
  word_keys (VList records) = true ->
  forallb no_garbled_start (strings_of (VList records)) = true ->
  re_search array_pattern html
  = Some (whole, Some (bare_iterencode float_repr 0 (VList records))) ->
  extract_dealers_data html = (VList records, []).
Proof.
  intros HC HK HG E.
  assert (HCv : clean_value (VList records) = true) by exact HC.
  destruct (bare_layout float_repr _ HCv HK 0) as (l & E1 & E2 & Hl).
  pose proof (clean_up_dumps float_repr _ HCv HG) as Hfix.
  unfold clean_up, json_dumps in Hfix. rewrite E2 in Hfix.
  rewrite (quote_keys_quoted l Hl) in Hfix. cbn [and_then] in Hfix.
  unfold extract_dealers_data. rewrite E. cbn [group1]. rewrite E1.
  unfold clean_up. rewrite (quote_keys_bare l Hl). cbn [and_then].
  rewrite Hfix. cbn [and_then]. rewrite <- E2.
  fold (json_dumps float_repr (VList records)).
  now rewrite (json_loads_dumps float_repr _ HCv).
Qed.

(** ** A document fetched and sent back *)

Lemma utf8_encode_two (b0 b1 : N) :
  (194 <= b0 <= 223)%N -> (128 <= b1 <= 191)%N ->
  utf8_encode_char ((b0 - 192) * 64 + cont_val b1)%N = Some [b0; b1].
Proof.
  intros H0 H1. unfold utf8_encode_char, cont_val.
  repeat (cbv iota; settle_test). cbv iota. do 2 f_equal; [|f_equal]; div_lia.
Qed.

Lemma utf8_encode_three (b0 b1 b2 : N) :
  (224 <= b0 <= 239)%N ->
  ((if (b0 =? 224)%N then 160 else 128) <= b1
   /\ b1 <= (if (b0 =? 237)%N then 159 else 191))%N ->
  (128 <= b2 <= 191)%N ->
  utf8_encode_char ((b0 - 224) * 4096 + cont_val b1 * 64 + cont_val b2)%N
  = Some [b0; b1; b2].
Proof.
  intros H0 H1 H2. unfold utf8_encode_char, cont_val.
  destruct (N.eqb_spec b0 224) as [Ea|Ea]; destruct (N.eqb_spec b0 237) as [Eb|Eb];
    repeat (cbv iota; settle_test); cbv iota;
    repeat (f_equal; try div_lia).
Qed.

Lemma utf8_encode_four (b0 b1 b2 b3 : N) :
  (240 <= b0 <= 244)%N ->
  ((if (b0 =? 240)%N then 144 else 128) <= b1
   /\ b1 <= (if (b0 =? 244)%N then 143 else 191))%N ->
  (128 <= b2 <= 191)%N -> (128 <= b3 <= 191)%N ->
  utf8_encode_char ((b0 - 240) * 262144 + cont_val b1 * 4096
                    + cont_val b2 * 64 + cont_val b3)%N
  = Some [b0; b1; b2; b3].
Proof.
  intros H0 H1 H2 H3. unfold utf8_encode_char, cont_val.
  destruct (N.eqb_spec b0 240) as [Ea|Ea]; destruct (N.eqb_spec b0 244) as [Eb|Eb];
    repeat (cbv iota; settle_test); cbv iota;
    repeat (f_equal; try div_lia).
Qed.

(** Strict decoding has one reading only: what was decoded encodes to
    the bytes it was decoded from. *)
Lemma utf8_encode_decode (n : nat) :
  forall b s, length b <= n -> utf8_decode b = Some s -> utf8_encode s = Some b.
Proof.
  induction n as [|n IH]; intros b s Hn H.
  - destruct b; [|cbn [length] in Hn; lia]. injection H as <-. reflexivity.
  - destruct b as [|b0 t]; [injection H as <-; reflexivity|].
    cbn [length] in Hn. cbn [utf8_decode] in H.
    destruct (b0 <? 128)%N eqn:E0.
    { apply add_code_some in H as (s' & H & ->).
      cbn [utf8_encode]. rewrite (IH t s') by (assumption || lia).
      unfold utf8_encode_char. now rewrite E0. }
    destruct (in_range 194%N 223%N b0) eqn:E1.
    { apply in_range_spec in E1. destruct t as [|b1 t1]; [discriminate|].
      destruct (is_cont b1) eqn:C1; [|discriminate].
      apply in_range_spec in C1. apply add_code_some in H as (s' & H & ->).
      cbn [length] in Hn. cbn [utf8_encode]. rewrite (IH t1 s') by (assumption || lia).
      now rewrite utf8_encode_two. }
    destruct (in_range 224%N 239%N b0) eqn:E2.
    { apply in_range_spec in E2. destruct t as [|b1 [|b2 t2]]; try discriminate.
      destruct (in_range _ _ b1 && is_cont b2) eqn:C; [|discriminate].
      apply andb_true_iff in C as [C1 C2].
      apply in_range_spec in C1, C2. apply add_code_some in H as (s' & H & ->).
      cbn [length] in Hn. cbn [utf8_encode]. rewrite (IH t2 s') by (assumption || lia).
      now rewrite utf8_encode_three. }
    destruct (in_range 240%N 244%N b0) eqn:E3; [|discriminate].
    apply in_range_spec in E3. destruct t as [|b1 [|b2 [|b3 t3]]]; try discriminate.
    destruct (in_range _ _ b1 && is_cont b2 && is_cont b3) eqn:C; [|discriminate].
    apply andb_true_iff in C as [C C3]. apply andb_true_iff in C as [C1 C2].
    apply in_range_spec in C1, C2, C3. apply add_code_some in H as (s' & H & ->).
    cbn [length] in Hn. cbn [utf8_encode]. rewrite (IH t3 s') by (assumption || lia).
    now rewrite utf8_encode_four.
Qed.

(** X23. A document sent back as [get_file] returned it goes out byte for
    byte as it came: the request holds the base64 text of the very bytes
    the answer held. *)
Theorem fetched_document_sent_unchanged
        (body : value) (content text branch commit_message : str)
        (sha1 sha0 : value) (told : list notice) :
  get_file (Some body) = (Some (content, sha1), told) ->
  getitem body (lit "content") = Some (VStr text) ->
  exists raw,
    b64decode text = Some raw
    /\ utf8_decode raw = Some content
    /\ update_request branch content sha0 commit_message
       = Some [(lit "message", VStr commit_message);
               (lit "content", VStr (b64encode raw));
               (lit "sha", sha0);
               (lit "branch", VStr branch)].
Proof.
  unfold get_file, and_then. intros H Hc. rewrite Hc in H.
  destruct (b64decode text) as [raw|]; [|discriminate].
  destruct (utf8_decode raw) as [s|] eqn:Ed; [|discriminate].
  destruct (getitem body (lit "sha")) as [s1|]; [|discriminate].
  injection H as <- <- <-.
  exists raw. repeat split; [assumption|].
  unfold update_request, and_then.
  now rewrite (utf8_encode_decode (length raw) raw s (le_n _) Ed).
Qed.

(** X24. An empty file cannot be loaded: when the answer carries a file
    of no bytes, [get_file] returns the empty document, [main] takes it
    for a failure, tells the operator and leaves the page as it was. *)
Theorem load_refuses_empty_document (p : page) (body sha1 : value) :
  carries body [] sha1 ->
  get_file (Some body) = (Some ([], sha1), [])
  /\ load p (Some body) = with_notices p [ErrorLoadFailed].
Proof.
  intros (text & Hc & Ha & Hf & Hs).
  assert (G : get_file (Some body) = (Some ([], sha1), []))
    by (now apply (get_file_decodes [] text [] body sha1)).
  split; [exact G|].
  unfold load. rewrite G. reflexivity.
Qed.

(** X25. The delete button of a dealer takes that dealer out of the list
    and no other: the dealers before it keep their places, those after
    it move up by one; the unsaved flag is set and the notice names the
    dealer taken out. *)
Theorem click_delete_removes_one (p p' : page) (idx : nat) :
  click_delete p idx = Some p' ->
  length (dealers (forms p)) = S (length (dealers (forms p')))
  /\ (forall j, j < idx ->
        nth_error (dealers (forms p')) j = nth_error (dealers (forms p)) j)
  /\ (forall j, idx <= j ->
        nth_error (dealers (forms p')) j = nth_error (dealers (forms p)) (S j))
  /\ changes_made (forms p') = true
  /\ regions p' = regions p
  /\ exists dealer name,
       nth_error (dealers (forms p)) idx = Some dealer
       /\ getitem dealer (lit "name") = Some name
       /\ notices p' = notices p ++ [SuccessDeleted name].
Proof.
  unfold click_delete. intros H.
  destruct (nth_error (dealers (forms p)) idx) as [dealer|] eqn:En; [|discriminate].
  destruct (getitem dealer (lit "name")) as [name|] eqn:Eg; [|discriminate].
  injection H as <-. cbn [forms dealers changes_made regions notices].
  repeat split.
  - clear Eg. revert idx En. induction (dealers (forms p)) as [|x l IH]; intros [|i] En;
      try discriminate; [reflexivity|].
    cbn [list_pop length]. f_equal. now apply (IH i).
  - intros j. clear En Eg. revert idx j.
    induction (dealers (forms p)) as [|x l IH]; intros [|i] [|j] Hj;
      try reflexivity; try lia.
    cbn [list_pop nth_error]. apply IH. lia.
  - intros j Hj. now apply nth_error_list_pop.
  - now exists dealer, name.
Qed.

(** ** Saving: what is not written, and the sha *)

(** X26. On a page whose document holds no statement the dealers are not
    written: the document sent is the one the regions alone give. The
    save goes through all the same: when GitHub accepts it the operator
    is told of a success and the unsaved flag is cleared. *)
Theorem save_without_statement
        (float_repr : str -> str) (branch : str)
        (accepted : list (str * value) -> bool)
        (p : page) (commit_message : str) (data : list (str * value)) :
  ~ has_statement (html_content p) ->
  update_request branch (fst (update_regions_in_html (html_content p) (regions p)))
                 (sha p) commit_message = Some data ->
  accepted data = true ->
  html_content (save float_repr branch accepted p commit_message)
  = fst (update_regions_in_html (html_content p) (regions p))
  /\ changes_made (forms (save float_repr branch accepted p commit_message)) = false
  /\ notices (save float_repr branch accepted p commit_message)
     = notices p ++ [SuccessSaved].
Proof.
  intros Hno Hreq Hacc.
  assert (E : fst (update_dealers_in_html float_repr (html_content p)
                                          (VList (dealers (forms p))))
              = html_content p).
  { unfold update_dealers_in_html, re_sub.
    destruct (parse_template 0 TNormal _) as [t|]; [|reflexivity]. cbn [fst].
    rewrite substitute_no_hit.
    - now rewrite (finditer_source _ _ statement_match_some) by lia.
    - apply (no_statement_no_hit _ _ _ statement_match_some); [|assumption].
      now intros m g [H _]. }
  unfold save, updated_html.
  destruct (update_dealers_in_html float_repr (html_content p)
                                   (VList (dealers (forms p)))) as [h1 r1].
  cbn [fst] in E. subst h1.
  destruct (update_regions_in_html (html_content p) (regions p)) as [h2 r2].
  cbn [fst] in Hreq |- *. unfold update_file. rewrite Hreq, Hacc.
  repeat split.
Qed.

Lemma handle_keeps_sha (p p' : page) (e : event) :
  handle p e = Some p' -> sha p' = sha p.
Proof.
  destruct e as [idx|idx|a b c d rows|a b c d rows| |region|new_region]; cbn [handle].
  - destruct (nth_error _ idx); [|discriminate]. intros H. now injection H as <-.
  - unfold click_delete. destruct (nth_error _ idx) as [dealer|]; [|discriminate].
    destruct (getitem dealer _); [|discriminate]. intros H. now injection H as <-.
  - intros H. now injection H as <-.
  - destruct (submit_edit _ _ _ _ _ _); [|discriminate]. cbn [option_map].
    intros H. now injection H as <-.
  - destruct (editing_dealer (forms p)) as [idx|]; [|discriminate].
    destruct (nth_error _ idx); [|discriminate]. intros H. now injection H as <-.
  - unfold delete_region. destruct (list_remove region (regions p)); [|discriminate].
    intros H. now injection H as <-.
  - intros H. injection H as <-. unfold add_region.
    destruct (truthy new_region); [destruct (existsb _ _)|]; reflexivity.
Qed.

Lemma save_keeps_sha
      (float_repr : str -> str) (branch : str) (accepted : list (str * value) -> bool)
      (p : page) (commit_message : str) :
  sha (save float_repr branch accepted p commit_message) = sha p.
Proof.
  unfold save. destruct (updated_html float_repr p) as [html errors].
  now destruct (update_file branch accepted html (sha p) commit_message) as [[|] told].
Qed.

(** X27. Only a load changes the sha the page holds. After a save that
    went through, as after any other run of the script, the page still
    holds the sha of the last load, and the next save sends that one. *)
Theorem run_keeps_sha
        (float_repr : str -> str) (branch : str) (p p' : page) (l : list action) :
  run float_repr branch p l = Some p' ->
  sha p' = sha p
  /\ forall html commit_message data,
       update_request branch html (sha p') commit_message = Some data ->
       dict_get data (lit "sha") = Some (sha p).
Proof.
  intros H.
  assert (E : sha p' = sha p).
  { revert p H. induction l as [|a l IH]; intros p H; cbn [run] in H.
    - now injection H as <-.
    - destruct (step float_repr branch p a) as [q|] eqn:Eq; [|discriminate].
      cbn [and_then] in H. rewrite (IH q H).
      destruct a as [e|m ok]; cbn [step] in Eq.
      + now apply (handle_keeps_sha p q e).
      + destruct (changes_made (forms p)); [|discriminate].
        injection Eq as <-. apply save_keeps_sha. }
  split; [exact E|].
  intros html m data Hd. rewrite E in Hd.
  unfold update_request, and_then in Hd.
  destruct (utf8_encode html); [|discriminate]. now injection Hd as <-.
Qed.


(** ** The cut a scan makes *)

Lemma cut_at_text (starts shape : str -> Prop) (s : str) (cuts : list (str * str))
      (tail : str) :
  cut_at starts shape s cuts tail -> s = rebuilt (fun m => m) cuts tail.
Proof.
  induction 1 as [tail _|gap m rest cuts tail _ _ _ IH]; [reflexivity|].
  unfold rebuilt in *. cbn [flat_map fst snd]. now rewrite IH, <- !app_assoc.
Qed.

Lemma suffix_snoc (A : Type) (g u v : list A) (c : A) :
  g ++ [c] = u ++ v -> v <> [] -> exists v', v = v' ++ [c] /\ g = u ++ v'.
Proof.
  intros E Hv. destruct (exists_last Hv) as (v' & x & ->).
  rewrite app_assoc in E. apply app_inj_tail in E as [-> ->]. now exists v'.
Qed.

Section ScanCut.

Variable r : regex.
Variable M : str -> caps -> Prop.
Variables starts shape : str -> Prop.
Hypothesis r_sound : forall s g s',
  match_at r s = Some (g, s') -> exists m, s = m ++ s' /\ m <> [] /\ M m g.
Hypothesis r_shape : forall m rest g,
  match_at r (m ++ rest) = Some (g, rest) -> shape m.
Hypothesis r_starts : forall s, starts s -> match_at r s <> None.

Lemma scan_cut_from (ps : list piece) :
  forall s gap0,
  finditer r 0 s = ps ->
  (forall u v, gap0 = u ++ v -> v <> [] -> ~ starts (v ++ s)) ->
  exists cuts tail,
    cut_at starts shape (gap0 ++ s) (map fst cuts) tail
    /\ map Gap gap0 ++ ps = cut_pieces cuts tail
    /\ Forall (fun c => M (snd (fst c)) (snd c)) cuts.
Proof using r_sound r_shape r_starts.
  induction ps as [|[c|m g] ps IH]; intros s gap0 Hs Hgap.
  - apply (finditer_nil_inv r M r_sound) in Hs as ->.
    exists [], gap0. rewrite !app_nil_r. repeat split; [|constructor].
    constructor. intros u [|x v] E Hst.
    + apply r_starts in Hst. now rewrite (match_at_nil r M r_sound) in Hst.
    + apply (Hgap u (x :: v) E); [discriminate|now rewrite app_nil_r].
  - apply (finditer_gap_inv r M r_sound) in Hs as (t & -> & Hn & Ht).
    destruct (IH t (gap0 ++ [c]) (eq_sym Ht)) as (cuts & tail & Hc & Hp & HM).
    { intros u v E Hv Hst. apply suffix_snoc in E as (v' & -> & ->); [|assumption].
      rewrite <- app_assoc in Hst. cbn [app] in Hst.
      destruct v' as [|x v'].
      - apply r_starts in Hst. cbn [app] in Hst. congruence.
      - apply (Hgap u (x :: v') eq_refl); [discriminate|assumption]. }
    exists cuts, tail. rewrite <- app_assoc in Hc. cbn [app] in Hc.
    rewrite map_app, <- app_assoc in Hp. cbn [map app] in Hp.
    repeat split; assumption.
  - apply (finditer_hit_inv r M r_sound) in Hs as (s' & -> & Hm & Hs').
    destruct (IH s' [] (eq_sym Hs')) as (cuts & tail & Hc & Hp & HM).
    { intros u v E Hv. destruct u, v; try discriminate. congruence. }
    cbn [app map] in Hc, Hp.
    exists ((gap0, m, g) :: cuts), tail. repeat split.
    + cbn [map fst]. constructor; [assumption|now apply (r_shape m s' g)|assumption].
    + unfold cut_pieces in *. cbn [flat_map fst snd]. rewrite <- !app_assoc.
      cbn [app]. now rewrite Hp.
    + constructor; [|assumption]. cbn [fst snd].
      destruct (r_sound _ _ _ Hm) as (m' & E & _ & HMm).
      apply app_inv_tail in E. now subst m'.
Qed.

(** Every text is cut by the scan, and the pieces of the scan are those of
    the cut. *)
Lemma scan_cut (s : str) :
  exists cuts tail,
    cut_at starts shape s (map fst cuts) tail
    /\ finditer r 0 s = cut_pieces cuts tail
    /\ Forall (fun c => M (snd (fst c)) (snd c)) cuts.
Proof using r_sound r_shape r_starts.
  destruct (scan_cut_from (finditer r 0 s) s [] eq_refl) as (cuts & tail & H).
  - intros u v E Hv. destruct u, v; try discriminate. congruence.
  - now exists cuts, tail.
Qed.

End ScanCut.

Lemma substitute_pieces (t : list tpart) (cuts : list (str * str * caps)) (tail : str) :
  Forall (fun c => snd c = None) cuts ->
  substitute t (cut_pieces cuts tail)
  = rebuilt (fun m => expand t m None) (map fst cuts) tail.
Proof.
  intros H. unfold cut_pieces, rebuilt.
  induction H as [|[[gap m] g] cuts Hg _ IH].
  - cbn [flat_map map app]. rewrite <- (app_nil_r (map Gap tail)), substitute_gaps.
    cbn. now rewrite app_nil_r.
  - cbn [snd] in Hg. subst g. cbn [flat_map map fst snd].
    rewrite <- !app_assoc, substitute_gaps. cbn [app].
    unfold substitute at 1. cbn [flat_map].
    fold (substitute t (flat_map (fun c => map Gap (fst (fst c))
                                           ++ [Hit (snd (fst c)) (snd c)]) cuts
                        ++ map Gap tail)).
    now rewrite IH.
Qed.

Lemma statement_match_inv (m R : str) (g : caps) :
  match_at statement_pattern (m ++ R) = Some (g, R) -> first_statement m.
Proof.
  unfold match_at, statement_pattern, r_seq. intros H.
  apply r_lit_some in H as (s1 & E1 & H).
  apply r_lit_some in H as (s2 & -> & H).
  apply lazy_first_success in H as (u & v & -> & Hk & Hmin).
  apply r_lit_some in Hk as (s3 & -> & Hk).
  apply lit_end_some in Hk as (rest & -> & Hres). injection Hres as _ <-.
  exists u. split.
  - apply (app_inv_tail R). rewrite E1. unfold statement_of.
    now rewrite <- !app_assoc.
  - intros u1 v1 Eu Hv (z & Ez). specialize (Hmin u1 v1 Eu Hv).
    change (lit "]" ++ lit ";" ++ R) with (lit "];" ++ R) in Hmin.
    rewrite app_assoc, Ez, <- app_assoc in Hmin.
    change (lit "];" ++ z ++ R) with (lit "]" ++ lit ";" ++ z ++ R) in Hmin.
    now rewrite !r_lit_app in Hmin.
Qed.

Lemma statement_cut (t : list tpart) (html : str) :
  exists cuts tail,
    cut_at statement_starts first_statement html cuts tail
    /\ substitute t (finditer statement_pattern 0 html)
       = rebuilt (fun m => expand t m None) cuts tail.
Proof.
  destruct (scan_cut statement_pattern (fun m g => is_statement m /\ g = None)
                     statement_starts first_statement
                     statement_match_some statement_match_inv) with (s := html)
    as (cuts & tail & Hc & Hp & HM).
  { intros s (body & rest & ->). apply statement_match_complete. }
  exists (map fst cuts), tail. split; [assumption|].
  rewrite Hp. apply substitute_pieces.
  eapply Forall_impl; [|exact HM]. now intros c [_ H].
Qed.

(** ** A text has one cut only *)

Lemma cut_at_inv (starts shape : str -> Prop) (s : str) (cuts : list (str * str))
      (tail : str) :
  cut_at starts shape s cuts tail ->
  match cuts with
  | [] => s = tail /\ forall u v, tail = u ++ v -> ~ starts v
  | (gap, m) :: cuts' =>
      exists rest,
        s = gap ++ m ++ rest
        /\ (forall u v, gap = u ++ v -> v <> [] -> ~ starts (v ++ m ++ rest))
        /\ shape m /\ cut_at starts shape rest cuts' tail
  end.
Proof.
  intros [tail' Ht|gap m rest cuts' tail' Hg Hm Hc]; [now split|].
  now exists rest.
Qed.

Section OneCut.

Variables starts shape : str -> Prop.
Hypothesis shape_starts : forall m rest, shape m -> starts (m ++ rest).
Hypothesis shape_one : forall m m' r r',
  shape m -> shape m' -> m ++ r = m' ++ r' -> m = m'.

Lemma cut_at_unique (cuts : list (str * str)) :
  forall s tail cuts' tail',
  cut_at starts shape s cuts tail -> cut_at starts shape s cuts' tail' ->
  cuts = cuts' /\ tail = tail'.
Proof using shape_starts shape_one.
  induction cuts as [|[gap m] cuts IH]; intros s tail cuts' tail' H H';
    apply cut_at_inv in H; apply cut_at_inv in H'.
  - destruct H as [-> Ht]. destruct cuts' as [|[gap' m'] cuts'].
    + destruct H' as [-> _]. now split.
    + destruct H' as (rest' & -> & _ & Hm' & _). exfalso.
      apply (Ht gap' (m' ++ rest') eq_refl). now apply shape_starts.
  - destruct H as (rest & -> & Hg & Hm & Hc). destruct cuts' as [|[gap' m'] cuts'].
    + destruct H' as [<- Ht]. exfalso.
      apply (Ht gap (m ++ rest) eq_refl). now apply shape_starts.
    + destruct H' as (rest' & E & Hg' & Hm' & Hc').
      assert (Egap : gap = gap').
      { apply app_eq_app in E as (l & [[-> E]|[-> E]]).
        - destruct l as [|x l]; [now rewrite app_nil_r|]. exfalso.
          apply (Hg gap' (x :: l) eq_refl); [discriminate|].
          rewrite <- E. now apply shape_starts.
        - destruct l as [|x l]; [now rewrite app_nil_r|]. exfalso.
          apply (Hg' gap (x :: l) eq_refl); [discriminate|].
          rewrite <- E. now apply shape_starts. }
      subst gap'. apply app_inv_head in E.
      assert (Em : m = m') by (now apply (shape_one m m' rest rest')).
      subst m'. apply app_inv_head in E. subst rest'.
      destruct (IH _ _ _ _ Hc Hc') as [-> ->]. now split.
Qed.

End OneCut.

(** A run that ends at the first [close] ends at one place only. *)
Lemma first_end_unique (close b b' r r' : str) :
  (forall u v, b = u ++ v -> v <> [] -> ~ starts_with close (v ++ close)) ->
  (forall u v, b' = u ++ v -> v <> [] -> ~ starts_with close (v ++ close)) ->
  b ++ close ++ r = b' ++ close ++ r' -> b = b'.
Proof.
  intros Hb Hb' E. apply app_eq_app in E as (l & [[-> E]|[-> E]]).
  - destruct l as [|x l]; [now rewrite app_nil_r|]. exfalso.
    apply (Hb b' (x :: l) eq_refl); [discriminate|].
    apply (starts_with_longer close _ r); [rewrite length_app; lia|].
    exists r'. now rewrite <- app_assoc.
  - destruct l as [|x l]; [now rewrite app_nil_r|]. exfalso.
    apply (Hb' b (x :: l) eq_refl); [discriminate|].
    apply (starts_with_longer close _ r'); [rewrite length_app; lia|].
    exists r. now rewrite <- app_assoc.
Qed.

(** The cuts of the three scans are the only ones. *)
Lemma statement_cut_unique (s : str) (cuts cuts' : list (str * str)) (tail tail' : str) :
  cut_at statement_starts first_statement s cuts tail ->
  cut_at statement_starts first_statement s cuts' tail' ->
  cuts = cuts' /\ tail = tail'.
Proof.
  apply cut_at_unique.
  - intros m rest (body & -> & _). now exists body, rest.
  - intros m m' r r' (b & -> & Hb) (b' & -> & Hb') E.
    rewrite !statement_of_eq, <- !app_assoc in E. apply app_inv_head in E.
    now rewrite (first_end_unique (lit "];") b b' r r' Hb Hb' E).
Qed.

Lemma select_cut_unique (s : str) (cuts cuts' : list (str * str)) (tail tail' : str) :
  cut_at select_starts first_select_block s cuts tail ->
  cut_at select_starts first_select_block s cuts' tail' ->
  cuts = cuts' /\ tail = tail'.
Proof.
  apply cut_at_unique.
  - intros m rest (body & -> & _). now exists body, rest.
  - intros m m' r r' (b & -> & Hb) (b' & -> & Hb') E.
    unfold select_block_of in E. rewrite <- !app_assoc in E. apply app_inv_head in E.
    now rewrite (first_end_unique select_close b b' r r' Hb Hb' E).
Qed.

Lemma option_cut_unique (s : str) (cuts cuts' : list (str * str)) (tail tail' : str) :
  cut_at option_starts is_option s cuts tail ->
  cut_at option_starts is_option s cuts' tail' ->
  cuts = cuts' /\ tail = tail'.
Proof.
  apply cut_at_unique.
  - intros m rest (w & Hw & ->). now exists w, rest.
  - intros m m' r r' (w & Hw & ->) (w' & Hw' & ->) E.
    apply word_label_spec in Hw as [_ Hw]. apply word_label_spec in Hw' as [_ Hw'].
    assert (Ew : w = w'); [|now subst].
    unfold region_option in E. rewrite <- !app_assoc in E. apply app_inv_head in E.
    apply app_eq_app in E as (l & [[-> E]|[-> E]]).
    + destruct l as [|x l]; [now rewrite app_nil_r|]. exfalso.
      injection E as <- _. rewrite forallb_app in Hw.
      apply andb_true_iff in Hw as [_ Hw]. cbn [forallb] in Hw.
      apply andb_true_iff in Hw as [Hx _]. discriminate.
    + destruct l as [|x l]; [now rewrite app_nil_r|]. exfalso.
      injection E as <- _. rewrite forallb_app in Hw'.
      apply andb_true_iff in Hw' as [_ Hw']. cbn [forallb] in Hw'.
      apply andb_true_iff in Hw' as [Hx _]. discriminate.
Qed.

(** C10. [update_dealers_in_html] changes the document only inside the
    statements its pattern matches. The document is cut at them: the
    leftmost statement [const dealersData = [...];] first, ended at the
    first [];] after its bracket, then the leftmost one after its end,
    and so on, with no statement starting in a gap or in the tail. The
    result has the same gaps and the same tail, character for character,
    and in place of each statement a text that depends on the statement
    and on the dealer data only, not on the document around it. A
    document has one such cut only ([statement_cut_unique]). *)
Theorem update_dealers_frame (float_repr : str -> str) (dealers_data : value) :
  exists new : str -> str,
    forall html,
    exists cuts tail,
      cut_at statement_starts first_statement html cuts tail
      /\ html = rebuilt (fun m => m) cuts tail
      /\ fst (update_dealers_in_html float_repr html dealers_data)
         = rebuilt new cuts tail.
Proof.
  destruct (parse_template 0 TNormal
              (lit "const dealersData = " ++ json_dumps float_repr dealers_data
               ++ lit ";")) as [t|] eqn:E.
  - exists (fun m => expand t m None). intros html.
    destruct (statement_cut t html) as (cuts & tail & Hc & Es).
    exists cuts, tail. unfold update_dealers_in_html, re_sub. rewrite E. cbn [fst].
    repeat split; [assumption|now apply (cut_at_text _ _ _ _ _ Hc)|assumption].
  - exists (fun m => m). intros html.
    destruct (statement_cut [] html) as (cuts & tail & Hc & _).
    exists cuts, tail. unfold update_dealers_in_html, re_sub. rewrite E. cbn [fst].
    repeat split; [assumption|now apply (cut_at_text _ _ _ _ _ Hc)
                   |now apply (cut_at_text _ _ _ _ _ Hc)].
Qed.

(** X6. [update_regions_in_html] changes the document only inside the
    selection blocks its pattern matches, and puts the same new block in
    place of each: the opening tag, the placeholder and one option per
    region in sorted order. The document is cut at the blocks: the
    leftmost block first, ended at the first closing tag, then the
    leftmost one after its end, with no block starting in a gap or in the
    tail; a document has one such cut only ([select_cut_unique]). Gaps
    and tail are kept, and nothing is reported. This when no region holds
    a backslash. *)
Theorem update_regions_frame (html : str) (regions : list str) :
  Forall (fun x => ~ In backslash x) regions ->
  exists cuts tail,
    cut_at select_starts first_select_block html cuts tail
    /\ html = rebuilt (fun m => m) cuts tail
    /\ update_regions_in_html html regions
       = (rebuilt (fun _ => new_select regions) cuts tail, []).
Proof.
  intros Hb. unfold update_regions_in_html, re_sub.
  rewrite parse_template_plain by now apply new_select_no_backslash.
  destruct (scan_cut select_pattern (fun m g => is_select_block m /\ g = None)
                     select_starts first_select_block
                     select_match_some) with (s := html)
    as (cuts & tail & Hc & Hp & HM).
  { intros m rest g H. apply select_match_inv in H as (body & -> & _ & H).
    now exists body. }
  { intros s (body & rest & ->). apply select_match_complete. }
  exists (map fst cuts), tail.
  repeat split; [assumption|now apply (cut_at_text _ _ _ _ _ Hc)|].
  rewrite Hp, substitute_pieces
    by (eapply Forall_impl; [|exact HM]; now intros c [_ H]).
  f_equal. unfold rebuilt. f_equal. apply flat_map_ext. intros c.
  now rewrite expand_plain.
Qed.




End Program.

(* ================================================================== *)
(** * Instances at concrete documents *)

Lemma extract_regions_word_labels_witness :
  In (lit "East") (extract_regions ascii_only (litq "<option value='East'>East</option>"))
  /\ (lit "East" <> [] /\ Forall (fun c => is_word ascii_only c = true) (lit "East")).
Proof.
  assert (H : In (lit "East")
                (extract_regions ascii_only (litq "<option value='East'>East</option>")))
    by (vm_compute; now left).
  split; [exact H|].
  exact (extract_regions_word_labels ascii_only _ _ H).
Defined.

(** An option with a space in its label is not returned. *)
Example extract_regions_skips_spaced_label :
  extract_regions ascii_only (litq "<option value='North East'>North East</option>") = [].
Proof. vm_compute. reflexivity. Qed.




Lemma no_statement_without_c (html : str) :
  existsb (N.eqb 99) html = false -> ~ has_statement html.
Proof.
  intros H (pre & body & post & E).
  assert (Hin : In 99%N html).
  { rewrite E, in_app_iff. right. unfold statement_of.
    rewrite <- !app_assoc. now left. }
  assert (existsb (N.eqb 99) html = true); [|congruence].
  apply existsb_exists. exists 99%N. split; [assumption|reflexivity].
Qed.

Lemma update_dealers_without_statement_witness :
  ~ has_statement (lit "<html><body></body></html>")
  /\ fst (update_dealers_in_html (fun x => x) (lit "<html><body></body></html>")
            (VList [dealer_record (lit "A") (lit "1") (lit "5") [lit "X"]
                                  [paddy_entry (lit "Rice") (lit "100")]]))
     = lit "<html><body></body></html>".
Proof.
  assert (H : ~ has_statement (lit "<html><body></body></html>"))
    by (apply no_statement_without_c; reflexivity).
  split; [exact H|].
  exact (update_dealers_without_statement (fun x => x) _ _ H).
Defined.

(** C5 as stated fails: when the statement is missing the empty list is
    returned and no error is reported. *)
Lemma extract_dealers_missing_is_silent :
  re_search array_pattern (lit "<html><body></body></html>") = None
  /\ extract_dealers_data ascii_only (lit "<html><body></body></html>") = (VList [], []).
Proof. split; vm_compute; reflexivity. Qed.

Lemma extract_dealers_failures_witness :
  extract_dealers_data ascii_only (lit "<html><body></body></html>") = (VList [], [])
  /\ extract_dealers_data ascii_only (lit "const dealersData = [{name: Ram}];")
     = (VList [], [ErrorExtractingDealers]).
Proof.
  split.
  - apply (proj1 (extract_dealers_failures ascii_only _)).
    apply no_statement_without_c. reflexivity.
  - apply (proj2 (extract_dealers_failures ascii_only _)
                 (lit "const dealersData = [{name: Ram}];")
                 (Some (lit "[{name: Ram}]"))); vm_compute; reflexivity.
Defined.

Lemma dealers_round_trip_witness :
  has_statement (lit "<script>const dealersData = [];</script>")
  /\ forallb (clean_value ascii_only)
       [dealer_record (lit "Ram Traders") (lit "+91 98765 43210") (lit "4.8")
                      [lit "East"; lit "West"]
                      [paddy_entry (lit "Basmati") (lit "2,500")]] = true
  /\ fix_symbols
       (json_dumps (fun x => x)
          (VList [dealer_record (lit "Ram Traders") (lit "+91 98765 43210") (lit "4.8")
                                [lit "East"; lit "West"]
                                [paddy_entry (lit "Basmati") (lit "2,500")]]))
     = Some (json_dumps (fun x => x)
          (VList [dealer_record (lit "Ram Traders") (lit "+91 98765 43210") (lit "4.8")
                                [lit "East"; lit "West"]
                                [paddy_entry (lit "Basmati") (lit "2,500")]]))
  /\ extract_dealers_data ascii_only
       (fst (update_dealers_in_html (fun x => x)
               (lit "<script>const dealersData = [];</script>")
               (VList [dealer_record (lit "Ram Traders") (lit "+91 98765 43210") (lit "4.8")
                                     [lit "East"; lit "West"]
                                     [paddy_entry (lit "Basmati") (lit "2,500")]])))
     = (VList [dealer_record (lit "Ram Traders") (lit "+91 98765 43210") (lit "4.8")
                             [lit "East"; lit "West"]
                             [paddy_entry (lit "Basmati") (lit "2,500")]], []).
Proof.
  assert (H1 : has_statement (lit "<script>const dealersData = [];</script>"))
    by (exists (lit "<script>"), [], (lit "</script>"); reflexivity).
  assert (H2 : forallb (clean_value ascii_only)
       [dealer_record (lit "Ram Traders") (lit "+91 98765 43210") (lit "4.8")
                      [lit "East"; lit "West"]
                      [paddy_entry (lit "Basmati") (lit "2,500")]] = true)
    by (vm_compute; reflexivity).
  assert (H3 : fix_symbols
       (json_dumps (fun x => x)
          (VList [dealer_record (lit "Ram Traders") (lit "+91 98765 43210") (lit "4.8")
                                [lit "East"; lit "West"]
                                [paddy_entry (lit "Basmati") (lit "2,500")]]))
     = Some (json_dumps (fun x => x)
          (VList [dealer_record (lit "Ram Traders") (lit "+91 98765 43210") (lit "4.8")
                                [lit "East"; lit "West"]
                                [paddy_entry (lit "Basmati") (lit "2,500")]])))
    by (vm_compute; reflexivity).
  split; [exact H1|]. split; [exact H2|]. split; [exact H3|].
  exact (dealers_round_trip ascii_only (fun x => x) _ _ H1 H2 H3).
Defined.

(** C1 fails on the code. A contact that holds a word right before a
    colon is written by [update_dealers_in_html] as valid JSON; the key
    pattern of [extract_dealers_data], meant for the keys, then puts
    quotes around the word inside the string, and the array no longer
    parses: the dealers are lost and an error is shown. The record is
    valid, and the symbol clean-up finds nothing to change in its text. *)
Lemma dealers_round_trip_breaks_on_colon :
  extract_dealers_data ascii_only
    (fst (update_dealers_in_html (fun x => x)
            (lit "<script>const dealersData = [];</script>")
            (VList [dealer_record (lit "Ram Traders") (lit "Tel: 98765") (lit "4.8")
                                  [lit "East"]
                                  [paddy_entry (lit "Basmati") (lit "2,500")]])))
  = (VList [], [ErrorExtractingDealers])
  /\ fix_symbols
       (json_dumps (fun x => x)
          (VList [dealer_record (lit "Ram Traders") (lit "Tel: 98765") (lit "4.8")
                                [lit "East"]
                                [paddy_entry (lit "Basmati") (lit "2,500")]]))
     = Some (json_dumps (fun x => x)
          (VList [dealer_record (lit "Ram Traders") (lit "Tel: 98765") (lit "4.8")
                                [lit "East"]
                                [paddy_entry (lit "Basmati") (lit "2,500")]])).
Proof. split; vm_compute; reflexivity. Qed.

Lemma fix_symbols_dumps_witness :
  clean_value ascii_only
    (VList [dealer_record (lit "Ram Traders") (lit "+91 98765 43210") (lit "4.8")
                          [lit "East"; lit "West"]
                          [paddy_entry (lit "Basmati") (lit "2,500")]]) = true
  /\ forallb no_garbled_start
       (strings_of
          (VList [dealer_record (lit "Ram Traders") (lit "+91 98765 43210") (lit "4.8")
                                [lit "East"; lit "West"]
                                [paddy_entry (lit "Basmati") (lit "2,500")]])) = true
  /\ fix_symbols
       (json_dumps (fun x => x)
          (VList [dealer_record (lit "Ram Traders") (lit "+91 98765 43210") (lit "4.8")
                                [lit "East"; lit "West"]
                                [paddy_entry (lit "Basmati") (lit "2,500")]]))
     = Some (json_dumps (fun x => x)
          (VList [dealer_record (lit "Ram Traders") (lit "+91 98765 43210") (lit "4.8")
                                [lit "East"; lit "West"]
                                [paddy_entry (lit "Basmati") (lit "2,500")]])).
Proof.
  assert (H1 : clean_value ascii_only
    (VList [dealer_record (lit "Ram Traders") (lit "+91 98765 43210") (lit "4.8")
                          [lit "East"; lit "West"]
                          [paddy_entry (lit "Basmati") (lit "2,500")]]) = true)
    by (vm_compute; reflexivity).
  assert (H2 : forallb no_garbled_start
       (strings_of
          (VList [dealer_record (lit "Ram Traders") (lit "+91 98765 43210") (lit "4.8")
                                [lit "East"; lit "West"]
                                [paddy_entry (lit "Basmati") (lit "2,500")]])) = true)
    by (vm_compute; reflexivity).
  split; [exact H1|]. split; [exact H2|].
  exact (fix_symbols_dumps ascii_only (fun x => x) _ H1 H2).
Defined.

Lemma dealer_record_clean_witness :
  clean_str ascii_only (lit "Ram Traders") = true
  /\ clean_str ascii_only (lit "+91 98765 43210") = true
  /\ clean_str ascii_only (lit "4.8") = true
  /\ forallb (clean_str ascii_only) [lit "East"; lit "West"] = true
  /\ forallb (clean_value ascii_only) [paddy_entry (lit "Basmati") (lit "2,500")] = true
  /\ clean_value ascii_only
       (dealer_record (lit "Ram Traders") (lit "+91 98765 43210") (lit "4.8")
                      [lit "East"; lit "West"]
                      [paddy_entry (lit "Basmati") (lit "2,500")]) = true.
Proof.
  assert (H1 : clean_str ascii_only (lit "Ram Traders") = true) by reflexivity.
  assert (H2 : clean_str ascii_only (lit "+91 98765 43210") = true) by reflexivity.
  assert (H3 : clean_str ascii_only (lit "4.8") = true) by reflexivity.
  assert (H4 : forallb (clean_str ascii_only) [lit "East"; lit "West"] = true)
    by reflexivity.
  assert (H5 : forallb (clean_value ascii_only)
                 [paddy_entry (lit "Basmati") (lit "2,500")] = true) by reflexivity.
  repeat (split; [assumption|]).
  exact (dealer_record_clean ascii_only _ _ _ _ _ H1 H2 H3 H4 H5).
Defined.

Lemma no_select_without_eq (html : str) :
  existsb (N.eqb 61) html = false -> ~ has_select_block html.
Proof.
  intros H (pre & body & post & E).
  assert (Hin : In 61%N html).
  { rewrite E, in_app_iff. right. unfold select_block_of, select_open.
    rewrite !in_app_iff. left. now vm_compute; intuition. }
  assert (existsb (N.eqb 61) html = true); [|congruence].
  apply existsb_exists. exists 61%N. split; [assumption|reflexivity].
Qed.

Lemma update_regions_without_select_witness :
  ~ has_select_block (lit "<html><body></body></html>")
  /\ fst (update_regions_in_html (lit "<html><body></body></html>")
                                 [lit "West"; lit "East"])
     = lit "<html><body></body></html>".
Proof.
  assert (H : ~ has_select_block (lit "<html><body></body></html>"))
    by (apply no_select_without_eq; reflexivity).
  split; [exact H|].
  exact (update_regions_without_select _ _ H).
Defined.

Lemma get_file_reads_what_was_sent_witness :
  update_request (lit "main") [8377; 53]%N (VStr (lit "abc")) (lit "Update dealers data")
  = Some [(lit "message", VStr (lit "Update dealers data"));
          (lit "content", VStr (lit "4oK5NQ=="));
          (lit "sha", VStr (lit "abc"));
          (lit "branch", VStr (lit "main"))]
  /\ dict_get [(lit "message", VStr (lit "Update dealers data"));
               (lit "content", VStr (lit "4oK5NQ=="));
               (lit "sha", VStr (lit "abc"));
               (lit "branch", VStr (lit "main"))] (lit "content")
     = Some (VStr (lit "4oK5NQ=="))
  /\ carries (VDict [(lit "sha", VStr (lit "def"));
                     (lit "content", VStr (lit "4oK5" ++ nl :: lit "NQ==" ++ [nl]))])
             (lit "4oK5NQ==") (VStr (lit "def"))
  /\ get_file (Some (VDict [(lit "sha", VStr (lit "def"));
                            (lit "content",
                             VStr (lit "4oK5" ++ nl :: lit "NQ==" ++ [nl]))]))
     = (Some ([8377; 53]%N, VStr (lit "def")), []).
Proof.
  assert (H1 : update_request (lit "main") [8377; 53]%N (VStr (lit "abc"))
                              (lit "Update dealers data")
               = Some [(lit "message", VStr (lit "Update dealers data"));
                       (lit "content", VStr (lit "4oK5NQ=="));
                       (lit "sha", VStr (lit "abc"));
                       (lit "branch", VStr (lit "main"))])
    by (vm_compute; reflexivity).
  assert (H2 : dict_get [(lit "message", VStr (lit "Update dealers data"));
                         (lit "content", VStr (lit "4oK5NQ=="));
                         (lit "sha", VStr (lit "abc"));
                         (lit "branch", VStr (lit "main"))] (lit "content")
               = Some (VStr (lit "4oK5NQ=="))) by (vm_compute; reflexivity).
  assert (H3 : carries (VDict [(lit "sha", VStr (lit "def"));
                               (lit "content",
                                VStr (lit "4oK5" ++ nl :: lit "NQ==" ++ [nl]))])
                       (lit "4oK5NQ==") (VStr (lit "def"))).
  { exists (lit "4oK5" ++ nl :: lit "NQ==" ++ [nl]). repeat split; vm_compute; reflexivity. }
  split; [exact H1|]. split; [exact H2|]. split; [exact H3|].
  exact (get_file_reads_what_was_sent _ _ _ _ _ _ _ _ H1 H2 H3).
Defined.

Lemma delete_region_removes_witness :
  In (lit "West") (regions demo_page)
  /\ NoDup (regions demo_page)
  /\ exists p',
       delete_region demo_page (lit "West") = Some p'
       /\ regions p' = filter (fun y => negb (str_eqb y (lit "West"))) (regions demo_page)
       /\ ~ In (lit "West") (regions p')
       /\ changes_made (forms p') = true
       /\ dealers (forms p') = dealers (forms demo_page).
Proof.
  assert (H1 : In (lit "West") (regions demo_page)) by (left; reflexivity).
  assert (H2 : NoDup (regions demo_page)).
  { repeat constructor; vm_compute; intuition discriminate. }
  split; [exact H1|]. split; [exact H2|].
  exact (delete_region_removes demo_page (lit "West") H1 H2).
Defined.

Lemma add_region_keeps_distinct_witness :
  NoDup (regions demo_page)
  /\ ~ In [] (regions demo_page)
  /\ NoDup (regions (add_region demo_page (lit "North")))
  /\ ~ In [] (regions (add_region demo_page (lit "North")))
  /\ (lit "North" <> [] -> In (lit "North") (regions (add_region demo_page (lit "North"))))
  /\ (regions (add_region demo_page (lit "North")) = regions demo_page
      \/ regions (add_region demo_page (lit "North")) = regions demo_page ++ [lit "North"]
         /\ changes_made (forms (add_region demo_page (lit "North"))) = true).
Proof.
  assert (H1 : NoDup (regions demo_page)).
  { repeat constructor; vm_compute; intuition discriminate. }
  assert (H2 : ~ In [] (regions demo_page)) by (vm_compute; intuition discriminate).
  split; [exact H1|]. split; [exact H2|].
  exact (add_region_keeps_distinct demo_page (lit "North") H1 H2).
Defined.

Lemma handle_sets_unsaved_flag_witness :
  exists p',
    handle demo_page (AddRegion (lit "North")) = Some p'
    /\ html_content p' = html_content demo_page /\ sha p' = sha demo_page
    /\ (dealers (forms p') = dealers (forms demo_page) /\ regions p' = regions demo_page
        \/ changes_made (forms p') = true).
Proof.
  eexists. split; [reflexivity|].
  exact (handle_sets_unsaved_flag demo_page _ (AddRegion (lit "North")) eq_refl).
Defined.

Lemma overview_counts_witness :
  served_regions [demo_dealer; demo_other] = Some [[lit "East"; lit "West"]; [lit "East"]]
  /\ exists lines,
       overview [demo_dealer; demo_other] = Some lines
       /\ StronglySorted str_le (map fst lines)
       /\ NoDup (map fst lines)
       /\ forall region n,
            In (region, n) lines
            <-> n = occurrences region
                      (concat [[lit "East"; lit "West"]; [lit "East"]]) /\ 0 < n.
Proof.
  assert (H : served_regions [demo_dealer; demo_other]
              = Some [[lit "East"; lit "West"]; [lit "East"]]) by reflexivity.
  split; [exact H|].
  exact (overview_counts _ _ H).
Defined.

Lemma document_round_trip_witness :
  laid_out demo_html []
           (litq "<select class='area-select' id='areaSelect'><option value='Old'>Old</option></select>")
           (lit "<script>") (lit "const dealersData = [];") (lit "</script>")
  /\ plain_dealers ascii_only [demo_dealer; demo_other] = true
  /\ Forall (fun x => word_label ascii_only x = true) [lit "West"; lit "East"]
  /\ extract_dealers_data ascii_only
       (fst (update_regions_in_html
               (fst (update_dealers_in_html (fun x => x) demo_html
                       (VList [demo_dealer; demo_other])))
               [lit "West"; lit "East"]))
     = (VList [demo_dealer; demo_other], [])
  /\ extract_regions ascii_only
       (fst (update_regions_in_html
               (fst (update_dealers_in_html (fun x => x) demo_html
                       (VList [demo_dealer; demo_other])))
               [lit "West"; lit "East"]))
     = sorted [lit "West"; lit "East"].
Proof.
  assert (H1 : laid_out demo_html []
           (litq "<select class='area-select' id='areaSelect'><option value='Old'>Old</option></select>")
           (lit "<script>") (lit "const dealersData = [];") (lit "</script>"))
    by (repeat split; vm_compute; reflexivity).
  assert (H2 : plain_dealers ascii_only [demo_dealer; demo_other] = true) by (vm_compute; reflexivity).
  assert (H3 : Forall (fun x => word_label ascii_only x = true) [lit "West"; lit "East"])
    by (repeat constructor).
  split; [exact H1|]. split; [exact H2|]. split; [exact H3|].
  exact (document_round_trip ascii_only (fun x => x) _ _ _ _ _ _ _ _ H1 H2 H3).
Defined.

Lemma save_then_load_witness :
  laid_out (html_content demo_page) []
           (litq "<select class='area-select' id='areaSelect'><option value='Old'>Old</option></select>")
           (lit "<script>") (lit "const dealersData = [];") (lit "</script>")
  /\ plain_dealers ascii_only (dealers (forms demo_page)) = true
  /\ Forall (fun x => word_label ascii_only x = true) (regions demo_page)
  /\ exists data sent,
       update_request (lit "main") (fst (updated_html (fun x => x) demo_page))
                      (sha demo_page) (lit "Update dealers data")
       = Some data
       /\ dict_get data (lit "content") = Some (VStr sent)
       /\ carries (VDict [(lit "sha", VStr (lit "def"));
                          (lit "content", VStr (sent ++ [nl]))])
                  sent (VStr (lit "def"))
       /\ dealers (forms (load ascii_only (save (fun x => x) (lit "main") (fun _ => true) demo_page
                                     (lit "Update dealers data"))
                               (Some (VDict [(lit "sha", VStr (lit "def"));
                                             (lit "content", VStr (sent ++ [nl]))]))))
          = dealers (forms demo_page)
       /\ regions (load ascii_only (save (fun x => x) (lit "main") (fun _ => true) demo_page
                              (lit "Update dealers data"))
                        (Some (VDict [(lit "sha", VStr (lit "def"));
                                      (lit "content", VStr (sent ++ [nl]))])))
          = sorted (regions demo_page)
       /\ html_content (load ascii_only (save (fun x => x) (lit "main") (fun _ => true) demo_page
                                   (lit "Update dealers data"))
                             (Some (VDict [(lit "sha", VStr (lit "def"));
                                           (lit "content", VStr (sent ++ [nl]))])))
          = fst (updated_html (fun x => x) demo_page)
       /\ sha (load ascii_only (save (fun x => x) (lit "main") (fun _ => true) demo_page
                          (lit "Update dealers data"))
                    (Some (VDict [(lit "sha", VStr (lit "def"));
                                  (lit "content", VStr (sent ++ [nl]))])))
          = VStr (lit "def")
       /\ changes_made
            (forms (load ascii_only (save (fun x => x) (lit "main") (fun _ => true) demo_page
                               (lit "Update dealers data"))
                         (Some (VDict [(lit "sha", VStr (lit "def"));
                                       (lit "content", VStr (sent ++ [nl]))]))))
          = false.
Proof.
  assert (H1 : laid_out (html_content demo_page) []
           (litq "<select class='area-select' id='areaSelect'><option value='Old'>Old</option></select>")
           (lit "<script>") (lit "const dealersData = [];") (lit "</script>"))
    by (repeat split; vm_compute; reflexivity).
  assert (H2 : plain_dealers ascii_only (dealers (forms demo_page)) = true)
    by (vm_compute; reflexivity).
  assert (H3 : Forall (fun x => word_label ascii_only x = true) (regions demo_page))
    by (repeat constructor).
  split; [exact H1|]. split; [exact H2|]. split; [exact H3|].
  destruct (update_request (lit "main") (fst (updated_html (fun x => x) demo_page))
                           (sha demo_page) (lit "Update dealers data"))
    as [data|] eqn:H4; [|vm_compute in H4; discriminate].
  destruct (dict_get data (lit "content")) as [[| | | |sent| |]|] eqn:H5;
    try (exfalso; revert H5; vm_compute in H4; injection H4 as <-; vm_compute;
         discriminate).
  assert (H6 : carries (VDict [(lit "sha", VStr (lit "def"));
                               (lit "content", VStr (sent ++ [nl]))])
                       sent (VStr (lit "def"))).
  { exists (sent ++ [nl]).
    revert H5. vm_compute in H4. injection H4 as <-. vm_compute.
    intros H5. injection H5 as <-. repeat split; vm_compute; reflexivity. }
  exists data, sent. split; [reflexivity|]. split; [exact H5|]. split; [exact H6|].
  exact (save_then_load ascii_only (fun x => x) (lit "main") (fun _ => true) demo_page
                        (lit "Update dealers data") _ _ _ _ _ sent data _ _
                        H1 H2 H3 H4 eq_refl H5 H6).
Defined.

Lemma update_dealers_last_write_wins_witness :
  forallb (clean_value ascii_only) [demo_dealer] = true
  /\ forallb (clean_value ascii_only) [demo_dealer; demo_other] = true
  /\ update_dealers_in_html (fun x => x)
       (fst (update_dealers_in_html (fun x => x) demo_html (VList [demo_dealer])))
       (VList [demo_dealer; demo_other])
     = update_dealers_in_html (fun x => x) demo_html (VList [demo_dealer; demo_other]).
Proof.
  assert (H1 : forallb (clean_value ascii_only) [demo_dealer] = true)
    by (vm_compute; reflexivity).
  assert (H2 : forallb (clean_value ascii_only) [demo_dealer; demo_other] = true)
    by (vm_compute; reflexivity).
  split; [exact H1|]. split; [exact H2|].
  exact (update_dealers_last_write_wins ascii_only (fun x => x) demo_html _ _ H1 H2).
Defined.

Lemma update_regions_last_write_wins_witness :
  Forall (fun x => word_label ascii_only x = true) [lit "West"; lit "East"]
  /\ Forall (fun x => ~ In backslash x) [lit "North East"]
  /\ update_regions_in_html
       (fst (update_regions_in_html demo_html [lit "West"; lit "East"]))
       [lit "North East"]
     = update_regions_in_html demo_html [lit "North East"].
Proof.
  assert (H1 : Forall (fun x => word_label ascii_only x = true) [lit "West"; lit "East"])
    by (repeat constructor).
  assert (H2 : Forall (fun x => ~ In backslash x) [lit "North East"])
    by (repeat constructor; vm_compute; intuition discriminate).
  split; [exact H1|]. split; [exact H2|].
  exact (update_regions_last_write_wins ascii_only demo_html _ _ H1 H2).
Defined.

Lemma fetched_document_can_be_sent_witness :
  get_file (Some (VDict [(lit "sha", VStr (lit "def"));
                         (lit "content", VStr (lit "4oK5" ++ nl :: lit "NQ==" ++ [nl]))]))
  = (Some ([8377; 53]%N, VStr (lit "def")), [])
  /\ forallb is_scalar [8377; 53]%N = true
  /\ exists data,
       update_request (lit "main") [8377; 53]%N (VStr (lit "def"))
                      (lit "Update dealers data")
       = Some data.
Proof.
  assert (H : get_file (Some (VDict [(lit "sha", VStr (lit "def"));
                                     (lit "content",
                                      VStr (lit "4oK5" ++ nl :: lit "NQ==" ++ [nl]))]))
              = (Some ([8377; 53]%N, VStr (lit "def")), []))
    by (vm_compute; reflexivity).
  split; [exact H|].
  exact (fetched_document_can_be_sent _ _ (lit "main") (lit "Update dealers data")
                                      _ (VStr (lit "def")) _ H).
Defined.

Lemma submit_edit_changes_one_witness :
  editing_dealer (forms demo_page) = Some 0
  /\ exists st',
       submit_edit (forms demo_page) (lit "Ram Traders") (lit "111") (lit "5")
                   [lit "East"] [(lit "Basmati", lit "2,600")]
       = Some st'
       /\ length (dealers st') = length (dealers (forms demo_page))
       /\ nth_error (dealers st') 0
          = Some (dealer_record (lit "Ram Traders") (lit "111") (lit "5") [lit "East"]
                                (collect_paddy [(lit "Basmati", lit "2,600")]))
       /\ (forall j, j <> 0 ->
             nth_error (dealers st') j = nth_error (dealers (forms demo_page)) j)
       /\ editing_dealer st' = None /\ changes_made st' = true.
Proof.
  assert (H : editing_dealer (forms demo_page) = Some 0) by reflexivity.
  split; [exact H|].
  eexists. split; [reflexivity|].
  exact (submit_edit_changes_one (forms demo_page) _ 0 (lit "Ram Traders") (lit "111")
                                 (lit "5") [lit "East"] [(lit "Basmati", lit "2,600")]
                                 H eq_refl).
Defined.

Lemma bare_keys_read_as_quoted_witness :
  forallb (chunk_ok ascii_only)
          [Plain (lit "[{"); Key (lit "name"); Plain (litq " 'A', ");
           Key (lit "regions"); Plain (litq " ['X']}]")] = true
  /\ quote_keys ascii_only
       (bare [Plain (lit "[{"); Key (lit "name"); Plain (litq " 'A', ");
              Key (lit "regions"); Plain (litq " ['X']}]")])
     = Some (quoted [Plain (lit "[{"); Key (lit "name"); Plain (litq " 'A', ");
                     Key (lit "regions"); Plain (litq " ['X']}]")])
  /\ extract_dealers_data ascii_only
       (litq "<script>const dealersData = [{name: 'A', regions: ['X']}];</script>")
     = extract_dealers_data ascii_only
         (litq "<script>const dealersData = [{'name': 'A', 'regions': ['X']}];</script>").
Proof.
  assert (H : forallb (chunk_ok ascii_only)
                      [Plain (lit "[{"); Key (lit "name"); Plain (litq " 'A', ");
                       Key (lit "regions"); Plain (litq " ['X']}]")] = true)
    by (vm_compute; reflexivity).
  split; [exact H|].
  exact (bare_keys_read_as_quoted
           ascii_only
           (litq "<script>const dealersData = [{name: 'A', regions: ['X']}];</script>")
           (litq "<script>const dealersData = [{'name': 'A', 'regions': ['X']}];</script>")
           (litq "const dealersData = [{name: 'A', regions: ['X']}];")
           (litq "const dealersData = [{'name': 'A', 'regions': ['X']}];")
           _ H eq_refl eq_refl).
Defined.

Lemma extract_dealers_bare_keys_witness :
  forallb (clean_value ascii_only) [demo_dealer; demo_other] = true
  /\ word_keys ascii_only (VList [demo_dealer; demo_other]) = true
  /\ forallb no_garbled_start (strings_of (VList [demo_dealer; demo_other])) = true
  /\ re_search array_pattern
       (lit "<script>const dealersData = "
        ++ bare_iterencode (fun x => x) 0 (VList [demo_dealer; demo_other])
        ++ lit ";</script>")
     = Some (lit "const dealersData = "
             ++ bare_iterencode (fun x => x) 0 (VList [demo_dealer; demo_other])
             ++ lit ";",
             Some (bare_iterencode (fun x => x) 0 (VList [demo_dealer; demo_other])))
  /\ extract_dealers_data ascii_only
       (lit "<script>const dealersData = "
        ++ bare_iterencode (fun x => x) 0 (VList [demo_dealer; demo_other])
        ++ lit ";</script>")
     = (VList [demo_dealer; demo_other], []).
Proof.
  assert (H1 : forallb (clean_value ascii_only) [demo_dealer; demo_other] = true)
    by (vm_compute; reflexivity).
  assert (H2 : word_keys ascii_only (VList [demo_dealer; demo_other]) = true)
    by (vm_compute; reflexivity).
  assert (H3 : forallb no_garbled_start (strings_of (VList [demo_dealer; demo_other]))
               = true) by (vm_compute; reflexivity).
  assert (H4 : re_search array_pattern
                 (lit "<script>const dealersData = "
                  ++ bare_iterencode (fun x => x) 0 (VList [demo_dealer; demo_other])
                  ++ lit ";</script>")
               = Some (lit "const dealersData = "
                       ++ bare_iterencode (fun x => x) 0 (VList [demo_dealer; demo_other])
                       ++ lit ";",
                       Some (bare_iterencode (fun x => x) 0
                                             (VList [demo_dealer; demo_other]))))
    by (vm_compute; reflexivity).
  split; [exact H1|]. split; [exact H2|]. split; [exact H3|]. split; [exact H4|].
  exact (extract_dealers_bare_keys ascii_only (fun x => x) _ _ _ H1 H2 H3 H4).
Defined.

Lemma fetched_document_sent_unchanged_witness :
  get_file (Some (VDict [(lit "sha", VStr (lit "def"));
                         (lit "content", VStr (lit "4oK5" ++ nl :: lit "NQ==" ++ [nl]))]))
  = (Some ([8377; 53]%N, VStr (lit "def")), [])
  /\ exists raw,
       b64decode (lit "4oK5" ++ nl :: lit "NQ==" ++ [nl]) = Some raw
       /\ utf8_decode raw = Some [8377; 53]%N
       /\ update_request (lit "main") [8377; 53]%N (VStr (lit "def"))
                         (lit "Update dealers data")
          = Some [(lit "message", VStr (lit "Update dealers data"));
                  (lit "content", VStr (b64encode raw));
                  (lit "sha", VStr (lit "def"));
                  (lit "branch", VStr (lit "main"))].
Proof.
  assert (H : get_file (Some (VDict [(lit "sha", VStr (lit "def"));
                                     (lit "content",
                                      VStr (lit "4oK5" ++ nl :: lit "NQ==" ++ [nl]))]))
              = (Some ([8377; 53]%N, VStr (lit "def")), []))
    by (vm_compute; reflexivity).
  split; [exact H|].
  exact (fetched_document_sent_unchanged _ _ _ (lit "main") (lit "Update dealers data")
                                         _ (VStr (lit "def")) _ H eq_refl).
Defined.

Lemma load_refuses_empty_document_witness :
  carries (VDict [(lit "sha", VStr (lit "def")); (lit "content", VStr [nl])])
          [] (VStr (lit "def"))
  /\ get_file (Some (VDict [(lit "sha", VStr (lit "def")); (lit "content", VStr [nl])]))
     = (Some ([], VStr (lit "def")), [])
  /\ load ascii_only demo_page
          (Some (VDict [(lit "sha", VStr (lit "def")); (lit "content", VStr [nl])]))
     = with_notices demo_page [ErrorLoadFailed].
Proof.
  assert (H : carries (VDict [(lit "sha", VStr (lit "def")); (lit "content", VStr [nl])])
                      [] (VStr (lit "def")))
    by (exists [nl]; repeat split).
  split; [exact H|].
  exact (load_refuses_empty_document ascii_only demo_page _ _ H).
Defined.

Lemma click_delete_removes_one_witness :
  exists p',
    click_delete demo_page 0 = Some p'
    /\ length (dealers (forms demo_page)) = S (length (dealers (forms p')))
    /\ (forall j, j < 0 ->
          nth_error (dealers (forms p')) j = nth_error (dealers (forms demo_page)) j)
    /\ (forall j, 0 <= j ->
          nth_error (dealers (forms p')) j = nth_error (dealers (forms demo_page)) (S j))
    /\ changes_made (forms p') = true
    /\ regions p' = regions demo_page
    /\ exists dealer name,
         nth_error (dealers (forms demo_page)) 0 = Some dealer
         /\ getitem dealer (lit "name") = Some name
         /\ notices p' = notices demo_page ++ [SuccessDeleted name].
Proof.
  eexists. split; [reflexivity|].
  exact (click_delete_removes_one demo_page _ 0 eq_refl).
Defined.

Lemma save_without_statement_witness :
  ~ has_statement (lit "<html><body></body></html>")
  /\ exists data,
       update_request (lit "main") (lit "<html><body></body></html>")
                      (VStr (lit "abc")) (lit "Update dealers data") = Some data
       /\ html_content
            (save (fun x => x) (lit "main") (fun _ => true)
                  {| html_content := lit "<html><body></body></html>";
                     sha := VStr (lit "abc");
                     regions := [lit "West"; lit "East"];
                     forms := {| dealers := [demo_dealer];
                                 changes_made := true;
                                 editing_dealer := None;
                                 shown := [] |};
                     notices := [] |}
                  (lit "Update dealers data"))
          = lit "<html><body></body></html>"
       /\ changes_made
            (forms
               (save (fun x => x) (lit "main") (fun _ => true)
                     {| html_content := lit "<html><body></body></html>";
                        sha := VStr (lit "abc");
                        regions := [lit "West"; lit "East"];
                        forms := {| dealers := [demo_dealer];
                                    changes_made := true;
                                    editing_dealer := None;
                                    shown := [] |};
                        notices := [] |}
                     (lit "Update dealers data")))
          = false
       /\ notices
            (save (fun x => x) (lit "main") (fun _ => true)
                  {| html_content := lit "<html><body></body></html>";
                     sha := VStr (lit "abc");
                     regions := [lit "West"; lit "East"];
                     forms := {| dealers := [demo_dealer];
                                 changes_made := true;
                                 editing_dealer := None;
                                 shown := [] |};
                     notices := [] |}
                  (lit "Update dealers data"))
          = [SuccessSaved].
Proof.
  assert (H : ~ has_statement (lit "<html><body></body></html>"))
    by (apply no_statement_without_c; reflexivity).
  split; [exact H|].
  eexists. split; [reflexivity|].
  exact (save_without_statement
           (fun x => x) (lit "main") (fun _ => true)
           {| html_content := lit "<html><body></body></html>";
              sha := VStr (lit "abc");
              regions := [lit "West"; lit "East"];
              forms := {| dealers := [demo_dealer];
                          changes_made := true;
                          editing_dealer := None;
                          shown := [] |};
              notices := [] |}
           (lit "Update dealers data") _ H eq_refl eq_refl).
Defined.

Lemma run_keeps_sha_witness :
  exists p',
    run (fun x => x) (lit "main") demo_page
        [Save (lit "Update dealers data") true; Act (AddRegion (lit "North"));
         Save (lit "Update dealers data") false]
    = Some p'
    /\ sha p' = sha demo_page
    /\ forall html commit_message data,
         update_request (lit "main") html (sha p') commit_message = Some data ->
         dict_get data (lit "sha") = Some (sha demo_page).
Proof.
  eexists. split; [reflexivity|].
  exact (run_keeps_sha (fun x => x) (lit "main") demo_page _
                       [Save (lit "Update dealers data") true;
                        Act (AddRegion (lit "North"));
                        Save (lit "Update dealers data") false] eq_refl).
Defined.

Lemma update_regions_frame_witness :
  Forall (fun x => ~ In backslash x) [lit "West"; lit "East"]
  /\ exists cuts tail,
       cut_at select_starts first_select_block demo_html cuts tail
       /\ demo_html = rebuilt (fun m => m) cuts tail
       /\ update_regions_in_html demo_html [lit "West"; lit "East"]
          = (rebuilt (fun _ => new_select [lit "West"; lit "East"]) cuts tail, []).
Proof.
  assert (H : Forall (fun x => ~ In backslash x) [lit "West"; lit "East"]).
  { repeat constructor; intros Hin; vm_compute in Hin; intuition discriminate. }
  split; [exact H|].
  exact (update_regions_frame _ _ H).
Defined.

Lemma submit_add_validates_witness :
  submit_add {| dealers := []; changes_made := false;
                editing_dealer := None; shown := [] |}
             (lit "Ram Traders") [] (lit "4.8") [lit "East"]
             [(lit "Basmati", lit "2,500")]
  = {| dealers := []; changes_made := false;
       editing_dealer := None; shown := [ErrorFillRequired] |}
  /\ submit_add {| dealers := []; changes_made := false;
                   editing_dealer := None; shown := [] |}
                (lit "Ram Traders") (lit "98765") (lit "4.8") [lit "East"]
                [([], lit "1,900"); (lit "Basmati", lit "2,500")]
     = {| dealers := [dealer_record (lit "Ram Traders") (lit "98765") (lit "4.8")
                                    [lit "East"]
                                    [paddy_entry (lit "Basmati") (lit "2,500")]];
          changes_made := true;
          editing_dealer := None;
          shown := [SuccessAdded (lit "Ram Traders")] |}.
Proof.
  split.
  - apply (proj1 (submit_add_validates
                    {| dealers := []; changes_made := false;
                       editing_dealer := None; shown := [] |}
                    (lit "Ram Traders") [] (lit "4.8") [lit "East"]
                    [(lit "Basmati", lit "2,500")])).
    right. left. reflexivity.
  - apply (proj2 (submit_add_validates
                    {| dealers := []; changes_made := false;
                       editing_dealer := None; shown := [] |}
                    (lit "Ram Traders") (lit "98765") (lit "4.8") [lit "East"]
                    [([], lit "1,900"); (lit "Basmati", lit "2,500")])).
    intros [H|[H|[H|[H|H]]]]; try discriminate.
    inversion H as [|? ? _ H']. inversion H' as [|? ? [E|E] _]; discriminate.
Defined.

Lemma delete_shifts_edit_witness :
  editing_dealer (forms demo_page) = Some 0
  /\ 0 <= 0
  /\ exists p',
       click_delete demo_page 0 = Some p'
       /\ editing_dealer (forms p') = Some 0
       /\ nth_error (dealers (forms p')) 0 = nth_error (dealers (forms demo_page)) 1
       /\ (nth_error (dealers (forms demo_page)) 1 = None ->
           submit_edit (forms p') (lit "Ram Traders") (lit "111") (lit "5")
                       [lit "East"] [] = None)
       /\ forall st',
            submit_edit (forms p') (lit "Ram Traders") (lit "111") (lit "5")
                        [lit "East"] []
            = Some st' ->
            dealers st'
            = list_pop (list_set (dealers (forms demo_page)) 1
                          (dealer_record (lit "Ram Traders") (lit "111") (lit "5")
                                         [lit "East"] (collect_paddy [])))
                       0.
Proof.
  assert (H1 : editing_dealer (forms demo_page) = Some 0) by reflexivity.
  assert (H2 : 0 <= 0) by lia.
  split; [exact H1|]. split; [exact H2|].
  eexists. split; [reflexivity|].
  exact (delete_shifts_edit demo_page _ 0 0 (lit "Ram Traders") (lit "111") (lit "5")
                            [lit "East"] [] H1 H2 eq_refl).
Defined.

(** C6 fails on the code for a label that holds a backslash. The regions
    tab takes any name that is not empty. [update_regions_in_html] builds
    the block and hands it to [re.sub] as the replacement, which reads a
    backslash in it as an escape: at [North\South] it raises, the
    document is returned with the block it had and an error is shown; at
    [Up\north] the block is written with a line break where the label
    has a backslash and an [n]. For West and East the block is written
    as the claim says, East before West after the placeholder. *)
Lemma update_regions_breaks_on_backslash :
  regions (add_region demo_page (lit "North\South"))
  = [lit "West"; lit "East"; lit "North\South"]
  /\ update_regions_in_html demo_html [lit "West"; lit "East"; lit "North\South"]
     = (demo_html, [ErrorUpdatingRegions])
  /\ update_regions_in_html demo_html [lit "Up\north"]
     = (litq "<select class='area-select' id='areaSelect'>" ++ nl :: spaces 20
        ++ placeholder_option ++ nl :: spaces 20
        ++ litq "<option value='Up" ++ nl :: litq "orth'>Up" ++ nl :: lit "orth</option>"
        ++ nl :: spaces 16 ++ lit "</select><script>const dealersData = [];</script>", [])
  /\ update_regions_in_html demo_html [lit "West"; lit "East"]
     = (litq "<select class='area-select' id='areaSelect'>" ++ nl :: spaces 20
        ++ placeholder_option ++ nl :: spaces 20
        ++ litq "<option value='East'>East</option>" ++ nl :: spaces 20
        ++ litq "<option value='West'>West</option>"
        ++ nl :: spaces 16 ++ lit "</select><script>const dealersData = [];</script>", []).
Proof. repeat split; vm_compute; reflexivity. Qed.

(** The same slip on the dealers: [update_dealers_in_html] hands the text
    of [json.dumps] to [re.sub] as the replacement, which reads the two
    backslashes JSON writes for one as an escape and leaves one; the
    array written no longer parses. *)
Example dealers_round_trip_breaks_on_backslash :
  extract_dealers_data ascii_only
    (fst (update_dealers_in_html (fun x => x)
            (lit "<script>const dealersData = [];</script>")
            (VList [dealer_record (lit "Ram Traders") (lit "A\B") (lit "4.8")
                                  [lit "East"]
                                  [paddy_entry (lit "Basmati") (lit "2,500")]])))
  = (VList [], [ErrorExtractingDealers]).
Proof. vm_compute. reflexivity. Qed.
